(** * Verification of the MPI cellular-automaton traffic simulation

    A shallow embedding of [main] and of [Simulation::run_simulation]
    (the driver of one MPI rank) together with the properties the
    specification states about them: the segment partition, the per-tick
    driver sequence, the boundary handoff, and the final reduction of the
    per-rank travel-time statistics at rank 0. *)

From Stdlib Require Import ZArith QArith Qfield Lia List Permutation String.
From stdpp Require Import base list gmap.

(** ** Segment partition computed by [main] *)

Module Partition.
Local Open Scope Z_scope.

(** [int] is a 32-bit signed integer.  The arithmetic of [main] is written
    over [Z]; [partition_in_int_range] below shows that it never leaves the
    range of [int], so no wrap-around is involved. *)
Definition int_min : Z := - 2 ^ 31.
Definition int_max : Z := 2 ^ 31 - 1.
Definition in_int (z : Z) : Prop := int_min <= z <= int_max.

(** [int segment_size = road_length / size;]  C division truncates. *)
Definition segment_size (road_length size : Z) : Z := Z.quot road_length size.

(** [int remainder = road_length % size;] *)
Definition remainder (road_length size : Z) : Z := Z.rem road_length size.

(** [int start_pos = rank * segment_size + std::min(rank, remainder);] *)
Definition start_pos (road_length size rank : Z) : Z :=
  rank * segment_size road_length size + Z.min rank (remainder road_length size).

(** [int end_pos = start_pos + segment_size - 1;
     if (rank < remainder) end_pos++;] *)
Definition end_pos (road_length size rank : Z) : Z :=
  let e := start_pos road_length size rank + segment_size road_length size - 1 in
  if rank <? remainder road_length size then e + 1 else e.

(** [int road_length_per_process = end_pos - start_pos;]  This is the value
    handed to the [Simulation] constructor and to [run_simulation]. *)
Definition road_length_per_process (road_length size rank : Z) : Z :=
  end_pos road_length size rank - start_pos road_length size rank.

(** The cells [start_pos .. end_pos], both ends included. *)
Definition cells_in_range (road_length size rank : Z) : Z :=
  end_pos road_length size rank - start_pos road_length size rank + 1.

(** Sum of [f rank] over the ranks [0 .. size-1]. *)
Definition sum_over_ranks (size : Z) (f : Z -> Z) : Z :=
  fold_right Z.add 0 (map (fun r => f (Z.of_nat r)) (seq 0 (Z.to_nat size))).

(** What the specification announces for a rank. *)
Definition announced_size (road_length size rank : Z) : Z :=
  road_length / size + (if rank <? road_length mod size then 1 else 0).

Lemma quot_rem_nonneg road_length size :
  0 <= road_length -> 0 < size ->
  segment_size road_length size = road_length / size /\
  remainder road_length size = road_length mod size.
Proof.
  intros HL HN. unfold segment_size, remainder.
  split; [apply Z.quot_div_nonneg | apply Z.rem_mod_nonneg]; lia.
Qed.

Lemma cells_in_range_announced road_length size rank :
  0 <= road_length -> 0 < size ->
  cells_in_range road_length size rank = announced_size road_length size rank.
Proof.
  intros HL HN. destruct (quot_rem_nonneg road_length size HL HN) as [Hq Hr].
  unfold cells_in_range, announced_size, end_pos. rewrite Hq, Hr.
  destruct (rank <? road_length mod size); lia.
Qed.

Lemma road_length_per_process_value road_length size rank :
  0 <= road_length -> 0 < size ->
  road_length_per_process road_length size rank =
  announced_size road_length size rank - 1.
Proof.
  intros HL HN. rewrite <- cells_in_range_announced by assumption.
  unfold cells_in_range, road_length_per_process. lia.
Qed.

(** Consecutive ranks own adjacent cell ranges. *)
Lemma ranges_contiguous road_length size rank :
  0 <= road_length -> 0 < size -> 0 <= rank ->
  start_pos road_length size (rank + 1) = end_pos road_length size rank + 1.
Proof.
  intros HL HN Hr. unfold end_pos, start_pos.
  destruct (Z.ltb_spec rank (remainder road_length size)); lia.
Qed.

Lemma sum_over_ranks_succ n f :
  sum_over_ranks (Z.of_nat (S n)) f =
  sum_over_ranks (Z.of_nat n) f + f (Z.of_nat n).
Proof.
  unfold sum_over_ranks. rewrite !Nat2Z.id.
  rewrite seq_S, map_app, fold_right_app. simpl.
  generalize (f (Z.of_nat n)). generalize (seq 0 n).
  induction l as [|a l IH]; intros z; simpl; [lia|].
  rewrite IH. lia.
Qed.

Lemma sum_indicator n m :
  0 <= m ->
  sum_over_ranks (Z.of_nat n) (fun r => if r <? m then 1 else 0) =
  Z.min (Z.of_nat n) m.
Proof.
  intros Hm. induction n as [|n IH].
  - unfold sum_over_ranks. simpl. lia.
  - rewrite sum_over_ranks_succ, IH.
    destruct (Z.ltb_spec (Z.of_nat n) m); lia.
Qed.

Lemma sum_affine n c g :
  sum_over_ranks (Z.of_nat n) (fun r => c + g r) =
  Z.of_nat n * c + sum_over_ranks (Z.of_nat n) g.
Proof.
  induction n as [|n IH].
  - unfold sum_over_ranks. simpl. lia.
  - rewrite !sum_over_ranks_succ, IH. lia.
Qed.

(** The inclusive cell ranges partition the road: their sizes add up to
    the road length. *)
Lemma cells_in_range_total road_length size :
  0 <= road_length -> 0 < size ->
  sum_over_ranks size (cells_in_range road_length size) = road_length.
Proof.
  intros HL HN.
  replace size with (Z.of_nat (Z.to_nat size)) at 1 by lia.
  assert (E : forall n, sum_over_ranks (Z.of_nat n) (cells_in_range road_length size) =
                        sum_over_ranks (Z.of_nat n) (announced_size road_length size)).
  { induction n as [|n IH]; [reflexivity|].
    rewrite !sum_over_ranks_succ, IH, cells_in_range_announced by assumption.
    reflexivity. }
  rewrite E. unfold announced_size. rewrite sum_affine, sum_indicator.
  - pose proof (Z.mod_pos_bound road_length size HN).
    pose proof (Z.div_mod road_length size ltac:(lia)). lia.
  - pose proof (Z.mod_pos_bound road_length size HN). lia.
Qed.

(** The lengths actually handed to the workers add up to [size] cells
    fewer than the road length. *)
Lemma road_length_per_process_total road_length size :
  0 <= road_length -> 0 < size ->
  sum_over_ranks size (road_length_per_process road_length size) =
  road_length - size.
Proof.
  intros HL HN.
  pose proof (cells_in_range_total road_length size HL HN) as Ht.
  replace size with (Z.of_nat (Z.to_nat size)) in Ht at 1 by lia.
  replace size with (Z.of_nat (Z.to_nat size)) at 1 by lia.
  assert (E : forall n,
     sum_over_ranks (Z.of_nat n) (cells_in_range road_length size) =
     Z.of_nat n * 1 +
     sum_over_ranks (Z.of_nat n) (road_length_per_process road_length size)).
  { intros n. rewrite <- sum_affine. induction n as [|n IH]; [reflexivity|].
    rewrite !sum_over_ranks_succ, IH. unfold cells_in_range, road_length_per_process.
    lia. }
  rewrite E in Ht. lia.
Qed.

(** No intermediate value of the partition leaves the range of [int]. *)
Lemma partition_in_int_range road_length size rank :
  0 <= road_length <= int_max -> 0 < size -> 0 <= rank < size ->
  in_int (segment_size road_length size) /\
  in_int (remainder road_length size) /\
  in_int (rank * segment_size road_length size) /\
  in_int (start_pos road_length size rank) /\
  in_int (start_pos road_length size rank + segment_size road_length size - 1) /\
  in_int (end_pos road_length size rank) /\
  in_int (road_length_per_process road_length size rank).
Proof.
  intros HL HN Hr.
  destruct (quot_rem_nonneg road_length size ltac:(lia) HN) as [Hq Hm].
  pose proof (Z.mod_pos_bound road_length size HN) as Hb.
  pose proof (Z.div_mod road_length size ltac:(lia)) as Hd.
  assert (0 <= road_length / size) by (apply Z.div_pos; lia).
  assert (Hmul : rank * (road_length / size) <= size * (road_length / size) - road_length / size) by nia.
  unfold in_int, road_length_per_process, end_pos, start_pos, int_min in *.
  rewrite Hq, Hm.
  assert (0 <= rank * (road_length / size)) by nia.
  destruct (Z.ltb_spec rank (road_length mod size)); repeat split; try lia.
Qed.

(** C4 fails on the code.  For a road of 10 cells on 2 ranks each rank owns
    the 5 cells from [start_pos] to [end_pos], as announced, but the length
    computed for it and handed to the simulation, [end_pos - start_pos], is
    4: the lengths of the two segments add up to 8, not to 10. *)
Theorem segment_length_is_one_cell_short :
  start_pos 10 2 0 = 0 /\ end_pos 10 2 0 = 4 /\
  start_pos 10 2 1 = 5 /\ end_pos 10 2 1 = 9 /\
  announced_size 10 2 0 = 5 /\ announced_size 10 2 1 = 5 /\
  road_length_per_process 10 2 0 = 4 /\
  road_length_per_process 10 2 1 = 4 /\
  sum_over_ranks 2 (road_length_per_process 10 2) = 8.
Proof.
  repeat split; reflexivity.
Qed.

End Partition.

(** ** Final reduction of the per-rank statistics at rank 0 *)

Module Stats.

(** The reduction is written in [double].  It is embedded over any carrier
    with the four operations and the conversion from [int], with no law
    assumed about them, so that what is proved for every carrier also holds
    for IEEE doubles; the exactness result is then proved on the rationals. *)
Class DoubleArith (D : Type) : Type := {
  dadd : D -> D -> D;
  dsub : D -> D -> D;
  dmul : D -> D -> D;
  ddiv : D -> D -> D;
  of_int : Z -> D
}.

(** [double data[3]]: index 0 is the average, 1 the variance, 2 the count. *)
Record Data (D : Type) : Type := mkData { d0 : D; d1 : D; d2 : D }.
Arguments mkData {D} _ _ _.
Arguments d0 {D} _.
Arguments d1 {D} _.
Arguments d2 {D} _.

Record Totals (D : Type) : Type := mkTotals {
  total_sum : D;
  total_samples : D;
  total_squared_sum : D
}.
Arguments mkTotals {D} _ _ _.
Arguments total_sum {D} _.
Arguments total_samples {D} _.
Arguments total_squared_sum {D} _.

(** A message waiting at rank 0: the rank that sent it and its payload. *)
Definition Mailbox (D : Type) : Type := list (Z * Data D).

Section Reduce.
Context {D : Type} `{DoubleArith D}.

(** Rank > 0:
    [double data[3] = {average, variance, static_cast<double>(numSamples)};] *)
Definition pack (average variance : D) (numSamples : Z) : Data D :=
  mkData average variance (of_int numSamples).

(** Rank 0, "Initialize totals with rank 0's values". *)
Definition init_totals (average variance : D) (numSamples : Z) : Totals D :=
  mkTotals
    (dmul average (of_int numSamples))
    (of_int numSamples)
    (dadd (dmul variance (of_int numSamples))
          (dmul (dmul average average) (of_int numSamples))).

(** Body of the receive loop, "Add to totals". *)
Definition add_to_totals (t : Totals D) (received_data : Data D) : Totals D :=
  mkTotals
    (dadd (total_sum t) (dmul (d0 received_data) (d2 received_data)))
    (dadd (total_samples t) (d2 received_data))
    (dadd (total_squared_sum t)
          (dadd (dmul (d1 received_data) (d2 received_data))
                (dmul (dmul (d0 received_data) (d0 received_data))
                      (d2 received_data)))).

(** "Calculate final statistics": the triple that is printed. *)
Definition final_statistics (t : Totals D) : Data D :=
  let final_average := ddiv (total_sum t) (total_samples t) in
  let final_variance :=
    dsub (ddiv (total_squared_sum t) (total_samples t))
         (dmul final_average final_average) in
  mkData final_average final_variance (total_samples t).

(** [MPI_Recv(received_data, 3, MPI_DOUBLE, source, ...)]: the first waiting
    message of that source is taken out of the mailbox; [None] when there is
    none (the call would block). *)
Fixpoint MPI_Recv (source : Z) (mailbox : Mailbox D)
  : option (Data D * Mailbox D) :=
  match mailbox with
  | [] => None
  | (s, d) :: rest =>
      if Z.eqb s source then Some (d, rest)
      else match MPI_Recv source rest with
           | Some (d', rest') => Some (d', (s, d) :: rest')
           | None => None
           end
  end.

(** The values of [source] in [for (int source = 1; source < size; source++)]. *)
Definition sources (size : Z) : list Z :=
  map Z.of_nat (seq 1 (Z.to_nat (size - 1))).

Fixpoint receive_loop (srcs : list Z) (t : Totals D) (mailbox : Mailbox D)
  : option (Totals D) :=
  match srcs with
  | [] => Some t
  | source :: srcs' =>
      match MPI_Recv source mailbox with
      | Some (received_data, mailbox') =>
          receive_loop srcs' (add_to_totals t received_data) mailbox'
      | None => None
      end
  end.

(** The [else] branch of [if (rank > 0)] after the barrier. *)
Definition head_reduce (average variance : D) (numSamples size : Z)
    (mailbox : Mailbox D) : option (Data D) :=
  match receive_loop (sources size) (init_totals average variance numSamples)
                     mailbox with
  | Some t => Some (final_statistics t)
  | None => None
  end.

(** The same totals with the payloads taken in increasing rank order. *)
Definition combine_in_rank_order (average variance : D) (numSamples : Z)
    (received : list (Data D)) : Data D :=
  final_statistics
    (fold_left add_to_totals received (init_totals average variance numSamples)).

(** The mailbox in which every rank [1 .. size-1] has left its one message. *)
Definition delivered (size : Z) (payload : Z -> Data D) : Mailbox D :=
  map (fun s => (s, payload s)) (sources size).

End Reduce.

(** Exact arithmetic. *)
#[local] Instance Q_arith : DoubleArith Q := {
  dadd := Qplus;
  dsub := Qminus;
  dmul := Qmult;
  ddiv := Qdiv;
  of_int := inject_Z
}.

Definition sum_samples (l : list Q) : Q := fold_right Qplus 0%Q l.
Definition sum_squares (l : list Q) : Q :=
  fold_right Qplus 0%Q (map (fun x => (x * x)%Q) l).
Definition count (l : list Q) : Z := Z.of_nat (length l).
Definition mean (l : list Q) : Q := (sum_samples l / inject_Z (count l))%Q.
(** Population variance: the mean squared deviation from the mean. *)
Definition pop_variance (l : list Q) : Q :=
  (sum_samples (map (fun x => (x - mean l) * (x - mean l)) l)
   / inject_Z (count l))%Q.

(** [d] is the accumulator of sample group [g]: its count is the size of the
    group and, when the group is not empty, its average and variance are the
    group's mean and population variance. *)
Definition exact_for (g : list Q) (d : Data Q) : Prop :=
  (d2 d == inject_Z (count g))%Q /\
  (g <> [] -> (d0 d == mean g)%Q /\ (d1 d == pop_variance g)%Q).

Definition data_eq (a b : Data Q) : Prop :=
  (d0 a == d0 b)%Q /\ (d1 a == d1 b)%Q /\ (d2 a == d2 b)%Q.

(** [t] holds the count, the sum and the sum of squares of [samples]. *)
Definition totals_of (samples : list Q) (t : Totals Q) : Prop :=
  (total_sum t == sum_samples samples)%Q /\
  (total_samples t == inject_Z (count samples))%Q /\
  (total_squared_sum t == sum_squares samples)%Q.

(** The samples of all ranks, rank 0 first. *)
Definition all_samples (group : Z -> list Q) (size : Z) : list Q :=
  group 0%Z ++ concat (map group (sources size)).

(** The message rank [s] sends after the barrier when its accumulator holds
    [averages s], [variances s] and the number of samples of [group s]. *)
Definition rank_payload (group : Z -> list Q) (averages variances : Z -> Q)
    (s : Z) : Data Q :=
  pack (averages s) (variances s) (count (group s)).

(** Three ranks: rank 0 saw the transit times 1 and 2, rank 1 none, rank 2
    saw 3, 5 and 10; the message of rank 2 arrived first. *)
Definition example_group (r : Z) : list Q :=
  if Z.eqb r 0 then [1; 2]%Q else if Z.eqb r 2 then [3; 5; 10]%Q else [].
Definition example_averages (r : Z) : Q :=
  (if Z.eqb r 0 then 3 # 2 else if Z.eqb r 2 then 6 else 0)%Q.
Definition example_variances (r : Z) : Q :=
  (if Z.eqb r 0 then 1 # 4 else if Z.eqb r 2 then 26 # 3 else 0)%Q.
Definition example_mailbox : Mailbox Q :=
  [ (2%Z, mkData 6 (26 # 3) 3); (1%Z, mkData 0 0 0) ]%Q.

(** *** Order of the receptions *)

Section ReduceFacts.
Context {D : Type} `{DoubleArith D}.

Lemma MPI_Recv_takes_the_message (source : Z) (d : Data D) (mailbox : Mailbox D) :
  List.NoDup (map fst mailbox) -> In (source, d) mailbox ->
  exists rest, MPI_Recv source mailbox = Some (d, rest) /\
               Permutation mailbox ((source, d) :: rest).
Proof.
  induction mailbox as [|[s e] mb IH]; simpl; intros Hnd Hin; [contradiction|].
  inversion Hnd as [|? ? Hnotin Hnd']; subst.
  destruct (Z.eqb_spec s source) as [->|Hne].
  - destruct Hin as [E|Hin].
    + inversion E; subst. exists mb. split; reflexivity.
    + exfalso. apply Hnotin. change source with (fst (source, d)).
      apply in_map. exact Hin.
  - destruct Hin as [E|Hin]; [inversion E; congruence|].
    destruct (IH Hnd' Hin) as (rest & -> & Hp).
    exists ((s, e) :: rest). split; [reflexivity|].
    rewrite Hp. apply perm_swap.
Qed.

Lemma sources_NoDup (size : Z) : List.NoDup (sources size).
Proof.
  unfold sources. apply Finite.Injective_map_NoDup.
  - intros a b E. lia.
  - apply seq_NoDup.
Qed.

Lemma receive_loop_in_order (payload : Z -> Data D) (srcs : list Z) :
  List.NoDup srcs ->
  forall (t : Totals D) (mailbox : Mailbox D),
  Permutation mailbox (map (fun s => (s, payload s)) srcs) ->
  receive_loop srcs t mailbox =
  Some (fold_left add_to_totals (map payload srcs) t).
Proof.
  induction 1 as [|s srcs Hnotin Hnd IH]; intros t mailbox Hp; [reflexivity|].
  simpl in *.
  assert (Hin : In (s, payload s) mailbox).
  { eapply Permutation_in; [symmetry; exact Hp|]. left. reflexivity. }
  assert (Hdist : List.NoDup (map fst mailbox)).
  { eapply Permutation_NoDup.
    - symmetry. apply Permutation_map. exact Hp.
    - simpl. rewrite map_map. simpl. rewrite map_id. constructor; assumption. }
  destruct (MPI_Recv_takes_the_message s (payload s) mailbox Hdist Hin)
    as (rest & -> & Hrest).
  apply IH. eapply Permutation_cons_inv. rewrite <- Hrest. exact Hp.
Qed.

Lemma head_reduce_in_rank_order (average variance : D) (numSamples size : Z)
    (payload : Z -> Data D) (mailbox : Mailbox D) :
  Permutation mailbox (delivered size payload) ->
  head_reduce average variance numSamples size mailbox =
  Some (combine_in_rank_order average variance numSamples
          (map payload (sources size))).
Proof.
  intros Hp. unfold head_reduce, combine_in_rank_order.
  rewrite (receive_loop_in_order payload (sources size) (sources_NoDup size) _ mailbox Hp).
  reflexivity.
Qed.

End ReduceFacts.

(** *** Exactness of the pooled combination over the rationals *)

Local Open Scope Q_scope.

Lemma sum_samples_app (a b : list Q) :
  sum_samples (a ++ b) == sum_samples a + sum_samples b.
Proof.
  unfold sum_samples. induction a as [|x a IH]; simpl; [ring|].
  rewrite IH. ring.
Qed.

Lemma sum_squares_app (a b : list Q) :
  sum_squares (a ++ b) == sum_squares a + sum_squares b.
Proof.
  unfold sum_squares. induction a as [|x a IH]; simpl; [ring|].
  rewrite IH. ring.
Qed.

Lemma count_app (a b : list Q) :
  inject_Z (count (a ++ b)) == inject_Z (count a) + inject_Z (count b).
Proof.
  unfold count. rewrite length_app, Nat2Z.inj_add, inject_Z_plus. reflexivity.
Qed.

Lemma count_cons (x : Q) (l : list Q) :
  inject_Z (count (x :: l)) == inject_Z (count l) + 1.
Proof.
  unfold count. simpl length. rewrite Nat2Z.inj_succ.
  unfold Z.succ. rewrite inject_Z_plus. reflexivity.
Qed.

Lemma count_nonzero (l : list Q) : l <> [] -> ~ inject_Z (count l) == 0.
Proof.
  intros Hl E. destruct l as [|x l]; [congruence|].
  unfold count, Qeq in E. simpl in E. lia.
Qed.

(** Sum of squared deviations from any centre [m]. *)
Lemma squared_deviations (m : Q) (l : list Q) :
  sum_samples (map (fun x => (x - m) * (x - m)) l) ==
  sum_squares l - 2 * m * sum_samples l + inject_Z (count l) * m * m.
Proof.
  induction l as [|x l IH].
  - unfold sum_samples, sum_squares, count. simpl. ring.
  - rewrite count_cons. unfold sum_samples, sum_squares in *. simpl.
    rewrite IH. ring.
Qed.

(** The single-pass form of the population variance. *)
Lemma pop_variance_single_pass (l : list Q) :
  l <> [] ->
  pop_variance l == sum_squares l / inject_Z (count l) - mean l * mean l.
Proof.
  intros Hl. pose proof (count_nonzero l Hl) as Hn.
  unfold pop_variance. rewrite squared_deviations. unfold mean.
  field. exact Hn.
Qed.

(** First and second moment carried by one exact accumulator. *)
Lemma exact_for_moments (g : list Q) (d : Data Q) :
  exact_for g d ->
  d0 d * d2 d == sum_samples g /\
  d1 d * d2 d + d0 d * d0 d * d2 d == sum_squares g.
Proof.
  intros [Hc Hmv]. destruct g as [|x g].
  - rewrite Hc. unfold count, sum_samples, sum_squares. simpl. split; ring.
  - destruct Hmv as [Hm Hv]; [discriminate|].
    pose proof (count_nonzero (x :: g) ltac:(discriminate)) as Hn.
    rewrite Hc, Hv, Hm, pop_variance_single_pass by discriminate.
    unfold mean. split; field; exact Hn.
Qed.

Lemma init_totals_of (own : list Q) (average variance : Q) :
  (own <> [] -> average == mean own /\ variance == pop_variance own) ->
  totals_of own (init_totals average variance (count own)).
Proof.
  intros Hmv.
  destruct (exact_for_moments own (mkData average variance (inject_Z (count own))))
    as [Hs Hq].
  { split; [reflexivity | exact Hmv]. }
  unfold totals_of, init_totals. simpl in *. repeat split; auto.
Qed.

Lemma add_to_totals_of (samples g : list Q) (t : Totals Q) (d : Data Q) :
  totals_of samples t -> exact_for g d ->
  totals_of (samples ++ g) (add_to_totals t d).
Proof.
  intros (Hs & Hn & Hq) Hex.
  destruct (exact_for_moments g d Hex) as [Hs' Hq']. destruct Hex as [Hc _].
  unfold totals_of, add_to_totals. simpl.
  rewrite sum_samples_app, sum_squares_app, count_app, Hs, Hn, Hq, Hs', Hq', Hc.
  repeat split; reflexivity.
Qed.

Lemma fold_add_to_totals_of (groups : list (list Q)) (received : list (Data Q)) :
  Forall2 exact_for groups received ->
  forall (samples : list Q) (t : Totals Q),
  totals_of samples t ->
  totals_of (samples ++ concat groups) (fold_left add_to_totals received t).
Proof.
  induction 1 as [|g d groups received Hex _ IH]; intros samples t Ht; simpl.
  - rewrite app_nil_r. exact Ht.
  - rewrite app_assoc. apply IH. apply add_to_totals_of; assumption.
Qed.

Lemma final_statistics_of (samples : list Q) (t : Totals Q) :
  samples <> [] -> totals_of samples t ->
  data_eq (final_statistics t)
          (mkData (mean samples) (pop_variance samples) (inject_Z (count samples))).
Proof.
  intros Hne (Hs & Hn & Hq). unfold data_eq, final_statistics. simpl.
  rewrite pop_variance_single_pass by assumption.
  unfold mean. rewrite Hs, Hn, Hq. repeat split; reflexivity.
Qed.

Lemma sources_range (size s : Z) : In s (sources size) -> (1 <= s < size)%Z.
Proof.
  unfold sources. rewrite in_map_iff. intros (n & <- & Hn).
  apply in_seq in Hn. lia.
Qed.

(** C1.  When every rank's accumulator holds the exact count, mean and
    population variance of its own group of samples and the groups together
    are not empty, the triple rank 0 computes (whatever the order in which
    the messages arrived) is the mean, the population variance and the count
    of the union of all samples, over exact rational arithmetic. *)
Theorem pooled_statistics_exact
    (group : Z -> list Q) (averages variances : Z -> Q)
    (size : Z) (mailbox : Mailbox Q) :
  (forall r, (0 <= r < Z.max 1 size)%Z -> group r <> [] ->
             averages r == mean (group r) /\
             variances r == pop_variance (group r)) ->
  Permutation mailbox (delivered size (rank_payload group averages variances)) ->
  (0 < count (all_samples group size))%Z ->
  exists result,
    head_reduce (averages 0%Z) (variances 0%Z) (count (group 0%Z)) size mailbox
      = Some result /\
    data_eq result
      (mkData (mean (all_samples group size))
              (pop_variance (all_samples group size))
              (inject_Z (count (all_samples group size)))).
Proof.
  intros Hexact Hp Hpos.
  rewrite (head_reduce_in_rank_order _ _ _ _ _ _ Hp).
  eexists. split; [reflexivity|].
  unfold combine_in_rank_order. apply final_statistics_of.
  - intros E. rewrite E in Hpos. unfold count in Hpos. simpl in Hpos. lia.
  - unfold all_samples. apply fold_add_to_totals_of.
    + assert (Hall : forall s, In s (sources size) -> (0 <= s < Z.max 1 size)%Z).
      { intros s Hs. apply sources_range in Hs. lia. }
      revert Hall. generalize (sources size) as srcs.
      induction srcs as [|s srcs IH]; intros Hall; simpl; constructor.
      * split; [reflexivity|]. simpl. apply Hexact. apply Hall. left. reflexivity.
      * apply IH. intros s' Hs'. apply Hall. right. exact Hs'.
    + apply init_totals_of. apply Hexact. lia.
Qed.

Lemma pooled_statistics_exact_witness :
  exists result,
    head_reduce (3 # 2) (1 # 4) 2 3 example_mailbox = Some result /\
    data_eq result
      (mkData (mean [1; 2; 3; 5; 10]) (pop_variance [1; 2; 3; 5; 10]) 5).
Proof.
  apply (pooled_statistics_exact example_group example_averages
           example_variances 3 example_mailbox).
  - intros r Hr Hne.
    assert (Hcases : r = 0%Z \/ r = 1%Z \/ r = 2%Z) by lia.
    destruct Hcases as [-> | [-> | ->]].
    + vm_compute. split; reflexivity.
    + exfalso. apply Hne. reflexivity.
    + vm_compute. split; reflexivity.
  - vm_compute. apply perm_swap.
  - vm_compute. reflexivity.
Defined.

(** C10.  The triple rank 0 prints is a function of the triples of the ranks
    alone: the receive loop takes the messages by increasing source rank, so
    two mailboxes holding the same messages in different arrival orders give
    the same result, namely the totals accumulated in the order
    [1 .. size-1].  Nothing is assumed about the arithmetic. *)
Theorem head_reduce_deterministic {D : Type} `{DoubleArith D}
    (average variance : D) (numSamples size : Z) (payload : Z -> Data D)
    (mailbox1 mailbox2 : Mailbox D) :
  Permutation mailbox1 (delivered size payload) ->
  Permutation mailbox2 (delivered size payload) ->
  head_reduce average variance numSamples size mailbox1 =
  head_reduce average variance numSamples size mailbox2 /\
  head_reduce average variance numSamples size mailbox1 =
  Some (combine_in_rank_order average variance numSamples
          (map payload (sources size))).
Proof.
  intros Hp1 Hp2.
  rewrite (head_reduce_in_rank_order _ _ _ _ _ _ Hp1).
  rewrite (head_reduce_in_rank_order _ _ _ _ _ _ Hp2).
  split; reflexivity.
Qed.

Lemma head_reduce_deterministic_witness :
  head_reduce (3 # 2) (1 # 4) 2 3 example_mailbox =
  head_reduce (3 # 2) (1 # 4) 2 3 (rev example_mailbox) /\
  head_reduce (3 # 2) (1 # 4) 2 3 example_mailbox =
  Some (combine_in_rank_order (3 # 2) (1 # 4) 2
          [mkData 0 0 0; mkData 6 (26 # 3) 3]).
Proof.
  apply (head_reduce_deterministic (3 # 2) (1 # 4) 2 3
           (fun s => if Z.eqb s 2 then mkData 6 (26 # 3) 3 else mkData 0 0 0)).
  - vm_compute. apply perm_swap.
  - vm_compute. reflexivity.
Defined.

End Stats.

(** ** Simulation parameters *)

Module Inputs.
(** Modelled from the spec: the declaration of [Inputs] (Inputs.h) is not in
    src.  [length], [max_speed], [max_time] and [warmup_time] are the fields
    the driver and [main] read; the other fields are the parameters §6 of
    the specification lists, and the three look-ahead limits of §3. *)
Record t : Type := mk {
  length : Z;
  num_lanes : Z;
  max_speed : Z;
  look_forward : Z;
  look_other_forward : Z;
  look_other_backward : Z;
  prob_slow_down : Q;
  prob_change : Q;
  prob_spawn : Q;
  max_time : Z;
  warmup_time : Z
}.
End Inputs.

(** ** The driver of one rank: [Simulation::run_simulation] *)

Module Driver.
Local Open Scope Z_scope.

(** [struct VehicleData], the record handed to the right neighbour. *)
Record VehicleData : Type := mkVehicleData {
  lane : Z;
  id : Z;
  position : Z;
  speed : Z;
  time_on_road : Z
}.

(** The member functions of [Vehicle], [Lane] and [Road] the driver calls.
    Their bodies are not part of the driver; it is embedded over any
    implementation of them.  [W] is the heap of the process (the [Road], its
    [Lane]s, the [Vehicle] objects and the state of [std::rand]), [P] stands
    for [Vehicle*], [L] for [Lane*] and [T] for the [double] returned by
    [getTravelTime]. *)
Class Engine (W P L T : Type) : Type := {
  getLanes : W -> list L;
  getLaneNumber : L -> Z;
  newVehicle : L -> Z -> Z -> Inputs.t -> W -> P * W;
  deleteVehicle : P -> W -> W;
  updateGaps : P -> W -> W;
  performLaneSwitch : P -> W -> W;
  performLaneMove : P -> W -> Z * W;
  getId : P -> W -> Z;
  getVehicleLane : P -> W -> Z;
  getNewPosition : P -> W -> Z;
  getPrevPosition : P -> W -> Z;
  getSpeed : P -> W -> Z;
  setSpeed : P -> Z -> W -> W;
  setTimeOnRoad : P -> Z -> W -> W;
  setTempPosition : P -> Z -> W -> W;
  getLane : P -> W -> L;
  removeVehicle : L -> Z -> W -> W;
  getTravelTime : P -> Inputs.t -> W -> T;
  attemptSpawn : Inputs.t -> list P -> Z -> W -> list P * Z * W
}.

(** What a rank does that other ranks or the statistics can observe, in
    program order.  [AddValue p i v] is [travel_time->addValue(v)] for the
    vehicle [p], whose id is [i]. *)
Inductive Event (P T : Type) : Type :=
  | RecvCount (source : Z) (send_count : Z)
  | RecvRecords (source : Z) (records : list VehicleData)
  | SendCount (dest : Z) (send_count : Z)
  | SendRecords (dest : Z) (records : list VehicleData)
  | TimeIncrement
  | AddValue (p : P) (vehicle_id : Z) (v : T)
  | Delete (p : P)
  | AttemptSpawn.
Arguments RecvCount {P T} _ _.
Arguments RecvRecords {P T} _ _.
Arguments SendCount {P T} _ _.
Arguments SendRecords {P T} _ _.
Arguments TimeIncrement {P T}.
Arguments AddValue {P T} _ _ _.
Arguments Delete {P T} _.
Arguments AttemptSpawn {P T}.

(** The members of [Simulation] and the vectors [run_simulation] declares
    before its loop, which live across ticks.
    Modelled from the spec: [Statistic] (Statistic.h is not in src), §3: the
    accumulator of the samples given to [addValue]; [travel_time] holds
    these samples, oldest first.
    [local_vehicles_to_remove] is not kept: it is empty whenever an
    iteration of the loop over [local_vehicles] starts, being cleared at the
    end of each. *)
Record State (W P T : Type) : Type := mkState {
  time : Z;
  vehicles : list P;
  next_id : Z;
  travel_time : list T;
  world : W;
  vehicles_to_remove : list nat;
  send_to_right : list VehicleData;
  local_vehicles : list P;
  trace : list (Event P T)
}.
Arguments mkState {W P T} _ _ _ _ _ _ _ _ _.
Arguments time {W P T} _.
Arguments vehicles {W P T} _.
Arguments next_id {W P T} _.
Arguments travel_time {W P T} _.
Arguments world {W P T} _.
Arguments vehicles_to_remove {W P T} _.
Arguments send_to_right {W P T} _.
Arguments local_vehicles {W P T} _.
Arguments trace {W P T} _.

(** The value of an [int] expression whose mathematical value is [z]: the
    32-bit two's complement machine keeps the low 32 bits. *)
Definition wrap_int (z : Z) : Z := (z + 2 ^ 31) mod 2 ^ 32 - 2 ^ 31.

(** [std::sort] on a vector of indices. *)
Fixpoint insert_sorted (n : nat) (l : list nat) : list nat :=
  match l with
  | [] => [n]
  | m :: l' => if (n <=? m)%nat then n :: l else m :: insert_sorted n l'
  end.
Definition sort_ascending (l : list nat) : list nat :=
  fold_right insert_sorted [] l.
Definition sort_descending (l : list nat) : list nat := rev (sort_ascending l).

Section Tick.
Context {W P L T : Type} `{Engine W P L T}.
Variable inputs : Inputs.t.
(** [std::vector<Lane*> lanes = road_ptr->getLanes();] *)
Variable lanes : list L.
Variables rank size road_length_per_process : Z.

Definition neighbor_left : Z := rank - 1.
Definition neighbor_right : Z := rank + 1.

(** Body of the first loop of rank 0. *)
Definition lane_switch_step (p : P) (w : W) : W :=
  updateGaps p (performLaneSwitch p (updateGaps p w)).

(** The record built from the getters of a vehicle. *)
Definition make_vdata (p : P) (w : W) (pos time_on_road : Z) : VehicleData :=
  mkVehicleData (getVehicleLane p w) (getId p w) pos (getSpeed p w) time_on_road.

(** Second loop of rank 0, from index [n] on; [vs] is [vehicles] from that
    index. *)
Fixpoint head_move_loop (n : nat) (vs : list P) (w : W)
    (to_remove : list nat) (out : list VehicleData)
  : W * list nat * list VehicleData :=
  match vs with
  | [] => (w, to_remove, out)
  | p :: vs' =>
      let '(time_on_road, w1) := performLaneMove p w in
      if time_on_road =? 0 then head_move_loop (S n) vs' w1 to_remove out
      else
        let vdata := make_vdata p w1 (getNewPosition p w1) time_on_road in
        head_move_loop (S n) vs' w1 (to_remove ++ [n]) (out ++ [vdata])
  end.

(** [if (rank == 0) { ... }] at the top of the loop body. *)
Definition head_update (st : State W P T) : State W P T :=
  let w := fold_left (fun w p => lane_switch_step p w) (vehicles st) (world st) in
  let '(w', to_remove, out) :=
    head_move_loop 0 (vehicles st) w (vehicles_to_remove st) (send_to_right st) in
  mkState (time st) (vehicles st) (next_id st) (travel_time st) w'
          to_remove out (local_vehicles st) (trace st).

(** The loop over [lanes] for one received record.  [new_vehicle] is the
    pointer declared before the loop over the records: [None] while nothing
    has been assigned to it. *)
Definition bind_to_lane (vdata : VehicleData) (new_vehicle : option P) (w : W)
  : option P * W :=
  fold_left
    (fun (acc : option P * W) existing_lane =>
       if getLaneNumber existing_lane =? lane vdata then
         let '(p, w') :=
           newVehicle existing_lane (id vdata) (position vdata) inputs (snd acc) in
         (Some p, w')
       else acc)
    lanes (new_vehicle, w).

(** The loop over the received records.  Reading [new_vehicle] before any
    assignment has no defined behaviour: the result is [None]. *)
Fixpoint reconstruct (records : list VehicleData) (new_vehicle : option P)
    (w : W) (local : list P) : option (W * list P) :=
  match records with
  | [] => Some (w, local)
  | vdata :: rest =>
      let '(nv, w1) := bind_to_lane vdata new_vehicle w in
      match nv with
      | None => None
      | Some p =>
          let w2 := setTimeOnRoad p (time_on_road vdata)
                      (setSpeed p (speed vdata) w1) in
          reconstruct rest nv w2 (local ++ [p])
      end
  end.

(** Result of the loops that remove vehicles. *)
Record Removal : Type := mkRemoval {
  r_list : list P;
  r_stat : list T;
  r_world : W;
  r_trace : list (Event P T)
}.

(** Removal of the vehicles at [indices] (already in the order in which the
    loop visits them) from the vector [vs]; [now] is the value of
    [this->time] the guard reads.  An index outside the vector has no defined
    behaviour. *)
Fixpoint remove_loop (now : Z) (indices : list nat) (vs : list P)
    (stat : list T) (w : W) (tr : list (Event P T)) : option Removal :=
  match indices with
  | [] => Some (mkRemoval vs stat w tr)
  | index :: rest =>
      match vs !! index with
      | None => None
      | Some p =>
          let recorded := Inputs.warmup_time inputs <? now in
          let stat' :=
            if recorded then stat ++ [getTravelTime p inputs w] else stat in
          let tr' :=
            if recorded
            then tr ++ [AddValue p (getId p w) (getTravelTime p inputs w)]
            else tr in
          remove_loop now rest (delete index vs) stat'
                      (deleteVehicle p w) (tr' ++ [Delete p])
      end
  end.

(** [if (time_on_road != 0) { ... }] in the loop over [local_vehicles], for
    the vehicle at index [i]: the new heap, the indices pushed on
    [local_vehicles_to_remove], and the new [send_to_right].  The two sums
    of the test are sums of [int]s. *)
Definition boundary_step (i : nat) (vehicle : P) (w2 : W)
    (prev_pos new_pos time_on_road : Z) (out : list VehicleData)
  : W * list nat * list VehicleData :=
  if time_on_road =? 0 then (w2, [], out)
  else if wrap_int (prev_pos + new_pos)
          <? wrap_int (road_length_per_process + Inputs.max_speed inputs)
  then (setTempPosition vehicle road_length_per_process w2,
        [], out ++ [make_vdata vehicle w2 new_pos time_on_road])
  else (removeVehicle (getLane vehicle w2) new_pos w2,
        [i], out ++ [make_vdata vehicle w2 new_pos time_on_road]).

(** Result of the loop over [local_vehicles]. *)
Record Interior : Type := mkInterior {
  i_removal : Removal;
  i_out : list VehicleData
}.

(** [for (int i = 0; i < local_vehicles.size(); ++i)], from index [i] on.
    Each iteration either advances [i] in an unchanged vector or advances it
    after one erasure, so [length local - i] iterations are enough;
    [interior_loop_fuel] shows that more fuel changes nothing. *)
Fixpoint interior_loop (fuel : nat) (now : Z) (i : nat) (local : list P)
    (stat : list T) (w : W) (out : list VehicleData) (tr : list (Event P T))
  : option Interior :=
  match fuel with
  | O => Some (mkInterior (mkRemoval local stat w tr) out)
  | S fuel' =>
      match local !! i with
      | None => Some (mkInterior (mkRemoval local stat w tr) out)
      | Some vehicle =>
          let w1 := lane_switch_step vehicle w in
          let prev_pos := getPrevPosition vehicle w1 in
          let '(time_on_road, w2) := performLaneMove vehicle w1 in
          let new_pos := getNewPosition vehicle w2 in
          let '(w3, to_remove, out') :=
            boundary_step i vehicle w2 prev_pos new_pos time_on_road out in
          match remove_loop now (sort_descending to_remove) local stat w3 tr with
          | None => None
          | Some r =>
              interior_loop fuel' now (S i) (r_list r) (r_stat r) (r_world r)
                            out' (r_trace r)
          end
      end
  end.

(** [if (rank > 0) { ... }]: [inbound] is the batch the left neighbour sent
    for this tick. *)
Definition interior_update (inbound : list VehicleData) (st : State W P T)
  : option (State W P T) :=
  let tr := trace st ++ [RecvCount neighbor_left (Z.of_nat (length inbound));
                         RecvRecords neighbor_left inbound] in
  match reconstruct inbound None (world st) (local_vehicles st) with
  | None => None
  | Some (w, local) =>
      match interior_loop (length local) (time st) 0 local (travel_time st)
                          w [] tr with
      | None => None
      | Some r =>
          Some (mkState (time st) (vehicles st) (next_id st)
                        (r_stat (i_removal r)) (r_world (i_removal r))
                        (vehicles_to_remove st) (i_out r)
                        (r_list (i_removal r)) (r_trace (i_removal r)))
      end
  end.

(** [if (neighbor_right < size) { ... }] *)
Definition send_block (st : State W P T) : State W P T :=
  if neighbor_right <? size then
    mkState (time st) (vehicles st) (next_id st) (travel_time st) (world st)
            (vehicles_to_remove st) [] (local_vehicles st)
            (trace st ++ [SendCount neighbor_right
                            (Z.of_nat (length (send_to_right st)));
                          SendRecords neighbor_right (send_to_right st)])
  else st.

(** [this->time++;] *)
Definition increment_time (st : State W P T) : State W P T :=
  mkState (time st + 1) (vehicles st) (next_id st) (travel_time st) (world st)
          (vehicles_to_remove st) (send_to_right st) (local_vehicles st)
          (trace st ++ [TimeIncrement]).

(** [if (rank == 0) { ... }] at the end of the loop body: "Remove finished
    vehicles", then "Spawn new Vehicles". *)
Definition head_finish (st : State W P T) : option (State W P T) :=
  match remove_loop (time st) (rev (sort_ascending (vehicles_to_remove st)))
                    (vehicles st) (travel_time st) (world st) (trace st) with
  | None => None
  | Some r =>
      let '(vs, nid, w) :=
        attemptSpawn inputs (r_list r) (next_id st) (r_world r) in
      Some (mkState (time st) vs nid (r_stat r) w [] (send_to_right st)
                    (local_vehicles st) (r_trace r ++ [AttemptSpawn]))
  end.

(** One iteration of [while (this->time < this->inputs.max_time)]. *)
Definition tick (inbound : list VehicleData) (st : State W P T)
  : option (State W P T) :=
  let st1 := if rank =? 0 then head_update st else st in
  match (if 0 <? rank then interior_update inbound st1 else Some st1) with
  | None => None
  | Some st2 =>
      let st4 := increment_time (send_block st2) in
      if rank =? 0 then head_finish st4 else Some st4
  end.

(** The events a tick adds to the trace. *)
Definition new_events (st st' : State W P T) : list (Event P T) :=
  drop (length (trace st)) (trace st').

End Tick.

Section Run.
Context {W P L T : Type} `{Engine W P L T}.
Variable inputs : Inputs.t.
Variables rank size road_length_per_process : Z.

(** The state [run_simulation] starts from: the members as the constructor
    of [Simulation] leaves them ([w] holds the new [Road]), [time] set to
    zero and the vectors empty. *)
Definition initial_state (w : W) : State W P T :=
  mkState 0 [] 0 [] w [] [] [] [].

(** The batch the blocking receive of the next tick returns: [inbox] holds
    the batches the left neighbour sends, one per tick, oldest first.  Rank 0
    does not receive.  [None]: the receive would block for ever. *)
Definition next_inbound (inbox : list (list VehicleData))
  : option (list VehicleData * list (list VehicleData)) :=
  if 0 <? rank then
    match inbox with
    | [] => None
    | batch :: inbox' => Some (batch, inbox')
    end
  else Some ([], inbox).

(** [while (this->time < this->inputs.max_time) { ... }].  [time] goes up by
    one each iteration, so [max_time - time] iterations end the loop. *)
Fixpoint while_loop (fuel : nat) (lanes : list L)
    (inbox : list (list VehicleData)) (st : State W P T)
  : option (State W P T) :=
  match fuel with
  | O => Some st
  | S fuel' =>
      if time st <? Inputs.max_time inputs then
        match next_inbound inbox with
        | None => None
        | Some (inbound, inbox') =>
            match tick inputs lanes rank size road_length_per_process
                       inbound st with
            | None => None
            | Some st' => while_loop fuel' lanes inbox' st'
            end
        end
      else Some st
  end.

(** [run_simulation] up to the barrier. *)
Definition run_simulation (inbox : list (list VehicleData)) (w : W)
  : option (State W P T) :=
  while_loop (Z.to_nat (Inputs.max_time inputs)) (getLanes w) inbox
             (initial_state w).

(** The batches a rank has sent, oldest first. *)
Definition sent_batches (tr : list (Event P T)) : list (list VehicleData) :=
  omap (fun e => match e with
                 | SendRecords _ records => Some records
                 | _ => None
                 end) tr.

End Run.

Section Pipeline.
Context {W P L T : Type} `{Engine W P L T}.
Variable inputs : Inputs.t.
Variable size : Z.
(** Segment length and initial heap of each rank. *)
Variable road_length_of : Z -> Z.
Variable initial_world : Z -> W.

(** The ranks [rank, rank+1, ...] of the chain, each fed with the batches
    its left neighbour sent.  Vehicles only travel to the right and every
    receive names its source, so running the ranks one after the other
    gives the states any interleaving of the processes ends in. *)
Fixpoint chain (n : nat) (rank : Z) (inbox : list (list VehicleData))
  : option (list (State W P T)) :=
  match n with
  | O => Some []
  | S n' =>
      match run_simulation inputs rank size (road_length_of rank) inbox
                           (initial_world rank) with
      | None => None
      | Some st =>
          match chain n' (rank + 1) (sent_batches (trace st)) with
          | None => None
          | Some rest => Some (st :: rest)
          end
      end
  end.

Definition run_all : option (list (State W P T)) :=
  chain (Z.to_nat size) 0 [].

End Pipeline.

(** *** The handoff message on the wire *)

(** The bytes of an [int] in the memory of the machine: four of them. *)
Class IntLayout : Type := {
  int_bytes : Z -> list Byte.byte;
  int_bytes_length : forall z, length (int_bytes z) = 4%nat
}.

Section Wire.
Context {layout : IntLayout}.

(** The bytes of one [VehicleData]: its five [int] members in declaration
    order, without padding. *)
Definition record_bytes (v : VehicleData) : list Byte.byte :=
  int_bytes (lane v) ++ int_bytes (id v) ++ int_bytes (position v) ++
  int_bytes (speed v) ++ int_bytes (time_on_road v).

(** [sizeof(VehicleData)] *)
Definition sizeof_VehicleData : nat := 20.

(** [int send_count = send_to_right.size();] for a vector of [n] records. *)
Definition send_count_of (n : Z) : Z := wrap_int n.

(** The count [send_count * sizeof(VehicleData)] as [MPI_Send] and
    [MPI_Recv] take it, an [int]. *)
Definition byte_count (send_count : Z) : Z :=
  wrap_int (send_count * Z.of_nat sizeof_VehicleData).

(** The destination and the bytes of an [MPI_Send].
    [MPI_Send(&send_count, 1, MPI_INT, ...)] sends the bytes of the count;
    [MPI_Send(send_to_right.data(), send_count * sizeof(VehicleData),
    MPI_BYTE, ...)] sends that many bytes from the start of the records, and
    nothing when the count is negative, which [MPI_Send] refuses.  The
    events carry the size of the vector and the records themselves. *)
Definition wire {P T : Type} (e : Event P T) : option (Z * list Byte.byte) :=
  match e with
  | SendCount dest n => Some (dest, int_bytes (send_count_of n))
  | SendRecords dest records =>
      let count :=
        byte_count (send_count_of (Z.of_nat (length records))) in
      if count <? 0 then None
      else Some (dest, take (Z.to_nat count) (concat (map record_bytes records)))
  | _ => None
  end.

End Wire.

(** The layout of a 32-bit two's complement [int] on a little-endian
    machine: the low byte first. *)
Definition byte_of (z : Z) : Byte.byte :=
  match Byte.of_N (Z.to_N (z mod 256)) with
  | Some b => b
  | None => Byte.x00
  end.

Definition le_bytes (z : Z) : list Byte.byte :=
  [byte_of z; byte_of (Z.shiftr z 8); byte_of (Z.shiftr z 16);
   byte_of (Z.shiftr z 24)].

#[export] Instance little_endian : IntLayout := {|
  int_bytes := le_bytes;
  int_bytes_length := fun _ => eq_refl
|}.

(** Source of a receive. *)
Definition received_from {P T : Type} (e : Event P T) : option Z :=
  match e with
  | RecvCount source _ => Some source
  | RecvRecords source _ => Some source
  | _ => None
  end.

(** The events of the removals of one tick at one rank: each removed vehicle
    is destroyed, right after its travel time was added to the statistic
    when [recorded] holds, and without any addition when it does not. *)
Inductive removals {P T : Type} (recorded : bool) : list (Event P T) -> Prop :=
  | removals_nil : removals recorded []
  | removals_recorded p i v evs :
      recorded = true -> removals recorded evs ->
      removals recorded (AddValue p i v :: Delete p :: evs)
  | removals_silent p evs :
      recorded = false -> removals recorded evs ->
      removals recorded (Delete p :: evs).

(** The events a rank adds to its trace in one tick that starts at [time]
    [now]: the receive (rank > 0) with the removals of the loop over
    [local_vehicles], the send to the right neighbour if there is one, the
    increment of the time, and at rank 0 the removals and the spawn. *)
Definition tick_events {P T : Type} (rank size : Z)
    (inbound batch : list VehicleData) (rem_evs : list (Event P T))
  : list (Event P T) :=
  (if 0 <? rank
   then [RecvCount (rank - 1) (Z.of_nat (length inbound));
         RecvRecords (rank - 1) inbound] ++ rem_evs
   else []) ++
  (if rank + 1 <? size
   then [SendCount (rank + 1) (Z.of_nat (length batch));
         SendRecords (rank + 1) batch]
   else []) ++
  [TimeIncrement] ++
  (if rank =? 0 then rem_evs ++ [AttemptSpawn] else []).

(** The value of [this->time] the warm-up guard of a rank reads in a tick
    that starts at [now]. *)
Definition guard_time (rank now : Z) : Z :=
  if rank =? 0 then now + 1 else now.

(** The ids for which a rank added a travel time to its statistic. *)
Definition recorded_ids {P T : Type} (tr : list (Event P T)) : list Z :=
  omap (fun e => match e with
                 | AddValue _ i _ => Some i
                 | _ => None
                 end) tr.

(** The vehicles a rank destroyed. *)
Definition deleted {P T : Type} (tr : list (Event P T)) : list P :=
  omap (fun e => match e with
                 | Delete p => Some p
                 | _ => None
                 end) tr.

(** The additions to the statistic and the destructions among the events. *)
Definition bookkeeping {P T : Type} (evs : list (Event P T))
  : list (Event P T) :=
  List.filter (fun e => match e with
                        | AddValue _ _ _ | Delete _ => true
                        | _ => false
                        end) evs.

Section Notions.
Context {W P L T : Type} `{Engine W P L T}.
Variable inputs : Inputs.t.

(** The ids of the vehicles a rank holds in its vectors. *)
Definition held_ids (st : State W P T) : list Z :=
  map (fun p => getId p (world st)) (vehicles st ++ local_vehicles st).

(** Some lane of the worker carries the lane number of the record. *)
Definition lane_matches (lanes : list L) (vdata : VehicleData) : Prop :=
  exists l, In l lanes /\ getLaneNumber l = lane vdata.

(** [p] was constructed for the record [vdata] on the lane of [lanes] that
    carries its lane number (the last one, should several carry it), with
    the id and the position of the record. *)
Definition bound_to (lanes : list L) (vdata : VehicleData) (p : P) : Prop :=
  exists pre l post w0 w1,
    lanes = pre ++ l :: post /\
    getLaneNumber l = lane vdata /\
    Forall (fun l' => getLaneNumber l' <> lane vdata) post /\
    newVehicle l (id vdata) (position vdata) inputs w0 = (p, w1).

End Notions.

(** [l] is strictly ascending and starts at [lo] or above. *)
Fixpoint ascending (lo : nat) (l : list nat) : Prop :=
  match l with
  | [] => True
  | k :: l' => (lo <= k)%nat /\ ascending (S k) l'
  end.

(** [l] is strictly descending and stays below [hi]. *)
Fixpoint descending (hi : nat) (l : list nat) : Prop :=
  match l with
  | [] => True
  | k :: l' => (k < hi)%nat /\ descending k l'
  end.

Section Passes.
Context {W P L T : Type} `{Engine W P L T}.
Variable inputs : Inputs.t.

(** The heap after the constructor calls that the loop over [lanes] makes
    for the record [vdata] while it goes through the lanes [pre]. *)
Definition constructed_before (pre : list L) (vdata : VehicleData) (w : W) : W :=
  fold_left
    (fun w l =>
       if getLaneNumber l =? lane vdata
       then snd (newVehicle l (id vdata) (position vdata) inputs w)
       else w)
    pre w.

(** [reconstructed lanes records w created w']: from the heap [w], each
    record in turn has given one vehicle of [created], in order.  The vehicle
    is the one constructed with the id and the position of the record on the
    last lane [l] of [lanes] that carries the lane number of the record, in
    the heap the loop over [lanes] has reached at that lane; it is then
    given the speed and the time on road of the record.  [w'] is the heap
    after the last record. *)
Inductive reconstructed (lanes : list L)
  : list VehicleData -> W -> list P -> W -> Prop :=
  | reconstructed_nil w : reconstructed lanes [] w [] w
  | reconstructed_cons vdata rest pre l post w p w1 created w' :
      lanes = pre ++ l :: post ->
      getLaneNumber l = lane vdata ->
      Forall (fun l' => getLaneNumber l' <> lane vdata) post ->
      newVehicle l (id vdata) (position vdata) inputs
                 (constructed_before pre vdata w) = (p, w1) ->
      reconstructed lanes rest
        (setTimeOnRoad p (time_on_road vdata) (setSpeed p (speed vdata) w1))
        created w' ->
      reconstructed lanes (vdata :: rest) w (p :: created) w'.

(** The events of the removal of the vehicles [ps], one after the other,
    from the heap [w] on: each vehicle is destroyed, and when [recorded]
    holds its travel time, read before the destruction, is added to the
    statistic first. *)
Fixpoint removal_events (recorded : bool) (ps : list P) (w : W)
  : list (Event P T) :=
  match ps with
  | [] => []
  | p :: ps' =>
      (if recorded
       then [AddValue p (getId p w) (getTravelTime p inputs w)]
       else []) ++
      Delete p :: removal_events recorded ps' (deleteVehicle p w)
  end.

(** The values these removals add to the statistic. *)
Fixpoint removal_values (recorded : bool) (ps : list P) (w : W) : list T :=
  match ps with
  | [] => []
  | p :: ps' =>
      (if recorded then [getTravelTime p inputs w] else []) ++
      removal_values recorded ps' (deleteVehicle p w)
  end.

(** The heap after these removals. *)
Definition after_removals (ps : list P) (w : W) : W :=
  fold_left (fun w p => deleteVehicle p w) ps w.

(** [recorded_removals evs vals]: [evs] is a sequence of removals, each the
    destruction of a vehicle, alone or right after the addition of the travel
    time of that same vehicle to the statistic, and [vals] are the values
    added, in order. *)
Inductive recorded_removals : list (Event P T) -> list T -> Prop :=
  | recorded_removals_nil : recorded_removals [] []
  | recorded_removals_recorded p w evs vals :
      recorded_removals evs vals ->
      recorded_removals
        (AddValue p (getId p w) (getTravelTime p inputs w) :: Delete p :: evs)
        (getTravelTime p inputs w :: vals)
  | recorded_removals_silent p evs vals :
      recorded_removals evs vals ->
      recorded_removals (Delete p :: evs) vals.

(** [head_pass n vs w marked records w']: the second loop of rank 0 over the
    vehicles [vs], which stand at the indices [n], [n+1], ... of [vehicles],
    from the heap [w] on.  A vehicle whose move returns 0 stays.  For a
    vehicle [p] whose move returns [t <> 0] and leaves the heap [w1], the
    index of [p] is marked and one record is queued: the lane, the id, the
    new position and the speed of [p] in [w1], and [t]. *)
Inductive head_pass
  : nat -> list P -> W -> list nat -> list VehicleData -> W -> Prop :=
  | head_pass_nil n w : head_pass n [] w [] [] w
  | head_pass_stay n p vs w w1 marked records w' :
      performLaneMove p w = (0, w1) ->
      head_pass (S n) vs w1 marked records w' ->
      head_pass n (p :: vs) w marked records w'
  | head_pass_leave n p vs w t w1 marked records w' :
      performLaneMove p w = (t, w1) -> t <> 0 ->
      head_pass (S n) vs w1 marked records w' ->
      head_pass n (p :: vs) w (n :: marked)
        (mkVehicleData (getVehicleLane p w1) (getId p w1)
                       (getNewPosition p w1) (getSpeed p w1) t :: records)
        w'.

Variable road_length_per_process : Z.

(** [interior_pass recorded i local w records evs vals local' w']: the loop
    over [local_vehicles] from index [i] on, the vector being [local] and
    the heap [w].  The vehicle at [i] switches lane and moves; [t] is what
    the move returns and [w2] the heap it leaves.  When [t] is 0 the vehicle
    stays.  Otherwise one record is queued, the lane, the id, the new
    position and the speed of the vehicle in [w2], and [t]; then, when the
    test on the two sums holds, the vehicle is put at the end of the segment
    and stays in the vector, and when it fails the vehicle is taken off its
    lane, recorded if [recorded] holds, destroyed and erased from the vector.
    [records], [evs] and [vals] are the records queued, the events of the
    removals and the values added to the statistic; [local'] and [w'] are
    the vector and the heap at the end. *)
Inductive interior_pass (recorded : bool)
  : nat -> list P -> W -> list VehicleData -> list (Event P T) -> list T ->
    list P -> W -> Prop :=
  | interior_pass_end i local w :
      local !! i = None ->
      interior_pass recorded i local w [] [] [] local w
  | interior_pass_stay i local w vehicle w2 records evs vals local' w' :
      local !! i = Some vehicle ->
      performLaneMove vehicle (lane_switch_step vehicle w) = (0, w2) ->
      interior_pass recorded (S i) local w2 records evs vals local' w' ->
      interior_pass recorded i local w records evs vals local' w'
  | interior_pass_buffer_zone i local w vehicle t w2 records evs vals local' w' :
      local !! i = Some vehicle ->
      performLaneMove vehicle (lane_switch_step vehicle w) = (t, w2) ->
      t <> 0 ->
      wrap_int (getPrevPosition vehicle (lane_switch_step vehicle w)
                + getNewPosition vehicle w2)
        < wrap_int (road_length_per_process + Inputs.max_speed inputs) ->
      interior_pass recorded (S i) local
        (setTempPosition vehicle road_length_per_process w2)
        records evs vals local' w' ->
      interior_pass recorded i local w
        (mkVehicleData (getVehicleLane vehicle w2) (getId vehicle w2)
                       (getNewPosition vehicle w2) (getSpeed vehicle w2) t
         :: records)
        evs vals local' w'
  | interior_pass_past_end i local w vehicle t w2 records evs vals local' w' :
      local !! i = Some vehicle ->
      performLaneMove vehicle (lane_switch_step vehicle w) = (t, w2) ->
      t <> 0 ->
      wrap_int (road_length_per_process + Inputs.max_speed inputs)
        <= wrap_int (getPrevPosition vehicle (lane_switch_step vehicle w)
                     + getNewPosition vehicle w2) ->
      interior_pass recorded (S i) (delete i local)
        (deleteVehicle vehicle
           (removeVehicle (getLane vehicle w2) (getNewPosition vehicle w2) w2))
        records evs vals local' w' ->
      interior_pass recorded i local w
        (mkVehicleData (getVehicleLane vehicle w2) (getId vehicle w2)
                       (getNewPosition vehicle w2) (getSpeed vehicle w2) t
         :: records)
        (removal_events recorded [vehicle]
           (removeVehicle (getLane vehicle w2) (getNewPosition vehicle w2) w2)
         ++ evs)
        (removal_values recorded [vehicle]
           (removeVehicle (getLane vehicle w2) (getNewPosition vehicle w2) w2)
         ++ vals)
        local' w'.

End Passes.

(** The sends among the events. *)
Definition sends {P T : Type} (evs : list (Event P T)) : list (Event P T) :=
  List.filter (fun e => match e with
                        | SendCount _ _ | SendRecords _ _ => true
                        | _ => false
                        end) evs.

Section Facts.
Context {W P L T : Type} `{Engine W P L T}.
Variable inputs : Inputs.t.

Lemma removals_app (recorded : bool) (a b : list (Event P T)) :
  removals recorded a -> removals recorded b -> removals recorded (a ++ b).
Proof.
  induction 1; intros Hb; simpl; auto using @removals.
Qed.

Lemma removals_no_spawn (recorded : bool) (evs : list (Event P T)) :
  removals recorded evs -> ~ In AttemptSpawn evs.
Proof.
  induction 1; simpl; intuition discriminate.
Qed.

Lemma removals_recorded_ids (recorded : bool) (evs : list (Event P T)) :
  removals recorded evs ->
  length (recorded_ids evs) =
  (if recorded then length (deleted evs) else 0%nat).
Proof.
  induction 1 as [|p i v evs E _ IH|p evs E _ IH]; subst; simpl in *;
    [destruct recorded; reflexivity | lia | lia].
Qed.

(** The removal loop destroys one vehicle per index, after recording it
    exactly when the guard holds. *)
Lemma remove_loop_trace (now : Z) (indices : list nat) :
  forall (vs : list P) (stat : list T) (w : W) (tr : list (Event P T)) r,
  remove_loop inputs now indices vs stat w tr = Some r ->
  exists evs vals,
    r_trace r = tr ++ evs /\
    removals (Inputs.warmup_time inputs <? now) evs /\
    length (deleted evs) = length indices /\
    r_stat r = stat ++ vals /\
    length vals = length (recorded_ids evs) /\
    (length (r_list r) + length indices = length vs)%nat.
Proof.
  induction indices as [|index rest IH]; simpl; intros vs stat w tr r Hr.
  - inversion Hr; subst; simpl. exists [], [].
    rewrite !app_nil_r. repeat split; auto using @removals.
  - destruct (vs !! index) as [p|] eqn:Hp; [|discriminate].
    apply IH in Hr. destruct Hr as (evs & vals & Htr & Hrem & Hdel & Hst & Hlen & Hvs).
    pose proof (lookup_lt_Some _ _ _ Hp) as Hlt.
    rewrite length_delete in Hvs by eauto.
    destruct (Inputs.warmup_time inputs <? now) eqn:Hg.
    + exists (AddValue p (getId p w) (getTravelTime p inputs w) :: Delete p :: evs),
             (getTravelTime p inputs w :: vals).
      rewrite Htr, Hst, <- !app_assoc. simpl.
      repeat split; auto; try lia.
      apply removals_recorded; auto.
    + exists (Delete p :: evs), vals.
      rewrite Htr, Hst, <- !app_assoc. simpl.
      repeat split; auto; try lia.
      apply removals_silent; auto.
Qed.

Lemma sort_descending_singleton (i : nat) : sort_descending [i] = [i].
Proof. reflexivity. Qed.

Lemma recorded_ids_app (a b : list (Event P T)) :
  recorded_ids (a ++ b) = recorded_ids a ++ recorded_ids b.
Proof. apply omap_app. Qed.

Lemma deleted_app (a b : list (Event P T)) :
  deleted (a ++ b) = deleted a ++ deleted b.
Proof. apply omap_app. Qed.

(** The loop over [local_vehicles]: what it adds to the trace are removals
    under the guard read at the start time of the tick, and the statistic
    grows by one value for each recorded removal. *)
Lemma interior_loop_trace (road_length_per_process now : Z) (fuel : nat) :
  forall (i : nat) (local : list P) (stat : list T) (w : W)
         (out : list VehicleData) (tr : list (Event P T)) r,
  interior_loop inputs road_length_per_process fuel now i local stat w out tr
    = Some r ->
  exists evs vals,
    r_trace (i_removal r) = tr ++ evs /\
    removals (Inputs.warmup_time inputs <? now) evs /\
    r_stat (i_removal r) = stat ++ vals /\
    length vals = length (recorded_ids evs).
Proof.
  induction fuel as [|fuel IH]; simpl; intros i local stat w out tr r Hr.
  - inversion Hr; subst; simpl. exists [], []. rewrite !app_nil_r.
    repeat split; auto using @removals.
  - destruct (local !! i) as [vehicle|] eqn:Hv.
    2:{ inversion Hr; subst; simpl. exists [], []. rewrite !app_nil_r.
        repeat split; auto using @removals. }
    destruct (performLaneMove vehicle (lane_switch_step vehicle w))
      as [time_on_road w2] eqn:Hmove.
    destruct (boundary_step inputs road_length_per_process i vehicle w2
                (getPrevPosition vehicle (lane_switch_step vehicle w))
                (getNewPosition vehicle w2) time_on_road out)
      as [[w3 to_remove] out'] eqn:Hb.
    destruct (remove_loop inputs now (sort_descending to_remove) local stat w3 tr)
      as [rm|] eqn:Hrm; [|discriminate].
    apply remove_loop_trace in Hrm.
    destruct Hrm as (evs1 & vals1 & Htr1 & Hrem1 & _ & Hst1 & Hlen1 & _).
    rename Hr into Hnext. apply IH in Hnext.
    destruct Hnext as (evs2 & vals2 & Htr2 & Hrem2 & Hst2 & Hlen2).
    exists (evs1 ++ evs2), (vals1 ++ vals2).
    rewrite Htr2, Htr1, Hst2, Hst1, !app_assoc, recorded_ids_app, !length_app.
    repeat split; auto using removals_app.
Qed.

Lemma head_update_unchanged (st : State W P T) :
  trace (head_update st) = trace st /\
  time (head_update st) = time st /\
  vehicles (head_update st) = vehicles st /\
  travel_time (head_update st) = travel_time st.
Proof.
  unfold head_update.
  destruct (head_move_loop _ _ _ _ _) as [[w' to_remove] out].
  simpl. auto.
Qed.

Lemma send_block_trace (rank size : Z) (st : State W P T) :
  trace (send_block rank size st) =
  trace st ++ (if rank + 1 <? size
               then [SendCount (rank + 1) (Z.of_nat (length (send_to_right st)));
                     SendRecords (rank + 1) (send_to_right st)]
               else []) /\
  time (send_block rank size st) = time st.
Proof.
  unfold send_block, neighbor_right.
  destruct (rank + 1 <? size); simpl; rewrite ?app_nil_r; auto.
Qed.

Lemma send_block_travel_time (rank size : Z) (st : State W P T) :
  travel_time (send_block rank size st) = travel_time st.
Proof. unfold send_block. destruct (neighbor_right rank <? size); reflexivity. Qed.

(** The events of one tick, in program order, and the growth of the
    statistic. *)
Lemma tick_trace (lanes : list L) (rank size road_length_per_process : Z)
    (inbound : list VehicleData) (st st' : State W P T) :
  tick inputs lanes rank size road_length_per_process inbound st = Some st' ->
  exists rem_evs batch vals,
    removals (Inputs.warmup_time inputs <? guard_time rank (time st)) rem_evs /\
    trace st' = trace st ++ tick_events rank size inbound batch rem_evs /\
    time st' = time st + 1 /\
    travel_time st' = travel_time st ++ vals /\
    length vals = length (recorded_ids rem_evs) /\
    (rank < 0 -> rem_evs = []).
Proof.
  unfold tick, tick_events, guard_time. intros Ht.
  destruct (Z.eqb_spec rank 0) as [->|Hne].
  - simpl in Ht.
    destruct (head_update_unchanged st) as (Htr & Htime & _ & Hstat).
    destruct (send_block_trace 0 size (head_update st)) as (Hsend & Htime').
    unfold head_finish in Ht. simpl in Ht.
    destruct (remove_loop _ _ _ _ _ _ _) as [r|] eqn:Hrm; [|discriminate].
    destruct (attemptSpawn _ _ _ _) as [[vs nid] w].
    inversion Ht; subst; clear Ht. simpl.
    apply remove_loop_trace in Hrm.
    destruct Hrm as (evs & vals & Hr & Hrem & _ & Hst & Hlen & _).
    exists evs, (send_to_right (head_update st)), vals.
    rewrite Htime', Htime in Hrem. split; [exact Hrem|].
    rewrite Hr, Hsend, Htr, Htime', Htime, <- !app_assoc. simpl.
    split; [reflexivity|]. split; [reflexivity|].
    split; [|split; [exact Hlen | lia]].
    rewrite Hst, send_block_travel_time, Hstat. reflexivity.
  - destruct (Z.ltb_spec 0 rank) as [Hpos|Hneg].
    + unfold interior_update in Ht.
      destruct (reconstruct _ _ _ _ _ _) as [[w local]|]; [|discriminate].
      destruct (interior_loop _ _ _ _ _ _ _ _ _ _) as [r|] eqn:Hloop;
        [|discriminate].
      inversion Ht; subst; clear Ht.
      apply interior_loop_trace in Hloop.
      destruct Hloop as (evs & vals & Hr & Hrem & Hst & Hlen).
      match goal with
      | |- context [send_block rank size ?s] =>
          destruct (send_block_trace rank size s) as (Hsend & Htime');
          pose proof (send_block_travel_time rank size s) as Hstat
      end.
      exists evs, (i_out r), vals. split; [exact Hrem|].
      simpl. rewrite Hsend, Htime', Hstat. simpl. rewrite Hr. unfold neighbor_left.
      rewrite <- !app_assoc. simpl. rewrite ?app_nil_r. repeat split; auto.
      lia.
    + inversion Ht; subst; clear Ht.
      destruct (send_block_trace rank size st) as (Hsend & Htime').
      pose proof (send_block_travel_time rank size st) as Hstat.
      exists [], (send_to_right st), []. split; [constructor|].
      simpl. rewrite Hsend, Htime', Hstat, <- !app_assoc. simpl.
      rewrite ?app_nil_r. repeat split; reflexivity.
Qed.

(** *** Reconstruction of the received vehicles *)

Lemma bind_to_lane_no_match (lanes : list L) (vdata : VehicleData) :
  Forall (fun l' => getLaneNumber l' <> lane vdata) lanes ->
  forall nv w, bind_to_lane inputs lanes vdata nv w = (nv, w).
Proof.
  unfold bind_to_lane. induction 1 as [|l lanes Hl _ IH]; intros nv w; simpl.
  - reflexivity.
  - destruct (Z.eqb_spec (getLaneNumber l) (lane vdata)); [contradiction|].
    apply IH.
Qed.

Lemma bind_to_lane_app (pre post : list L) (vdata : VehicleData) nv w :
  bind_to_lane inputs (pre ++ post) vdata nv w =
  bind_to_lane inputs post vdata
    (fst (bind_to_lane inputs pre vdata nv w))
    (snd (bind_to_lane inputs pre vdata nv w)).
Proof.
  unfold bind_to_lane. rewrite fold_left_app.
  destruct (fold_left _ pre (nv, w)). reflexivity.
Qed.

Lemma last_match_split (lanes : list L) (vdata : VehicleData) :
  lane_matches lanes vdata ->
  exists pre l post,
    lanes = pre ++ l :: post /\
    getLaneNumber l = lane vdata /\
    Forall (fun l' => getLaneNumber l' <> lane vdata) post.
Proof.
  induction lanes as [|l0 rest IH]; intros (l & Hin & Hl); [contradiction|].
  destruct (decide (Exists (fun l' => getLaneNumber l' = lane vdata) rest))
    as [Hex|Hno].
  - apply List.Exists_exists in Hex. destruct (IH Hex) as (pre & l1 & post & -> & ? & ?).
    exists (l0 :: pre), l1, post. auto.
  - exists [], l0, rest. split; [reflexivity|]. split.
    + destruct Hin as [->|Hin]; [assumption|].
      exfalso. apply Hno, List.Exists_exists. eauto.
    + apply List.Forall_forall. intros l' Hl' E. apply Hno, List.Exists_exists. eauto.
Qed.

Lemma bind_to_lane_match (lanes : list L) (vdata : VehicleData) nv w :
  lane_matches lanes vdata ->
  exists p w1,
    bind_to_lane inputs lanes vdata nv w = (Some p, w1) /\
    bound_to inputs lanes vdata p.
Proof.
  intros Hm. destruct (last_match_split lanes vdata Hm)
    as (pre & l & post & -> & Hl & Hpost).
  rewrite bind_to_lane_app.
  set (nv0 := fst (bind_to_lane inputs pre vdata nv w)).
  set (w0 := snd (bind_to_lane inputs pre vdata nv w)).
  change (l :: post) with ([l] ++ post). rewrite bind_to_lane_app.
  destruct (newVehicle l (id vdata) (position vdata) inputs w0) as [p w1] eqn:Hnew.
  assert (Hone : bind_to_lane inputs [l] vdata nv0 w0 = (Some p, w1)).
  { unfold bind_to_lane. simpl.
    destruct (Z.eqb_spec (getLaneNumber l) (lane vdata)); [|contradiction].
    rewrite Hnew. reflexivity. }
  rewrite Hone. simpl. rewrite bind_to_lane_no_match by assumption.
  exists p, w1. split; [reflexivity|].
  exists pre, l, post, w0, w1. auto.
Qed.

(** When a single lane carries the lane number of the record, the
    constructor is called once, on that lane, in the heap as it was. *)
Lemma bind_to_lane_unique (pre post : list L) (l : L) (vdata : VehicleData)
    nv w :
  getLaneNumber l = lane vdata ->
  Forall (fun l' => getLaneNumber l' <> lane vdata) pre ->
  Forall (fun l' => getLaneNumber l' <> lane vdata) post ->
  bind_to_lane inputs (pre ++ l :: post) vdata nv w =
  (Some (fst (newVehicle l (id vdata) (position vdata) inputs w)),
   snd (newVehicle l (id vdata) (position vdata) inputs w)).
Proof.
  intros Hl Hpre Hpost. rewrite bind_to_lane_app.
  rewrite (bind_to_lane_no_match pre vdata Hpre). simpl.
  change (l :: post) with ([l] ++ post). rewrite bind_to_lane_app.
  assert (Hone : bind_to_lane inputs [l] vdata nv w =
                 (Some (fst (newVehicle l (id vdata) (position vdata) inputs w)),
                  snd (newVehicle l (id vdata) (position vdata) inputs w))).
  { unfold bind_to_lane. simpl.
    destruct (Z.eqb_spec (getLaneNumber l) (lane vdata)); [|contradiction].
    destruct (newVehicle l (id vdata) (position vdata) inputs w). reflexivity. }
  rewrite Hone. simpl. apply bind_to_lane_no_match. exact Hpost.
Qed.

Lemma reconstruct_matching (lanes : list L) (records : list VehicleData) :
  Forall (lane_matches lanes) records ->
  forall nv w local,
  exists w' created,
    reconstruct inputs lanes records nv w local = Some (w', local ++ created) /\
    Forall2 (bound_to inputs lanes) records created.
Proof.
  induction 1 as [|vdata rest Hm _ IH]; intros nv w local; simpl.
  - exists w, []. rewrite app_nil_r. split; [reflexivity | constructor].
  - destruct (bind_to_lane_match lanes vdata nv w Hm) as (p & w1 & -> & Hb).
    destruct (IH (Some p)
                 (setTimeOnRoad p (time_on_road vdata)
                    (setSpeed p (speed vdata) w1))
                 (local ++ [p])) as (w' & created & -> & Hall).
    exists w', (p :: created). rewrite <- app_assoc. simpl.
    split; [reflexivity | constructor; assumption].
Qed.

(** *** The loops end normally *)

Lemma ascending_snoc (lo n : nat) (l : list nat) :
  ascending lo l -> Forall (fun k => (k < n)%nat) l -> (lo <= n)%nat ->
  ascending lo (l ++ [n]).
Proof.
  revert lo. induction l as [|k l IH]; simpl; intros lo Ha Hf Hlo.
  - auto.
  - inversion Hf; subst. destruct Ha as [Hk Ha]. split; [assumption|].
    apply IH; auto; lia.
Qed.

Lemma insert_sorted_ascending (n : nat) (l : list nat) :
  ascending (S n) l -> insert_sorted n l = n :: l.
Proof.
  destruct l as [|m l]; simpl; [reflexivity|]. intros [Hm _].
  destruct (Nat.leb_spec n m); [reflexivity | lia].
Qed.

Lemma sort_ascending_sorted (lo : nat) (l : list nat) :
  ascending lo l -> sort_ascending l = l.
Proof.
  revert lo. induction l as [|k l IH]; simpl; intros lo Ha; [reflexivity|].
  destruct Ha as [_ Ha]. unfold sort_ascending in *. simpl.
  rewrite (IH _ Ha). apply insert_sorted_ascending. exact Ha.
Qed.

Lemma descending_weaken (hi hi' : nat) (l : list nat) :
  descending hi l -> (hi <= hi')%nat -> descending hi' l.
Proof. destruct l; simpl; intuition lia. Qed.

Lemma descending_snoc (hi k : nat) (l : list nat) :
  descending hi l -> Forall (fun m => (k < m)%nat) l -> (k < hi)%nat ->
  descending hi (l ++ [k]).
Proof.
  revert hi. induction l as [|m l IH]; simpl; intros hi Hd Hf Hk.
  - auto.
  - inversion Hf; subst. destruct Hd as [Hm Hd]. split; [assumption|].
    apply IH; auto.
Qed.

Lemma ascending_lower_bound (lo : nat) (l : list nat) :
  ascending lo l -> Forall (fun m => (lo <= m)%nat) l.
Proof.
  revert lo. induction l as [|k l IH]; simpl; intros lo Ha; constructor.
  - tauto.
  - destruct Ha as [Hk Ha]. apply IH in Ha.
    eapply Forall_impl; [exact Ha|]. simpl. intros. lia.
Qed.

Lemma descending_rev (lo hi : nat) (l : list nat) :
  ascending lo l -> Forall (fun k => (k < hi)%nat) l -> descending hi (rev l).
Proof.
  revert lo. induction l as [|k l IH]; simpl; intros lo Ha Hf; [exact I|].
  inversion Hf; subst. destruct Ha as [Hk Ha].
  apply descending_snoc; eauto.
  apply ascending_lower_bound in Ha.
  apply Forall_rev. eapply Forall_impl; [exact Ha|]. simpl. intros. lia.
Qed.

(** Indices visited in descending order stay inside the shrinking vector. *)
Lemma remove_loop_total (now : Z) (indices : list nat) :
  forall (vs : list P) (stat : list T) (w : W) (tr : list (Event P T)),
  descending (length vs) indices ->
  exists r, remove_loop inputs now indices vs stat w tr = Some r.
Proof.
  induction indices as [|index rest IH]; simpl; intros vs stat w tr Hd.
  - eauto.
  - destruct Hd as [Hlt Hd].
    destruct (lookup_lt_is_Some_2 vs index Hlt) as [p Hp]. rewrite Hp.
    apply IH. eapply descending_weaken; [exact Hd|].
    rewrite length_delete by eauto. lia.
Qed.

(** The indices rank 0 pushes on [vehicles_to_remove] and the records it
    pushes on [send_to_right] in its second loop. *)
Lemma head_move_loop_indices (vs : list P) :
  forall (n : nat) (w : W) (to_remove : list nat) (out : list VehicleData),
  ascending 0 to_remove -> Forall (fun k => (k < n)%nat) to_remove ->
  exists w' added records,
    head_move_loop n vs w to_remove out =
      (w', to_remove ++ added, out ++ records) /\
    ascending 0 (to_remove ++ added) /\
    Forall (fun k => (k < n + length vs)%nat) (to_remove ++ added) /\
    length records = length added.
Proof.
  induction vs as [|p vs IH]; simpl; intros n w to_remove out Ha Hf.
  - exists w, [], []. rewrite !app_nil_r. repeat split; auto.
    eapply Forall_impl; [exact Hf|]. simpl. intros. lia.
  - destruct (performLaneMove p w) as [t w1].
    destruct (t =? 0).
    + destruct (IH (S n) w1 to_remove out Ha) as (w' & added & records & -> & ? & Hb & ?).
      { eapply Forall_impl; [exact Hf|]. simpl. intros. lia. }
      exists w', added, records. repeat split; auto.
      eapply Forall_impl; [exact Hb|]. simpl. intros. lia.
    + destruct (IH (S n) w1 (to_remove ++ [n])
                   (out ++ [make_vdata p w1 (getNewPosition p w1) t]))
        as (w' & added & records & -> & Ha' & Hb & Hlen).
      { apply ascending_snoc; auto. lia. }
      { apply Forall_app. split.
        - eapply Forall_impl; [exact Hf|]. simpl. intros. lia.
        - repeat constructor. }
      exists w', (n :: added), (make_vdata p w1 (getNewPosition p w1) t :: records).
      rewrite <- !app_assoc in *. simpl in *. repeat split; auto.
      eapply Forall_impl; [exact Hb|]. simpl. intros. lia.
Qed.

(** A tick of rank 0 ends normally, and leaves [vehicles_to_remove] empty
    as it found it. *)
Lemma tick_head_total (lanes : list L) (size road_length_per_process : Z)
    (inbound : list VehicleData) (st : State W P T) :
  vehicles_to_remove st = [] ->
  exists st',
    tick inputs lanes 0 size road_length_per_process inbound st = Some st' /\
    vehicles_to_remove st' = [].
Proof.
  intros Hempty. unfold tick. simpl. unfold head_finish. simpl.
  assert (Hsame : forall s : State W P T,
            vehicles (send_block 0 size s) = vehicles s /\
            vehicles_to_remove (send_block 0 size s) = vehicles_to_remove s).
  { intros s. unfold send_block. destruct (neighbor_right 0 <? size); auto. }
  destruct (Hsame (head_update st)) as [-> ->].
  unfold head_update.
  destruct (head_move_loop_indices (vehicles st) 0
              (fold_left (fun w p => lane_switch_step p w) (vehicles st) (world st))
              (vehicles_to_remove st) (send_to_right st))
    as (w' & added & records & -> & Ha & Hb & _).
  { rewrite Hempty. exact I. }
  { rewrite Hempty. constructor. }
  simpl. rewrite (sort_ascending_sorted 0) by assumption.
  match goal with
  | |- context [remove_loop inputs ?now ?idx ?vs ?stat ?w ?tr] =>
      destruct (remove_loop_total now idx vs stat w tr) as [r ->]
  end.
  { eapply descending_rev; eauto. }
  destruct (attemptSpawn _ _ _ _) as [[vs nid] w]. eauto.
Qed.

Lemma boundary_step_indices (road_length_per_process : Z) (i : nat)
    (vehicle : P) (w2 : W) (prev_pos new_pos t : Z) (out : list VehicleData) :
  let to_remove :=
    snd (fst (boundary_step inputs road_length_per_process i vehicle w2
                prev_pos new_pos t out)) in
  to_remove = [] \/ to_remove = [i].
Proof.
  unfold boundary_step. destruct (t =? 0); [auto|].
  destruct (_ <? _); simpl; auto.
Qed.

(** The loop over [local_vehicles] ends normally. *)
Lemma interior_loop_total (road_length_per_process now : Z) (fuel : nat) :
  forall (i : nat) (local : list P) (stat : list T) (w : W)
         (out : list VehicleData) (tr : list (Event P T)),
  exists r,
    interior_loop inputs road_length_per_process fuel now i local stat w out tr
      = Some r.
Proof.
  induction fuel as [|fuel IH]; simpl; intros i local stat w out tr; [eauto|].
  destruct (local !! i) as [vehicle|] eqn:Hv; [|eauto].
  destruct (performLaneMove vehicle (lane_switch_step vehicle w))
    as [t w2].
  pose proof (boundary_step_indices road_length_per_process i vehicle w2
                (getPrevPosition vehicle (lane_switch_step vehicle w))
                (getNewPosition vehicle w2) t out) as Hidx.
  destruct (boundary_step _ _ _ _ _ _ _ _ _) as [[w3 to_remove] out'].
  simpl in Hidx. destruct Hidx as [-> | ->]; simpl.
  - apply IH.
  - rewrite Hv. apply IH.
Qed.

(** A tick of a rank other than 0 ends normally when every received record
    names a lane number of the worker. *)
Lemma tick_interior_total (lanes : list L) (rank size road_length_per_process : Z)
    (inbound : list VehicleData) (st : State W P T) :
  0 < rank -> Forall (lane_matches lanes) inbound ->
  exists st',
    tick inputs lanes rank size road_length_per_process inbound st = Some st' /\
    vehicles_to_remove st' = vehicles_to_remove st.
Proof.
  intros Hpos Hall. unfold tick.
  destruct (Z.eqb_spec rank 0); [lia|].
  destruct (Z.ltb_spec 0 rank); [|lia].
  unfold interior_update.
  destruct (reconstruct_matching lanes inbound Hall None (world st)
              (local_vehicles st)) as (w' & created & -> & _).
  match goal with
  | |- context [interior_loop inputs ?len ?fuel ?now ?i ?local ?stat ?w ?out ?tr] =>
      destruct (interior_loop_total len now fuel i local stat w out tr) as [r ->]
  end.
  eexists. split; [reflexivity|].
  unfold increment_time, send_block. destruct (_ <? _); reflexivity.
Qed.

(** More fuel than [length local - i] does not change the loop over
    [local_vehicles]. *)
Lemma interior_loop_fuel (road_length_per_process now : Z) (fuel : nat) :
  forall (i : nat) (local : list P) (stat : list T) (w : W)
         (out : list VehicleData) (tr : list (Event P T)),
  (length local - i <= fuel)%nat ->
  interior_loop inputs road_length_per_process (S fuel) now i local stat w out tr =
  interior_loop inputs road_length_per_process fuel now i local stat w out tr.
Proof.
  induction fuel as [|fuel IH]; intros i local stat w out tr Hfuel.
  - simpl. rewrite lookup_ge_None_2 by lia. reflexivity.
  - remember (S fuel) as fuel1. simpl.
    destruct (local !! i) as [vehicle|] eqn:Hv.
    2:{ subst fuel1. simpl. rewrite Hv. reflexivity. }
    subst fuel1. cbn [interior_loop]. rewrite Hv.
    destruct (performLaneMove vehicle (lane_switch_step vehicle w)) as [t w2].
    destruct (boundary_step _ _ _ _ _ _ _ _ _) as [[w3 to_remove] out'].
    destruct (remove_loop inputs now (sort_descending to_remove) local stat w3 tr)
      as [r|] eqn:Hrm; [|reflexivity].
    apply remove_loop_trace in Hrm.
    destruct Hrm as (_ & _ & _ & _ & _ & _ & _ & Hlen).
    apply IH. apply lookup_lt_Some in Hv. lia.
Qed.

(** *** Properties of one tick *)

Lemma new_events_app (st st' : State W P T) (evs : list (Event P T)) :
  trace st' = trace st ++ evs -> new_events st st' = evs.
Proof.
  intros E. unfold new_events. rewrite E. apply drop_app_length.
Qed.

Lemma removals_bookkeeping (recorded : bool) (evs : list (Event P T)) :
  removals recorded evs -> bookkeeping evs = evs.
Proof.
  unfold bookkeeping. induction 1; simpl; congruence.
Qed.

Lemma bookkeeping_app (a b : list (Event P T)) :
  bookkeeping (a ++ b) = bookkeeping a ++ bookkeeping b.
Proof. apply List.filter_app. Qed.

Lemma removals_not_messages {layout : IntLayout} (recorded : bool)
    (evs : list (Event P T)) :
  removals recorded evs ->
  omap wire evs = [] /\ omap received_from evs = [].
Proof.
  induction 1; simpl; auto.
Qed.

(** Among the events of a tick, the additions to the statistic and the
    destructions are those of its removals. *)
Lemma tick_events_bookkeeping (recorded : bool) (rank size : Z)
    (inbound batch : list VehicleData) (rem_evs : list (Event P T)) :
  removals recorded rem_evs -> (rank < 0 -> rem_evs = []) ->
  bookkeeping (tick_events rank size inbound batch rem_evs) = rem_evs /\
  recorded_ids (tick_events rank size inbound batch rem_evs)
    = recorded_ids rem_evs /\
  deleted (tick_events rank size inbound batch rem_evs) = deleted rem_evs.
Proof.
  intros Hrem Hneg. unfold tick_events.
  pose proof (removals_bookkeeping _ _ Hrem) as Hb.
  unfold bookkeeping, recorded_ids, deleted in *.
  destruct (Z.ltb_spec 0 rank), (rank + 1 <? size), (Z.eqb_spec rank 0);
    try lia; try (rewrite Hneg in * by lia); simpl;
    rewrite ?List.filter_app, ?omap_app; simpl;
    rewrite ?List.filter_app, ?omap_app; simpl;
    rewrite ?Hb, ?app_nil_r; auto.
Qed.

(** *** The two branches at the segment boundary *)

(** Buffer zone: the record is queued for the right neighbour, no index is
    pushed on [local_vehicles_to_remove]. *)
Lemma boundary_step_buffer_zone (road_length_per_process : Z) (i : nat)
    (vehicle : P) (w2 : W) (prev_pos new_pos t : Z) (out : list VehicleData) :
  t <> 0 ->
  wrap_int (prev_pos + new_pos)
    < wrap_int (road_length_per_process + Inputs.max_speed inputs) ->
  boundary_step inputs road_length_per_process i vehicle w2 prev_pos new_pos t out =
  (setTempPosition vehicle road_length_per_process w2, [],
   out ++ [make_vdata vehicle w2 new_pos t]).
Proof.
  intros Ht Hlt. unfold boundary_step.
  destruct (Z.eqb_spec t 0); [contradiction|].
  destruct (Z.ltb_spec (wrap_int (prev_pos + new_pos))
              (wrap_int (road_length_per_process + Inputs.max_speed inputs)));
    [|lia].
  reflexivity.
Qed.

(** Past the end: the record is queued and the vehicle is marked for
    removal. *)
Lemma boundary_step_past_end (road_length_per_process : Z) (i : nat)
    (vehicle : P) (w2 : W) (prev_pos new_pos t : Z) (out : list VehicleData) :
  t <> 0 ->
  wrap_int (road_length_per_process + Inputs.max_speed inputs)
    <= wrap_int (prev_pos + new_pos) ->
  boundary_step inputs road_length_per_process i vehicle w2 prev_pos new_pos t out =
  (removeVehicle (getLane vehicle w2) new_pos w2, [i],
   out ++ [make_vdata vehicle w2 new_pos t]).
Proof.
  intros Ht Hge. unfold boundary_step.
  destruct (Z.eqb_spec t 0); [contradiction|].
  destruct (Z.ltb_spec (wrap_int (prev_pos + new_pos))
              (wrap_int (road_length_per_process + Inputs.max_speed inputs)));
    [lia|].
  reflexivity.
Qed.

(** An iteration of the loop over [local_vehicles] that finds its vehicle in
    the buffer zone leaves the vector as it is, the vehicle still at index
    [i], adds the record of the vehicle to [send_to_right], and destroys
    nothing. *)
Lemma interior_loop_buffer_zone (road_length_per_process now : Z) (fuel i : nat)
    (local : list P) (stat : list T) (w w2 : W) (out : list VehicleData)
    (tr : list (Event P T)) (vehicle : P) (t : Z) :
  local !! i = Some vehicle ->
  performLaneMove vehicle (lane_switch_step vehicle w) = (t, w2) ->
  t <> 0 ->
  wrap_int (getPrevPosition vehicle (lane_switch_step vehicle w)
            + getNewPosition vehicle w2)
    < wrap_int (road_length_per_process + Inputs.max_speed inputs) ->
  interior_loop inputs road_length_per_process (S fuel) now i local stat w out tr =
  interior_loop inputs road_length_per_process fuel now (S i) local stat
    (setTempPosition vehicle road_length_per_process w2)
    (out ++ [make_vdata vehicle w2 (getNewPosition vehicle w2) t]) tr.
Proof.
  intros Hv Hmove Ht Hzone. cbn [interior_loop]. rewrite Hv, Hmove.
  rewrite boundary_step_buffer_zone by assumption. reflexivity.
Qed.

(** In the tick that starts at the warm-up time, rank 0 records every
    vehicle it removes and the other ranks record none. *)
Lemma warmup_guard_by_rank (lanes : list L)
    (rank size road_length_per_process : Z)
    (inbound : list VehicleData) (st st' : State W P T) :
  tick inputs lanes rank size road_length_per_process inbound st = Some st' ->
  time st = Inputs.warmup_time inputs ->
  removals (rank =? 0) (bookkeeping (new_events st st')).
Proof.
  intros Ht Hw. apply tick_trace in Ht.
  destruct Ht as (rem_evs & batch & vals & Hrem & Htr & _ & _ & _ & Hneg).
  apply new_events_app in Htr. rewrite Htr.
  destruct (tick_events_bookkeeping _ rank size inbound batch rem_evs Hrem Hneg)
    as (-> & _).
  unfold guard_time in Hrem. rewrite Hw in Hrem.
  destruct (rank =? 0).
  - replace (Inputs.warmup_time inputs <? Inputs.warmup_time inputs + 1)
      with true in Hrem by (symmetry; apply Z.ltb_lt; lia).
    exact Hrem.
  - rewrite Z.ltb_irrefl in Hrem. exact Hrem.
Qed.

(** *** The loop over the ticks *)

(** Rank 0 never blocks and its loop ends normally. *)
Lemma while_loop_head_total (size road_length_per_process : Z) (fuel : nat) :
  forall (lanes : list L) (inbox : list (list VehicleData)) (st : State W P T),
  vehicles_to_remove st = [] ->
  exists st',
    while_loop inputs 0 size road_length_per_process fuel lanes inbox st
      = Some st'.
Proof.
  induction fuel as [|fuel IH]; simpl; intros lanes inbox st Hempty; [eauto|].
  destruct (time st <? Inputs.max_time inputs); [|eauto].
  destruct (tick_head_total lanes size road_length_per_process [] st Hempty)
    as (st1 & -> & Hempty1).
  apply IH. exact Hempty1.
Qed.

(** A rank other than 0 ends its loop normally when its left neighbour has
    sent a batch for every remaining tick and the records name lanes of the
    worker. *)
Lemma while_loop_interior_total (rank size road_length_per_process : Z)
    (lanes : list L) (fuel : nat) :
  0 < rank ->
  forall (inbox : list (list VehicleData)) (st : State W P T),
  Forall (Forall (lane_matches lanes)) inbox ->
  (fuel <= length inbox)%nat ->
  exists st',
    while_loop inputs rank size road_length_per_process fuel lanes inbox st
      = Some st'.
Proof.
  intros Hpos. induction fuel as [|fuel IH]; simpl; intros inbox st Hall Hlen;
    [eauto|].
  destruct (time st <? Inputs.max_time inputs); [|eauto].
  unfold next_inbound. destruct (Z.ltb_spec 0 rank); [|lia].
  destruct inbox as [|batch inbox]; [simpl in Hlen; lia|].
  inversion Hall; subst.
  destruct (tick_interior_total lanes rank size road_length_per_process batch st
              Hpos ltac:(assumption)) as (st1 & -> & _).
  apply IH; [assumption | simpl in Hlen; lia].
Qed.

(** The loop ends because its condition fails, not for want of fuel. *)
Lemma while_loop_time (rank size road_length_per_process : Z) (fuel : nat) :
  forall (lanes : list L) (inbox : list (list VehicleData))
         (st st' : State W P T),
  while_loop inputs rank size road_length_per_process fuel lanes inbox st
    = Some st' ->
  Inputs.max_time inputs - time st <= Z.of_nat fuel ->
  time st' = Z.max (time st) (Inputs.max_time inputs).
Proof.
  induction fuel as [|fuel IH]; simpl; intros lanes inbox st st' Hrun Hfuel.
  - inversion Hrun; subst. lia.
  - destruct (Z.ltb_spec (time st) (Inputs.max_time inputs)).
    2:{ inversion Hrun; subst. lia. }
    destruct (next_inbound rank inbox) as [[inbound inbox']|]; [|discriminate].
    destruct (tick inputs lanes rank size road_length_per_process inbound st)
      as [st1|] eqn:Ht; [|discriminate].
    apply tick_trace in Ht. destruct Ht as (_ & _ & _ & _ & _ & Ht & _).
    apply IH in Hrun; lia.
Qed.

(** [run_simulation] at rank 0 returns, after [max_time] ticks. *)
Lemma run_simulation_head (size road_length_per_process : Z) (w : W) :
  exists st,
    run_simulation inputs 0 size road_length_per_process [] w = Some st /\
    time st = Z.max 0 (Inputs.max_time inputs).
Proof.
  unfold run_simulation.
  destruct (while_loop_head_total size road_length_per_process
              (Z.to_nat (Inputs.max_time inputs)) (getLanes w) []
              (initial_state w) eq_refl) as (st & Hst).
  exists st. split; [exact Hst|].
  apply while_loop_time in Hst; [exact Hst | simpl; lia].
Qed.

(** *** What the loops do, step by step *)

Lemma descending_bound (hi : nat) (l : list nat) :
  descending hi l -> Forall (fun k => (k < hi)%nat) l.
Proof.
  revert hi. induction l as [|k l IH]; simpl; intros hi Hd; constructor.
  - tauto.
  - destruct Hd as [Hk Hd]. apply IH in Hd.
    eapply Forall_impl; [exact Hd|]. simpl. intros. lia.
Qed.

Lemma lookups_before_deleted (k : nat) (vs : list P) (indices : list nat)
    (ps : list P) :
  Forall (fun j => (j < k)%nat) indices ->
  Forall2 (fun j q => delete k vs !! j = Some q) indices ps ->
  Forall2 (fun j q => vs !! j = Some q) indices ps.
Proof.
  intros Hlt Hall. induction Hall as [|j q indices ps Hj _ IH]; constructor.
  - inversion Hlt; subst. rewrite list_lookup_delete_lt in Hj by assumption.
    exact Hj.
  - inversion Hlt; subst. auto.
Qed.

Lemma ascending_weaken (lo lo' : nat) (l : list nat) :
  ascending lo l -> (lo' <= lo)%nat -> ascending lo' l.
Proof. destruct l; simpl; intuition lia. Qed.

Lemma wrap_int_in_range (z : Z) : Partition.in_int z -> wrap_int z = z.
Proof.
  unfold Partition.in_int, Partition.int_min, Partition.int_max, wrap_int.
  intros Hz. rewrite Z.mod_small by lia. lia.
Qed.

(** **** Reconstruction *)

Lemma bind_to_lane_heap (pre : list L) (vdata : VehicleData) :
  forall nv w,
  snd (bind_to_lane inputs pre vdata nv w) = constructed_before inputs pre vdata w.
Proof.
  unfold bind_to_lane, constructed_before.
  induction pre as [|l pre IH]; intros nv w; simpl; [reflexivity|].
  destruct (getLaneNumber l =? lane vdata).
  - destruct (newVehicle l (id vdata) (position vdata) inputs w) as [p w1].
    simpl. apply IH.
  - apply IH.
Qed.

Lemma constructed_before_no_match (pre : list L) (vdata : VehicleData) (w : W) :
  Forall (fun l' => getLaneNumber l' <> lane vdata) pre ->
  constructed_before inputs pre vdata w = w.
Proof.
  intros Hpre. rewrite <- (bind_to_lane_heap pre vdata None w).
  rewrite bind_to_lane_no_match by assumption. reflexivity.
Qed.

(** The loop over [lanes] leaves in [new_vehicle] the vehicle constructed on
    the last lane that carries the lane number of the record. *)
Lemma bind_to_lane_last (pre post : list L) (l : L) (vdata : VehicleData)
    nv w p w1 :
  getLaneNumber l = lane vdata ->
  Forall (fun l' => getLaneNumber l' <> lane vdata) post ->
  newVehicle l (id vdata) (position vdata) inputs
             (constructed_before inputs pre vdata w) = (p, w1) ->
  bind_to_lane inputs (pre ++ l :: post) vdata nv w = (Some p, w1).
Proof.
  intros Hl Hpost Hnew. rewrite bind_to_lane_app.
  rewrite bind_to_lane_heap.
  change (l :: post) with ([l] ++ post). rewrite bind_to_lane_app.
  match goal with
  | |- context [bind_to_lane inputs [l] vdata ?nv0 ?w0] =>
      assert (Hone : bind_to_lane inputs [l] vdata nv0 w0 = (Some p, w1))
  end.
  { unfold bind_to_lane. simpl.
    destruct (Z.eqb_spec (getLaneNumber l) (lane vdata)); [|contradiction].
    rewrite Hnew. reflexivity. }
  rewrite Hone. simpl. apply bind_to_lane_no_match. exact Hpost.
Qed.

Lemma reconstructed_bound_to (lanes : list L) (records : list VehicleData)
    (w w' : W) (created : list P) :
  reconstructed inputs lanes records w created w' ->
  Forall2 (bound_to inputs lanes) records created.
Proof.
  induction 1; constructor; [|assumption].
  unfold bound_to. eauto 10.
Qed.

Lemma reconstruct_exact (lanes : list L) (records : list VehicleData) :
  Forall (lane_matches lanes) records ->
  forall nv w local,
  exists w' created,
    reconstruct inputs lanes records nv w local = Some (w', local ++ created) /\
    reconstructed inputs lanes records w created w'.
Proof.
  induction 1 as [|vdata rest Hm _ IH]; intros nv w local; simpl.
  - exists w, []. rewrite app_nil_r. split; [reflexivity | constructor].
  - destruct (last_match_split lanes vdata Hm) as (pre & l & post & E & Hl & Hpost).
    destruct (newVehicle l (id vdata) (position vdata) inputs
                (constructed_before inputs pre vdata w)) as [p w1] eqn:Hnew.
    assert (Hb : bind_to_lane inputs lanes vdata nv w = (Some p, w1)).
    { rewrite E. apply bind_to_lane_last; assumption. }
    rewrite Hb.
    destruct (IH (Some p)
                 (setTimeOnRoad p (time_on_road vdata)
                    (setSpeed p (speed vdata) w1))
                 (local ++ [p])) as (w' & created & -> & Hall).
    exists w', (p :: created). rewrite <- app_assoc. simpl.
    split; [reflexivity|].
    eapply reconstructed_cons; eauto.
Qed.

(** **** Removals *)

Lemma removal_events_removals (recorded : bool) (ps : list P) :
  forall w, removals recorded (removal_events inputs recorded ps w).
Proof.
  induction ps as [|p ps IH]; intros w; simpl; [constructor|].
  destruct recorded eqn:E; simpl.
  - apply removals_recorded; auto.
  - apply removals_silent; auto.
Qed.

Lemma removal_events_deleted (recorded : bool) (ps : list P) :
  forall w, deleted (removal_events inputs recorded ps w) = ps.
Proof.
  unfold deleted.
  induction ps as [|p ps IH]; intros w; simpl; [reflexivity|].
  destruct recorded; simpl; rewrite IH; reflexivity.
Qed.

Lemma removal_events_recorded (recorded : bool) (ps : list P) :
  forall w,
  recorded_removals inputs (removal_events inputs recorded ps w)
                    (removal_values inputs recorded ps w).
Proof.
  induction ps as [|p ps IH]; intros w; simpl; [constructor|].
  destruct recorded; simpl; constructor; apply IH.
Qed.

Lemma recorded_removals_app (a b : list (Event P T)) (va vb : list T) :
  recorded_removals inputs a va -> recorded_removals inputs b vb ->
  recorded_removals inputs (a ++ b) (va ++ vb).
Proof.
  induction 1; intros Hb; simpl; auto using @recorded_removals.
Qed.

Lemma recorded_removals_bookkeeping (evs : list (Event P T)) (vals : list T) :
  recorded_removals inputs evs vals -> bookkeeping evs = evs.
Proof.
  unfold bookkeeping. induction 1; simpl; congruence.
Qed.

(** The removal loop: the vehicles it destroys, the events and the values it
    adds, the heap and the vector it leaves. *)
Lemma remove_loop_exact (now : Z) (indices : list nat) :
  forall (vs : list P) (stat : list T) (w : W) (tr : list (Event P T)) r,
  remove_loop inputs now indices vs stat w tr = Some r ->
  exists ps,
    r_trace r =
      tr ++ removal_events inputs (Inputs.warmup_time inputs <? now) ps w /\
    r_stat r =
      stat ++ removal_values inputs (Inputs.warmup_time inputs <? now) ps w /\
    r_world r = after_removals ps w /\
    r_list r = fold_left (fun vs k => delete k vs) indices vs /\
    length ps = length indices /\
    (descending (length vs) indices ->
     Forall2 (fun k p => vs !! k = Some p) indices ps).
Proof.
  induction indices as [|index rest IH]; simpl; intros vs stat w tr r Hr.
  - inversion Hr; subst; simpl. exists []. simpl. rewrite !app_nil_r.
    repeat split; auto.
  - destruct (vs !! index) as [p|] eqn:Hp; [|discriminate].
    apply IH in Hr.
    destruct Hr as (ps & Htr & Hst & Hw & Hl & Hlen & Hall).
    exists (p :: ps). simpl.
    split; [|split; [|split; [|split; [|split]]]]; auto.
    + rewrite Htr. destruct (Inputs.warmup_time inputs <? now);
        rewrite <- !app_assoc; reflexivity.
    + rewrite Hst. destruct (Inputs.warmup_time inputs <? now);
        rewrite <- ?app_assoc, ?app_nil_l; reflexivity.
    + intros [Hlt Hd]. constructor; [exact Hp|].
      apply lookups_before_deleted with (k := index).
      * apply descending_bound. exact Hd.
      * apply Hall. eapply descending_weaken; [exact Hd|].
        rewrite length_delete by eauto. lia.
Qed.

(** **** The second loop of rank 0 *)

Lemma head_move_loop_pass (vs : list P) :
  forall (n : nat) (w : W) (to_remove : list nat) (out : list VehicleData),
  exists marked records w',
    head_move_loop n vs w to_remove out =
      (w', to_remove ++ marked, out ++ records) /\
    head_pass n vs w marked records w'.
Proof.
  induction vs as [|p vs IH]; simpl; intros n w to_remove out.
  - exists [], [], w. rewrite !app_nil_r. split; [reflexivity | constructor].
  - destruct (performLaneMove p w) as [t w1] eqn:Hmove.
    destruct (Z.eqb_spec t 0) as [->|Hne].
    + destruct (IH (S n) w1 to_remove out) as (marked & records & w' & -> & Hp).
      exists marked, records, w'. split; [reflexivity|].
      eapply head_pass_stay; eauto.
    + destruct (IH (S n) w1 (to_remove ++ [n])
                   (out ++ [make_vdata p w1 (getNewPosition p w1) t]))
        as (marked & records & w' & -> & Hp).
      exists (n :: marked),
             (mkVehicleData (getVehicleLane p w1) (getId p w1)
                            (getNewPosition p w1) (getSpeed p w1) t :: records),
             w'.
      rewrite <- !app_assoc. split; [reflexivity|].
      eapply head_pass_leave; eauto.
Qed.

(** The indices marked are ascending and inside the vector; each comes with
    one record. *)
Lemma head_pass_indices (n : nat) (vs : list P) (w w' : W)
    (marked : list nat) (records : list VehicleData) :
  head_pass n vs w marked records w' ->
  ascending n marked /\
  Forall (fun k => (k < n + length vs)%nat) marked /\
  length records = length marked.
Proof.
  induction 1 as [n w|n p vs w w1 marked records w' _ _ (Ha & Hb & Hl)
                 |n p vs w t w1 marked records w' _ _ _ (Ha & Hb & Hl)]; simpl.
  - repeat split; constructor.
  - split; [|split; [|exact Hl]].
    + eapply ascending_weaken; [exact Ha | lia].
    + eapply Forall_impl; [exact Hb|]. simpl. intros. lia.
  - split; [|split; [|lia]].
    + split; [lia | exact Ha].
    + constructor; [lia|]. eapply Forall_impl; [exact Hb|]. simpl. intros. lia.
Qed.

Lemma head_update_pass (st : State W P T) :
  exists marked records w',
    head_update st =
      mkState (time st) (vehicles st) (next_id st) (travel_time st) w'
              (vehicles_to_remove st ++ marked) (send_to_right st ++ records)
              (local_vehicles st) (trace st) /\
    head_pass 0 (vehicles st)
      (fold_left (fun w p => lane_switch_step p w) (vehicles st) (world st))
      marked records w'.
Proof.
  unfold head_update.
  destruct (head_move_loop_pass (vehicles st) 0
              (fold_left (fun w p => lane_switch_step p w) (vehicles st) (world st))
              (vehicles_to_remove st) (send_to_right st))
    as (marked & records & w' & -> & Hp).
  exists marked, records, w'. split; [reflexivity | exact Hp].
Qed.

(** **** The loop over [local_vehicles] *)

Lemma interior_loop_pass (road_length_per_process now : Z) (fuel : nat) :
  forall (i : nat) (local : list P) (stat : list T) (w : W)
         (out : list VehicleData) (tr : list (Event P T)) r,
  (length local - i <= fuel)%nat ->
  interior_loop inputs road_length_per_process fuel now i local stat w out tr
    = Some r ->
  exists records evs vals,
    i_out r = out ++ records /\
    r_trace (i_removal r) = tr ++ evs /\
    r_stat (i_removal r) = stat ++ vals /\
    interior_pass inputs road_length_per_process
      (Inputs.warmup_time inputs <? now) i local w records evs vals
      (r_list (i_removal r)) (r_world (i_removal r)).
Proof.
  induction fuel as [|fuel IH]; simpl; intros i local stat w out tr r Hfuel Hr.
  - inversion Hr; subst; simpl. exists [], [], []. rewrite !app_nil_r.
    repeat split. constructor. apply lookup_ge_None_2. lia.
  - destruct (local !! i) as [vehicle|] eqn:Hv.
    2:{ inversion Hr; subst; simpl. exists [], [], []. rewrite !app_nil_r.
        repeat split. constructor. exact Hv. }
    pose proof (lookup_lt_Some _ _ _ Hv) as Hlt.
    destruct (performLaneMove vehicle (lane_switch_step vehicle w))
      as [t w2] eqn:Hmove.
    unfold boundary_step in Hr.
    destruct (Z.eqb_spec t 0) as [->|Hne].
    + simpl in Hr. apply IH in Hr; [|lia].
      destruct Hr as (records & evs & vals & Ho & Ht & Hs & Hp).
      exists records, evs, vals. repeat split; auto.
      eapply interior_pass_stay; eauto.
    + destruct (Z.ltb_spec
                  (wrap_int (getPrevPosition vehicle (lane_switch_step vehicle w)
                             + getNewPosition vehicle w2))
                  (wrap_int (road_length_per_process + Inputs.max_speed inputs)))
        as [Hzone|Hpast].
      * simpl in Hr. apply IH in Hr; [|lia].
        destruct Hr as (records & evs & vals & Ho & Ht & Hs & Hp).
        eexists (_ :: records), evs, vals.
        rewrite Ho, <- app_assoc. repeat split; auto.
        eapply interior_pass_buffer_zone; eauto.
      * rewrite sort_descending_singleton in Hr. simpl in Hr. rewrite Hv in Hr.
        apply IH in Hr; [|simpl; rewrite length_delete by eauto; lia].
        destruct Hr as (records & evs & vals & Ho & Ht & Hs & Hp). simpl in *.
        eexists (_ :: records), (_ ++ evs), (_ ++ vals).
        split; [rewrite Ho, <- app_assoc; reflexivity|].
        split; [|split].
        3:{ eapply interior_pass_past_end; eauto. }
        -- rewrite Ht. simpl.
           destruct (Inputs.warmup_time inputs <? now); simpl;
             rewrite <- !app_assoc; reflexivity.
        -- rewrite Hs. simpl.
           destruct (Inputs.warmup_time inputs <? now); simpl;
             rewrite <- ?app_assoc, ?app_nil_r; reflexivity.
Qed.

Lemma interior_pass_removals (road_length_per_process : Z) (recorded : bool)
    (i : nat) (local local' : list P) (w w' : W) (records : list VehicleData)
    (evs : list (Event P T)) (vals : list T) :
  interior_pass inputs road_length_per_process recorded i local w
                records evs vals local' w' ->
  removals recorded evs /\ recorded_removals inputs evs vals.
Proof.
  induction 1 as [| | |i local w vehicle t w2 records evs vals local' w'
                        _ _ _ _ _ [IH1 IH2]]; auto;
    try (split; constructor).
  split.
  - apply removals_app; [apply removal_events_removals | exact IH1].
  - apply recorded_removals_app; [apply removal_events_recorded | exact IH2].
Qed.

(** **** One tick *)

Lemma send_block_fields (rank size : Z) (st : State W P T) :
  send_block rank size st =
  mkState (time st) (vehicles st) (next_id st) (travel_time st) (world st)
          (vehicles_to_remove st)
          (if rank + 1 <? size then [] else send_to_right st)
          (local_vehicles st)
          (trace st ++
           (if rank + 1 <? size
            then [SendCount (rank + 1) (Z.of_nat (length (send_to_right st)));
                  SendRecords (rank + 1) (send_to_right st)]
            else [])).
Proof.
  unfold send_block, neighbor_right.
  destruct (rank + 1 <? size); [reflexivity|].
  rewrite app_nil_r. destruct st; reflexivity.
Qed.

(** A tick of rank 0. *)
Lemma tick_head_exact (lanes : list L) (size road_length_per_process : Z)
    (inbound : list VehicleData) (st st' : State W P T) :
  tick inputs lanes 0 size road_length_per_process inbound st = Some st' ->
  let moved := head_update st in
  let marked := rev (sort_ascending (vehicles_to_remove moved)) in
  let recorded := Inputs.warmup_time inputs <? time st + 1 in
  exists ps,
    trace st' =
      trace st ++
      (if 1 <? size
       then [SendCount 1 (Z.of_nat (length (send_to_right moved)));
             SendRecords 1 (send_to_right moved)]
       else []) ++
      [TimeIncrement] ++ removal_events inputs recorded ps (world moved) ++
      [AttemptSpawn] /\
    travel_time st' =
      travel_time st ++ removal_values inputs recorded ps (world moved) /\
    length ps = length marked /\
    (descending (length (vehicles st)) marked ->
     Forall2 (fun k p => vehicles st !! k = Some p) marked ps) /\
    attemptSpawn inputs (fold_left (fun vs k => delete k vs) marked (vehicles st))
                 (next_id st) (after_removals ps (world moved))
      = (vehicles st', next_id st', world st').
Proof.
  intros Ht moved marked recorded. subst moved marked recorded.
  unfold tick in Ht. simpl in Ht. rewrite send_block_fields in Ht.
  destruct (head_update_pass st) as (added & records & w' & E & _).
  rewrite E in *. clear E. unfold head_finish in Ht. simpl in Ht.
  destruct (remove_loop _ _ _ _ _ _ _) as [r|] eqn:Hrm; [|discriminate].
  apply remove_loop_exact in Hrm.
  destruct Hrm as (ps & Htr & Hst & Hw & Hl & Hlen & Hall).
  destruct (attemptSpawn inputs (r_list r) (next_id st) (r_world r))
    as [[vs nid] w1] eqn:Hspawn.
  inversion Ht; subst; clear Ht. simpl.
  exists ps. rewrite Htr, Hst, <- !app_assoc. simpl.
  rewrite <- Hl, <- Hw, Hspawn. repeat split; auto.
Qed.

(** A tick of a rank with a left neighbour. *)
Lemma tick_interior_exact (lanes : list L)
    (rank size road_length_per_process : Z)
    (inbound : list VehicleData) (st st' : State W P T) :
  0 < rank ->
  tick inputs lanes rank size road_length_per_process inbound st = Some st' ->
  exists w0 local0 records evs vals,
    reconstruct inputs lanes inbound None (world st) (local_vehicles st)
      = Some (w0, local0) /\
    interior_pass inputs road_length_per_process
      (Inputs.warmup_time inputs <? time st) 0 local0 w0 records evs vals
      (local_vehicles st') (world st') /\
    trace st' =
      trace st ++
      [RecvCount (rank - 1) (Z.of_nat (length inbound));
       RecvRecords (rank - 1) inbound] ++ evs ++
      (if rank + 1 <? size
       then [SendCount (rank + 1) (Z.of_nat (length records));
             SendRecords (rank + 1) records]
       else []) ++
      [TimeIncrement] /\
    travel_time st' = travel_time st ++ vals /\
    vehicles st' = vehicles st /\ next_id st' = next_id st.
Proof.
  intros Hpos Ht. unfold tick in Ht.
  destruct (Z.eqb_spec rank 0); [lia|].
  destruct (Z.ltb_spec 0 rank); [|lia].
  unfold interior_update in Ht.
  destruct (reconstruct inputs lanes inbound None (world st) (local_vehicles st))
    as [[w0 local0]|] eqn:Hrec; [|discriminate].
  destruct (interior_loop _ _ _ _ _ _ _ _ _ _) as [r|] eqn:Hloop; [|discriminate].
  apply interior_loop_pass in Hloop; [|lia].
  destruct Hloop as (records & evs & vals & Ho & Htr & Hst & Hp).
  rewrite send_block_fields in Ht. inversion Ht; subst; clear Ht. simpl.
  exists w0, local0, records, evs, vals.
  simpl in Ho. rewrite Ho, Htr, Hst. unfold neighbor_left.
  rewrite <- !app_assoc. simpl. repeat split; auto.
Qed.

(** A tick of a rank that is neither 0 nor above it. *)
Lemma tick_no_rank (lanes : list L) (rank size road_length_per_process : Z)
    (inbound : list VehicleData) (st st' : State W P T) :
  rank < 0 ->
  tick inputs lanes rank size road_length_per_process inbound st = Some st' ->
  trace st' =
    trace st ++
    (if rank + 1 <? size
     then [SendCount (rank + 1) (Z.of_nat (length (send_to_right st)));
           SendRecords (rank + 1) (send_to_right st)]
     else []) ++ [TimeIncrement] /\
  travel_time st' = travel_time st /\
  vehicles st' = vehicles st /\ next_id st' = next_id st.
Proof.
  intros Hneg Ht. unfold tick in Ht.
  destruct (Z.eqb_spec rank 0); [lia|].
  destruct (Z.ltb_spec 0 rank); [lia|].
  rewrite send_block_fields in Ht. inversion Ht; subst; clear Ht. simpl.
  rewrite <- !app_assoc. auto.
Qed.

(** The marked indices of a tick of rank 0 that starts with
    [vehicles_to_remove] empty, visited from the last one down, stay inside
    [vehicles]. *)
Lemma head_update_marked (st : State W P T) :
  vehicles_to_remove st = [] ->
  rev (sort_ascending (vehicles_to_remove (head_update st)))
    = rev (vehicles_to_remove (head_update st)) /\
  descending (length (vehicles st)) (rev (vehicles_to_remove (head_update st))).
Proof.
  intros Hempty. destruct (head_update_pass st) as (marked & records & w' & E & Hp).
  rewrite E. simpl. rewrite Hempty. simpl.
  destruct (head_pass_indices _ _ _ _ _ _ Hp) as (Ha & Hb & _).
  rewrite (sort_ascending_sorted 0) by assumption.
  split; [reflexivity|]. eapply descending_rev; eauto.
Qed.

Lemma removals_sends (recorded : bool) (evs : list (Event P T)) :
  removals recorded evs -> sends evs = [] /\ sent_batches evs = [].
Proof.
  unfold sends, sent_batches. induction 1; simpl; auto.
Qed.

(** The messages among the events of a tick. *)
Lemma tick_events_messages {layout : IntLayout} (recorded : bool)
    (rank size : Z) (inbound batch : list VehicleData)
    (rem_evs : list (Event P T)) :
  removals recorded rem_evs ->
  let out :=
    if rank + 1 <? size
    then [SendCount (rank + 1) (Z.of_nat (length batch));
          SendRecords (rank + 1) batch]
    else [] in
  sends (tick_events rank size inbound batch rem_evs) = out /\
  omap wire (tick_events rank size inbound batch rem_evs) = omap wire out /\
  sent_batches (tick_events rank size inbound batch rem_evs)
    = (if rank + 1 <? size then [batch] else []) /\
  Forall (fun source => source = rank - 1)
         (omap received_from (tick_events rank size inbound batch rem_evs)).
Proof.
  intros Hrem out. subst out. unfold tick_events.
  destruct (removals_not_messages _ _ Hrem) as [Hw Hr].
  destruct (removals_sends _ _ Hrem) as [Hs Hb].
  unfold sends, sent_batches in *.
  destruct (0 <? rank), (rank + 1 <? size), (rank =? 0);
    rewrite ?List.filter_app, ?omap_app; simpl;
    rewrite ?List.filter_app, ?omap_app, ?Hw, ?Hr, ?Hs, ?Hb; simpl;
    rewrite ?app_nil_r; repeat split; repeat constructor.
Qed.

(** One tick of any rank: its events, and what its loops did. *)
Lemma tick_exact (lanes : list L) (rank size road_length_per_process : Z)
    (inbound : list VehicleData) (st st' : State W P T) :
  tick inputs lanes rank size road_length_per_process inbound st = Some st' ->
  let recorded := Inputs.warmup_time inputs <? guard_time rank (time st) in
  exists batch rem_evs vals,
    new_events st st' = tick_events rank size inbound batch rem_evs /\
    travel_time st' = travel_time st ++ vals /\
    removals recorded rem_evs /\
    recorded_removals inputs rem_evs vals /\
    (rank < 0 -> rem_evs = []) /\
    (rank = 0 ->
     exists marked records w' ps,
       head_pass 0 (vehicles st)
         (fold_left (fun w p => lane_switch_step p w) (vehicles st) (world st))
         marked records w' /\
       batch = send_to_right st ++ records /\
       rem_evs = removal_events inputs recorded ps w' /\
       vals = removal_values inputs recorded ps w' /\
       (vehicles_to_remove st = [] ->
        Forall2 (fun k p => vehicles st !! k = Some p) (rev marked) ps)) /\
    (0 < rank ->
     exists w0 local0,
       reconstruct inputs lanes inbound None (world st) (local_vehicles st)
         = Some (w0, local0) /\
       interior_pass inputs road_length_per_process recorded 0 local0 w0
         batch rem_evs vals (local_vehicles st') (world st')).
Proof.
  intros Ht recorded. subst recorded. unfold guard_time.
  destruct (Z.lt_trichotomy rank 0) as [Hneg|[->|Hpos]].
  - destruct (tick_no_rank _ _ _ _ _ _ _ Hneg Ht) as (Htr & Hst & _).
    exists (send_to_right st), [], []. rewrite app_nil_r.
    split; [|repeat split; auto using @removals, @recorded_removals; lia].
    apply new_events_app. rewrite Htr. unfold tick_events.
    destruct (Z.ltb_spec 0 rank); [lia|].
    destruct (Z.eqb_spec rank 0); [lia|]. simpl. rewrite ?app_nil_r. reflexivity.
  - pose proof (tick_head_exact _ _ _ _ _ _ Ht) as Hx. simpl in Hx.
    destruct Hx as (ps & Htr & Hst & Hlen & Hall & _).
    destruct (head_update_pass st) as (marked & records & w' & E & Hp).
    simpl. rewrite E in *. simpl in *.
    exists (send_to_right st ++ records),
           (removal_events inputs (Inputs.warmup_time inputs <? time st + 1) ps w'),
           (removal_values inputs (Inputs.warmup_time inputs <? time st + 1) ps w').
    split; [apply new_events_app; rewrite Htr; reflexivity|].
    split; [exact Hst|].
    split; [apply removal_events_removals|].
    split; [apply removal_events_recorded|].
    split; [lia|]. split; [|lia].
    intros _. exists marked, records, w', ps. repeat split; auto.
    intros Hempty. rewrite Hempty in *. simpl in *.
    destruct (head_pass_indices _ _ _ _ _ _ Hp) as (Ha & Hb & _).
    rewrite (sort_ascending_sorted 0) in Hall by assumption.
    apply Hall. eapply descending_rev; eauto.
  - destruct (tick_interior_exact _ _ _ _ _ _ _ Hpos Ht)
      as (w0 & local0 & records & evs & vals & Hrec & Hp & Htr & Hst & _).
    destruct (Z.eqb_spec rank 0); [lia|].
    destruct (interior_pass_removals _ _ _ _ _ _ _ _ _ _ Hp) as [Hrem Hrr].
    exists records, evs, vals.
    split; [|repeat split; auto; try lia; eauto].
    apply new_events_app. rewrite Htr. unfold tick_events.
    destruct (Z.ltb_spec 0 rank); [|lia].
    destruct (Z.eqb_spec rank 0); [lia|].
    rewrite <- ?app_assoc. simpl. rewrite ?app_nil_r. reflexivity.
Qed.

(** The whole run of a rank: the statistic holds one value for each
    recorded removal. *)
Lemma while_loop_recorded (rank size road_length_per_process : Z) (fuel : nat) :
  forall (lanes : list L) (inbox : list (list VehicleData))
         (st st' : State W P T),
  while_loop inputs rank size road_length_per_process fuel lanes inbox st
    = Some st' ->
  recorded_removals inputs (bookkeeping (trace st)) (travel_time st) ->
  recorded_removals inputs (bookkeeping (trace st')) (travel_time st').
Proof.
  induction fuel as [|fuel IH]; simpl; intros lanes inbox st st' Hrun Hinv.
  - inversion Hrun; subst. exact Hinv.
  - destruct (time st <? Inputs.max_time inputs).
    2:{ inversion Hrun; subst. exact Hinv. }
    destruct (next_inbound rank inbox) as [[inbound inbox']|]; [|discriminate].
    destruct (tick inputs lanes rank size road_length_per_process inbound st)
      as [st1|] eqn:Ht; [|discriminate].
    apply IH in Hrun; [exact Hrun|].
    destruct (tick_trace _ _ _ _ _ _ _ Ht) as (r0 & b0 & v0 & _ & Happ & _).
    pose proof (tick_exact _ _ _ _ _ _ _ Ht) as Hx. simpl in Hx.
    destruct Hx as (batch & rem_evs & vals & Hnew & Hst & Hrem & Hrr & Hneg & _).
    assert (Htr : trace st1 = trace st ++ new_events st st1).
    { unfold new_events. rewrite Happ, drop_app_length. reflexivity. }
    rewrite Htr, Hnew, Hst, bookkeeping_app.
    destruct (tick_events_bookkeeping _ rank size inbound batch rem_evs Hrem Hneg)
      as (-> & _).
    apply recorded_removals_app; assumption.
Qed.

(** *** The claims on the driver *)

(** C9.  When every received record names a lane number that a lane of the
    worker carries, the loop over the records never reads [new_vehicle]
    before it was assigned: it ends normally, and each record has given one
    new local vehicle, pushed on [local_vehicles] in the order of the
    records.  The vehicle of a record is the one constructed on the lane
    that carries the lane number of the record (the last one, should several
    carry it), with the id and the position of the record, and it is given
    the speed and the time on road of the record; the heap the loop leaves
    is the one these calls produce, one record after the other. *)
Theorem reconstruct_binds_matching_lane
    (lanes : list L) (records : list VehicleData) (w : W) (local : list P) :
  Forall (lane_matches lanes) records ->
  exists w' created,
    reconstruct inputs lanes records None w local = Some (w', local ++ created) /\
    reconstructed inputs lanes records w created w' /\
    Forall2 (bound_to inputs lanes) records created.
Proof.
  intros Hall.
  destruct (reconstruct_exact lanes records Hall None w local)
    as (w' & created & Hr & Hc).
  exists w', created. split; [exact Hr|]. split; [exact Hc|].
  eapply reconstructed_bound_to. exact Hc.
Qed.

(** C8.  In every tick [attemptSpawn] is called once by rank 0 and never by
    another rank.  At rank 0 it is the last thing the tick does, after the
    send to the right neighbour, the increment of the time and the removal
    of the vehicles that left: it is given [vehicles] with the marked indices
    erased, the id counter, and the heap in which the marked vehicles have
    been destroyed, and what it returns becomes [vehicles], the id counter
    and the heap of the next tick.  At another rank [vehicles] and the id
    counter stay as they are. *)
Theorem attemptSpawn_once_at_head_after_bookkeeping
    (lanes : list L) (rank size road_length_per_process : Z)
    (inbound : list VehicleData) (st st' : State W P T) :
  tick inputs lanes rank size road_length_per_process inbound st = Some st' ->
  (rank = 0 ->
   let moved := head_update st in
   let sent :=
     if 1 <? size
     then [SendCount 1 (Z.of_nat (length (send_to_right moved)));
           SendRecords 1 (send_to_right moved)]
     else [] in
   let marked := rev (sort_ascending (vehicles_to_remove moved)) in
   exists ps,
     let rem_evs :=
       removal_events inputs (Inputs.warmup_time inputs <? time st + 1) ps
                      (world moved) in
     new_events st st' = (sent ++ [TimeIncrement] ++ rem_evs) ++ [AttemptSpawn] /\
     ~ In AttemptSpawn (sent ++ [TimeIncrement] ++ rem_evs) /\
     length ps = length marked /\
     (vehicles_to_remove st = [] ->
      Forall2 (fun k p => vehicles st !! k = Some p) marked ps) /\
     attemptSpawn inputs
       (fold_left (fun vs k => delete k vs) marked (vehicles st))
       (next_id st) (after_removals ps (world moved))
     = (vehicles st', next_id st', world st')) /\
  (rank <> 0 ->
   ~ In AttemptSpawn (new_events st st') /\
   vehicles st' = vehicles st /\ next_id st' = next_id st).
Proof.
  intros Ht. split.
  - intros ->. pose proof (tick_head_exact _ _ _ _ _ _ Ht) as Hx. simpl in Hx.
    destruct Hx as (ps & Htr & _ & Hlen & Hall & Hspawn).
    simpl. exists ps. split; [|split; [|split; [|split]]]; auto.
    + apply new_events_app. rewrite Htr, <- !app_assoc. reflexivity.
    + pose proof (removals_no_spawn _ _
                    (removal_events_removals
                       (Inputs.warmup_time inputs <? time st + 1) ps
                       (world (head_update st)))) as Hns.
      rewrite !in_app_iff. destruct (1 <? size); simpl; intuition discriminate.
    + intros Hempty. destruct (head_update_marked st Hempty) as [E Hd].
      apply Hall. rewrite E. exact Hd.
  - intros Hne.
    assert (Hsame : vehicles st' = vehicles st /\ next_id st' = next_id st).
    { destruct (Z.lt_trichotomy rank 0) as [Hneg|[->|Hpos]]; [|contradiction|].
      - destruct (tick_no_rank _ _ _ _ _ _ _ Hneg Ht) as (_ & _ & ? & ?). auto.
      - destruct (tick_interior_exact _ _ _ _ _ _ _ Hpos Ht)
          as (_ & _ & _ & _ & _ & _ & _ & _ & _ & ? & ?). auto. }
    split; [|exact Hsame].
    apply tick_trace in Ht.
    destruct Ht as (rem_evs & batch & vals & Hrem & Htr & _).
    apply new_events_app in Htr. rewrite Htr. unfold tick_events.
    pose proof (removals_no_spawn _ _ Hrem) as Hns.
    destruct (Z.eqb_spec rank 0); [contradiction|].
    rewrite !in_app_iff.
    destruct (0 <? rank), (rank + 1 <? size); simpl;
      rewrite ?in_app_iff; simpl; intuition discriminate.
Qed.

Lemma record_bytes_length {layout : IntLayout} (v : VehicleData) :
  length (record_bytes v) = sizeof_VehicleData.
Proof.
  unfold record_bytes. rewrite !length_app, !int_bytes_length. reflexivity.
Qed.

Lemma records_bytes_length {layout : IntLayout} (batch : list VehicleData) :
  length (concat (map record_bytes batch))
    = (length batch * sizeof_VehicleData)%nat.
Proof.
  induction batch as [|v batch IH]; simpl; [reflexivity|].
  rewrite length_app, record_bytes_length, IH. reflexivity.
Qed.

(** A batch whose bytes can be counted by an [int] goes out whole. *)
Lemma wire_batch_fits {layout : IntLayout} (dest : Z) (batch : list VehicleData) :
  Z.of_nat (length batch) * 20 <= Partition.int_max ->
  omap (@wire layout P T)
       [SendCount dest (Z.of_nat (length batch)); SendRecords dest batch] =
  [(dest, int_bytes (Z.of_nat (length batch)));
   (dest, concat (map record_bytes batch))].
Proof.
  intros Hfit. unfold Partition.int_max in Hfit.
  assert (Hn : wrap_int (Z.of_nat (length batch)) = Z.of_nat (length batch)).
  { apply wrap_int_in_range.
    unfold Partition.in_int, Partition.int_min, Partition.int_max. lia. }
  assert (Hc : wrap_int (Z.of_nat (length batch) * 20)
               = Z.of_nat (length batch) * 20).
  { apply wrap_int_in_range.
    unfold Partition.in_int, Partition.int_min, Partition.int_max. lia. }
  simpl. unfold send_count_of, byte_count. rewrite Hn.
  change (Z.of_nat sizeof_VehicleData) with 20. rewrite Hc.
  destruct (Z.ltb_spec (Z.of_nat (length batch) * 20) 0); [lia|].
  rewrite take_ge; [reflexivity|].
  rewrite records_bytes_length. unfold sizeof_VehicleData. lia.
Qed.

Lemma wire_out_destination {layout : IntLayout} (dest : Z)
    (batch : list VehicleData) :
  Forall (fun m : Z * list Byte.byte => fst m = dest)
         (omap (@wire layout P T)
               [SendCount dest (Z.of_nat (length batch));
                SendRecords dest batch]).
Proof.
  simpl. destruct (_ <? 0); repeat constructor.
Qed.

(** C5.  What a rank sends in a tick is, when it has a right neighbour, one
    4-byte count followed by one message of that many 20-byte records, both
    addressed to rank + 1, and nothing when it has none; what it receives
    comes from rank - 1.  The records are those its loop over the vehicles
    has queued: for each vehicle whose move returns a nonzero number of
    ticks, the lane, the id, the new position and the speed of the vehicle
    and that number, in this order, which is the order of the five [int]s
    of a record on the wire.  The count of bytes of the second message is
    an [int]: the message holds all the records as long as 20 times their
    number fits one. *)
Theorem handoff_wire_format {layout : IntLayout}
    (lanes : list L) (rank size road_length_per_process : Z)
    (inbound : list VehicleData) (st st' : State W P T) :
  tick inputs lanes rank size road_length_per_process inbound st = Some st' ->
  exists batch,
    (rank = 0 ->
     exists marked records w',
       head_pass 0 (vehicles st)
         (fold_left (fun w p => lane_switch_step p w) (vehicles st) (world st))
         marked records w' /\
       batch = send_to_right st ++ records) /\
    (0 < rank ->
     exists w0 local0 evs vals,
       reconstruct inputs lanes inbound None (world st) (local_vehicles st)
         = Some (w0, local0) /\
       interior_pass inputs road_length_per_process
         (Inputs.warmup_time inputs <? time st) 0 local0 w0
         batch evs vals (local_vehicles st') (world st')) /\
    sends (new_events st st') =
      (if rank + 1 <? size
       then [SendCount (rank + 1) (Z.of_nat (length batch));
             SendRecords (rank + 1) batch]
       else []) /\
    Forall (fun m => fst m = rank + 1) (omap wire (new_events st st')) /\
    (Z.of_nat (length batch) * 20 <= Partition.int_max ->
     omap wire (new_events st st') =
       (if rank + 1 <? size
        then [(rank + 1, int_bytes (Z.of_nat (length batch)));
              (rank + 1, concat (map record_bytes batch))]
        else [])) /\
    length (int_bytes (Z.of_nat (length batch))) = 4%nat /\
    length (concat (map record_bytes batch)) =
      (length batch * sizeof_VehicleData)%nat /\
    Forall (fun v =>
              length (record_bytes v) = sizeof_VehicleData /\
              record_bytes v =
                int_bytes (lane v) ++ int_bytes (id v) ++
                int_bytes (position v) ++ int_bytes (speed v) ++
                int_bytes (time_on_road v)) batch /\
    Forall (fun source => source = rank - 1)
           (omap received_from (new_events st st')).
Proof.
  intros Ht. pose proof (tick_exact _ _ _ _ _ _ _ Ht) as Hx. simpl in Hx.
  destruct Hx as (batch & rem_evs & vals & Hnew & _ & Hrem & _ & _ & Hhead & Hint).
  destruct (tick_events_messages _ rank size inbound batch rem_evs Hrem)
    as (Hs & Hw & _ & Hr).
  exists batch. rewrite Hnew, Hs, Hw.
  split; [|split; [|split; [|split; [|split; [|split; [|split; [|split]]]]]]].
  - intros E. destruct (Hhead E) as (marked & records & w' & ps & ? & ? & _).
    eauto.
  - intros Hpos. destruct (Hint Hpos) as (w0 & local0 & Hrec & Hp).
    unfold guard_time in Hp. destruct (Z.eqb_spec rank 0); [lia|]. eauto 6.
  - reflexivity.
  - destruct (rank + 1 <? size); [apply wire_out_destination | constructor].
  - intros Hfit. destruct (rank + 1 <? size); [|reflexivity].
    apply wire_batch_fits. exact Hfit.
  - apply int_bytes_length.
  - apply records_bytes_length.
  - apply List.Forall_forall. intros v _.
    split; [apply record_bytes_length | reflexivity].
  - exact Hr.
Qed.

(** C2, as the code has it.  In a tick, every vehicle a rank removes from
    its segment is destroyed right after its travel time, read before the
    destruction, was added to the statistic of that rank, once, when the
    warm-up guard of the rank holds, and without any addition when it does
    not; the statistic grows by exactly these values.  At rank 0 the
    vehicles removed are those whose move returned a nonzero number of
    ticks, and the batch of the tick holds one record for each of them; at
    a rank above 0 they are those past the end of the segment, whose record
    is queued in the same iteration, and every received record that names a
    lane of the worker has given one new local vehicle.  Over the whole run
    of a rank its statistic holds one value for each removal it recorded,
    the travel time of the vehicle destroyed next. *)
Theorem removals_recorded_once_each
    (lanes : list L) (rank size road_length_per_process : Z) :
  (forall (inbound : list VehicleData) (st st' : State W P T),
     tick inputs lanes rank size road_length_per_process inbound st = Some st' ->
     let recorded := Inputs.warmup_time inputs <? guard_time rank (time st) in
     removals recorded (bookkeeping (new_events st st')) /\
     (rank = 0 -> vehicles_to_remove st = [] ->
      exists marked records w' ps,
        head_pass 0 (vehicles st)
          (fold_left (fun w p => lane_switch_step p w) (vehicles st) (world st))
          marked records w' /\
        Forall2 (fun k p => vehicles st !! k = Some p) (rev marked) ps /\
        length records = length ps /\
        bookkeeping (new_events st st') = removal_events inputs recorded ps w' /\
        travel_time st' =
          travel_time st ++ removal_values inputs recorded ps w' /\
        sent_batches (new_events st st') =
          (if 1 <? size then [send_to_right st ++ records] else [])) /\
     (0 < rank ->
      exists w0 local0 records evs vals,
        reconstruct inputs lanes inbound None (world st) (local_vehicles st)
          = Some (w0, local0) /\
        (Forall (lane_matches lanes) inbound ->
         exists created,
           local0 = local_vehicles st ++ created /\
           reconstructed inputs lanes inbound (world st) created w0) /\
        interior_pass inputs road_length_per_process recorded 0 local0 w0
          records evs vals (local_vehicles st') (world st') /\
        bookkeeping (new_events st st') = evs /\
        travel_time st' = travel_time st ++ vals /\
        sent_batches (new_events st st') =
          (if rank + 1 <? size then [records] else []))) /\
  (forall (inbox : list (list VehicleData)) (w : W) (st : State W P T),
     run_simulation inputs rank size road_length_per_process inbox w = Some st ->
     recorded_removals inputs (bookkeeping (trace st)) (travel_time st)).
Proof.
  split.
  - intros inbound st st' Ht. pose proof (tick_exact _ _ _ _ _ _ _ Ht) as Hx.
    simpl in Hx. simpl.
    destruct Hx as (batch & rem_evs & vals & Hnew & Hst & Hrem & _ & Hneg
                    & Hhead & Hint).
    destruct (tick_events_bookkeeping _ rank size inbound batch rem_evs Hrem Hneg)
      as (Hb & _).
    destruct (@tick_events_messages little_endian _ rank size inbound batch
                rem_evs Hrem) as (_ & _ & Hsent & _).
    rewrite Hnew, Hb, Hsent. split; [exact Hrem|]. split.
    + intros E Hempty.
      destruct (Hhead E) as (marked & records & w' & ps & Hp & -> & -> & -> & Hall).
      subst rank. exists marked, records, w', ps. repeat split; auto.
      destruct (head_pass_indices _ _ _ _ _ _ Hp) as (_ & _ & ->).
      rewrite <- (Forall2_length _ _ _ (Hall Hempty)), length_rev. reflexivity.
    + intros Hpos. destruct (Hint Hpos) as (w0 & local0 & Hrec & Hp).
      exists w0, local0, batch, rem_evs, vals. repeat split; auto.
      intros Hall.
      destruct (reconstruct_exact lanes inbound Hall None (world st)
                  (local_vehicles st)) as (w1 & created & Hr & Hc).
      rewrite Hr in Hrec. inversion Hrec; subst. eauto.
  - intros inbox w st Hrun. unfold run_simulation in Hrun.
    apply while_loop_recorded in Hrun; [exact Hrun|]. simpl. constructor.
Qed.

End Facts.

End Driver.
(** ** The vehicle rule engine and the road *)

Module Traffic.
Local Open Scope Z_scope.

(** The data members of [class Vehicle] (Vehicle.h).  [lane_ptr] holds the
    number of the lane the pointer designates. *)
Record Vehicle : Type := mkVehicle {
  lane_ptr : Z;
  id : Z;
  position : Z;
  speed : Z;
  max_speed : Z;
  gap_forward : Z;
  gap_other_forward : Z;
  gap_other_backward : Z;
  look_forward : Z;
  look_other_forward : Z;
  look_other_backward : Z;
  prob_slow_down : Q;
  prob_change : Q;
  time_on_road : Z;
  new_position : Z
}.

(** Modelled from the spec: [Lane] (Lane.h, Lane.cpp are not in src), §3: a
    lane number and the occupancy index from positions to vehicles, for the
    positions of one segment. *)
Record Lane : Type := mkLane {
  lane_number : Z;
  lane_size : Z;
  sites : gmap Z nat
}.

(** The heap of one process: the [Vehicle] objects by address, the lanes of
    the [Road], and the generator behind [std::rand]: [rand k] is the [k]-th
    draw, scaled to the interval from 0 to 1. *)
Record World : Type := mkWorld {
  heap : gmap nat Vehicle;
  next_addr : nat;
  road : list Lane;
  rand : nat -> Q;
  rand_calls : nat
}.

(** A gap beyond its look-ahead window is reported as unbounded. *)
Definition unbounded : Z := 2 ^ 31 - 1.

Definition set_heap (h : gmap nat Vehicle) (w : World) : World :=
  mkWorld h (next_addr w) (road w) (rand w) (rand_calls w).
Definition set_road (r : list Lane) (w : World) : World :=
  mkWorld (heap w) (next_addr w) r (rand w) (rand_calls w).

(** One call of [std::rand]. *)
Definition draw (w : World) : Q * World :=
  (rand w (rand_calls w),
   mkWorld (heap w) (next_addr w) (road w) (rand w) (S (rand_calls w))).

Definition find_lane (number : Z) (w : World) : option Lane :=
  List.find (fun l => lane_number l =? number) (road w).

(** Update of the lane with the given number. *)
Definition update_lane (number : Z) (f : gmap Z nat -> gmap Z nat) (w : World)
  : World :=
  set_road (map (fun l => if lane_number l =? number
                          then mkLane (lane_number l) (lane_size l) (f (sites l))
                          else l) (road w)) w.

Definition occupied (number pos : Z) (w : World) : bool :=
  match find_lane number w with
  | Some l => match sites l !! pos with Some _ => true | None => false end
  | None => false
  end.

(** Modelled from the spec: [Lane::removeVehicle] (not in src). *)
Definition removeVehicle (number pos : Z) (w : World) : World :=
  update_lane number (delete pos) w.

Definition has_lane (number : Z) (w : World) : bool :=
  match find_lane number w with Some _ => true | None => false end.

(** Modelled from the spec: the lane next to lane [number], §4.1 ("the
    adjacent lane"): the lane that follows it in the road or, for the last
    lane, the one before it; none on a road of one lane. *)
Definition adjacent_lane (number : Z) (w : World) : option Z :=
  if has_lane (number + 1) w then Some (number + 1)
  else if has_lane (number - 1) w then Some (number - 1)
  else None.

(** The free cells between [pos] and the nearest occupied cell of lane
    [number] in the direction [dir] (1 ahead, -1 behind), looking at the
    cells [pos + dir * k] for [k] from [from] to [from + window - 1];
    [unbounded] when none of them is occupied. *)
Fixpoint scan (number pos dir : Z) (k : Z) (window : nat) (w : World) : Z :=
  match window with
  | O => unbounded
  | S window' =>
      if occupied number (pos + dir * k) w then k - 1
      else scan number pos dir (k + 1) window' w
  end.

(** Modelled from the spec: [Vehicle::Vehicle] (Vehicle.cpp is not in src),
    §3 and §4.2: the new vehicle is bound to the lane, carries the id and the
    initial position it is given, takes its limits and probabilities from the
    inputs, has spent no tick on the segment, and occupies its cell in the
    lane.  The specification leaves the initial speed open: the vehicle
    starts at rest, as in its Scenario A. *)
Definition newVehicle (lane : Z) (vehicle_id initial_position : Z)
    (inputs : Inputs.t) (w : World) : nat * World :=
  let p := next_addr w in
  let v := mkVehicle lane vehicle_id initial_position 0
             (Inputs.max_speed inputs) unbounded unbounded unbounded
             (Inputs.look_forward inputs) (Inputs.look_other_forward inputs)
             (Inputs.look_other_backward inputs)
             (Inputs.prob_slow_down inputs) (Inputs.prob_change inputs)
             0 initial_position in
  let w1 := mkWorld (<[p := v]> (heap w)) (S p) (road w) (rand w) (rand_calls w) in
  (p, update_lane lane (<[initial_position := p]>) w1).

(** Update of the vehicle at address [p]; nothing happens when there is no
    vehicle there. *)
Definition with_vehicle (p : nat) (f : Vehicle -> World -> World) (w : World)
  : World :=
  match heap w !! p with
  | Some v => f v w
  | None => w
  end.

Definition store (p : nat) (v : Vehicle) (w : World) : World :=
  set_heap (<[p := v]> (heap w)) w.

(** The cell the vehicle at [p] occupies is released if it still holds it. *)
Definition release_cell (p : nat) (v : Vehicle) (w : World) : World :=
  update_lane (lane_ptr v)
    (fun s => match s !! position v with
              | Some q => if Nat.eqb q p then delete (position v) s else s
              | None => s
              end) w.

(** Modelled from the spec: [Vehicle::~Vehicle], §3: a destroyed vehicle no
    longer occupies a cell. *)
Definition deleteVehicle (p : nat) (w : World) : World :=
  with_vehicle p (fun v w => set_heap (delete p (heap w)) (release_cell p v w)) w.

(** Modelled from the spec: [Vehicle::updateGaps], §4.1 step 1.  A gap is
    the number of free cells up to the nearest occupied one, so that a speed
    no larger than the forward gap cannot reach the vehicle ahead. *)
Definition updateGaps (p : nat) (w : World) : World :=
  with_vehicle p (fun v w =>
    let fwd := scan (lane_ptr v) (position v) 1 1
                    (Z.to_nat (look_forward v)) w in
    let '(ofwd, obwd) :=
      match adjacent_lane (lane_ptr v) w with
      | Some other =>
          (scan other (position v) 1 0 (Z.to_nat (look_other_forward v + 1)) w,
           scan other (position v) (-1) 1 (Z.to_nat (look_other_backward v)) w)
      | None => (0, 0)
      end in
    store p (mkVehicle (lane_ptr v) (id v) (position v) (speed v) (max_speed v)
               fwd ofwd obwd
               (look_forward v) (look_other_forward v) (look_other_backward v)
               (prob_slow_down v) (prob_change v) (time_on_road v)
               (new_position v)) w) w.

(** Modelled from the spec: [Vehicle::performLaneSwitch], §4.1 step 2.  The
    change is eligible when the forward gap of the adjacent lane exceeds the
    one of the own lane and a vehicle following in the adjacent lane, at most
    [max_speed] fast, would not have to brake; an eligible change is made
    when the draw falls below [prob_change]. *)
Definition performLaneSwitch (p : nat) (w : World) : World :=
  with_vehicle p (fun v w =>
    match adjacent_lane (lane_ptr v) w with
    | None => w
    | Some other =>
        if (gap_forward v <? gap_other_forward v) &&
           (max_speed v <=? gap_other_backward v)
        then
          let '(r, w1) := draw w in
          if Qle_bool (prob_change v) r then w1
          else
            let w2 := update_lane (lane_ptr v) (delete (position v)) w1 in
            let w3 := update_lane other (<[position v := p]>) w2 in
            store p (mkVehicle other (id v) (position v) (speed v) (max_speed v)
                       (gap_forward v) (gap_other_forward v)
                       (gap_other_backward v) (look_forward v)
                       (look_other_forward v) (look_other_backward v)
                       (prob_slow_down v) (prob_change v) (time_on_road v)
                       (new_position v)) w3
        else w
    end) w.

(** Modelled from the spec: [Vehicle::performLaneMove], §4.1 step 3:
    accelerate, brake to the forward gap, slow down at random, advance.  The
    result is the number of ticks spent on the segment when the new position
    is at or beyond the right edge of the segment, and zero otherwise. *)
Definition performLaneMove (p : nat) (w : World) : Z * World :=
  match heap w !! p with
  | None => (0, w)
  | Some v =>
      let ticks := time_on_road v + 1 in
      let s1 := Z.min (speed v + 1) (max_speed v) in
      let s2 := Z.min s1 (gap_forward v) in
      let '(r, w1) := draw w in
      let s3 := if Qle_bool (prob_slow_down v) r then s2 else Z.max (s2 - 1) 0 in
      let pos' := position v + s3 in
      let edge := match find_lane (lane_ptr v) w with
                  | Some l => lane_size l
                  | None => 0
                  end in
      let w2 := update_lane (lane_ptr v)
                  (fun s => <[pos' := p]> (delete (position v) s)) w1 in
      let w3 := store p (mkVehicle (lane_ptr v) (id v) pos' s3 (max_speed v)
                           (gap_forward v) (gap_other_forward v)
                           (gap_other_backward v) (look_forward v)
                           (look_other_forward v) (look_other_backward v)
                           (prob_slow_down v) (prob_change v) ticks pos') w2 in
      (if edge <=? pos' then ticks else 0, w3)
  end.

(** Modelled from the spec: the getters and setters of [Vehicle]
    (Vehicle.cpp is not in src); each reads or writes the member its name
    says.  The previous position is the position before the move, the new
    position the staged one. *)
Definition get (field : Vehicle -> Z) (p : nat) (w : World) : Z :=
  match heap w !! p with
  | Some v => field v
  | None => 0
  end.

Definition getId : nat -> World -> Z := get id.
Definition getVehicleLane : nat -> World -> Z := get lane_ptr.
Definition getNewPosition : nat -> World -> Z := get new_position.
Definition getPrevPosition : nat -> World -> Z := get position.
Definition getSpeed : nat -> World -> Z := get speed.
Definition getLane : nat -> World -> Z := get lane_ptr.

Definition setSpeed (p : nat) (s : Z) (w : World) : World :=
  with_vehicle p (fun v w =>
    store p (mkVehicle (lane_ptr v) (id v) (position v) s (max_speed v)
               (gap_forward v) (gap_other_forward v) (gap_other_backward v)
               (look_forward v) (look_other_forward v) (look_other_backward v)
               (prob_slow_down v) (prob_change v) (time_on_road v)
               (new_position v)) w) w.

Definition setTimeOnRoad (p : nat) (t : Z) (w : World) : World :=
  with_vehicle p (fun v w =>
    store p (mkVehicle (lane_ptr v) (id v) (position v) (speed v) (max_speed v)
               (gap_forward v) (gap_other_forward v) (gap_other_backward v)
               (look_forward v) (look_other_forward v) (look_other_backward v)
               (prob_slow_down v) (prob_change v) t (new_position v)) w) w.

(** Modelled from the spec: [Vehicle::setTempPosition], §4.3: the vehicle is
    given a temporarily clamped position, and its cell follows. *)
Definition setTempPosition (p : nat) (pos : Z) (w : World) : World :=
  with_vehicle p (fun v w =>
    let w1 := update_lane (lane_ptr v)
                (fun s => <[pos := p]> (delete (position v) s)) w in
    store p (mkVehicle (lane_ptr v) (id v) pos (speed v) (max_speed v)
               (gap_forward v) (gap_other_forward v) (gap_other_backward v)
               (look_forward v) (look_other_forward v) (look_other_backward v)
               (prob_slow_down v) (prob_change v) (time_on_road v)
               (new_position v)) w1) w.

(** Modelled from the spec: [Vehicle::getTravelTime], §4.3: the transit time
    of the vehicle on this segment, in ticks. *)
Definition getTravelTime (p : nat) (inputs : Inputs.t) (w : World) : Q :=
  inject_Z (get time_on_road p w).

(** Modelled from the spec: [Road::attemptSpawn], §4.2: lane by lane, when
    the draw falls below the spawn probability and cell 0 is free, a new
    vehicle enters at position 0 with the next id. *)
Fixpoint spawn_lanes (lanes : list Z) (inputs : Inputs.t)
    (vehicles : list nat) (next_id : Z) (w : World) : list nat * Z * World :=
  match lanes with
  | [] => (vehicles, next_id, w)
  | l :: lanes' =>
      let '(r, w1) := draw w in
      if Qle_bool (Inputs.prob_spawn inputs) r || occupied l 0 w1
      then spawn_lanes lanes' inputs vehicles next_id w1
      else
        let '(p, w2) := newVehicle l next_id 0 inputs w1 in
        spawn_lanes lanes' inputs (vehicles ++ [p]) (next_id + 1) w2
  end.

Definition getLanes (w : World) : list Z := map lane_number (road w).

Definition attemptSpawn (inputs : Inputs.t) (vehicles : list nat) (next_id : Z)
    (w : World) : list nat * Z * World :=
  spawn_lanes (getLanes w) inputs vehicles next_id w.

(** Modelled from the spec: [Road::Road(inputs, road_length_per_process)],
    §3: the lanes are numbered from 0, span the segment and start empty.
    [rand] is the sequence of draws the process will see. *)
Definition new_road (inputs : Inputs.t) (road_length_per_process : Z)
    (rand : nat -> Q) : World :=
  mkWorld ∅ 0
    (map (fun n => mkLane (Z.of_nat n) road_length_per_process ∅)
         (seq 0 (Z.to_nat (Inputs.num_lanes inputs))))
    rand 0.

#[export] Instance engine : Driver.Engine World nat Z Q := {
  Driver.getLanes := getLanes;
  Driver.getLaneNumber := fun l => l;
  Driver.newVehicle := newVehicle;
  Driver.deleteVehicle := deleteVehicle;
  Driver.updateGaps := updateGaps;
  Driver.performLaneSwitch := performLaneSwitch;
  Driver.performLaneMove := performLaneMove;
  Driver.getId := getId;
  Driver.getVehicleLane := getVehicleLane;
  Driver.getNewPosition := getNewPosition;
  Driver.getPrevPosition := getPrevPosition;
  Driver.getSpeed := getSpeed;
  Driver.setSpeed := setSpeed;
  Driver.setTimeOnRoad := setTimeOnRoad;
  Driver.setTempPosition := setTempPosition;
  Driver.getLane := getLane;
  Driver.removeVehicle := removeVehicle;
  Driver.getTravelTime := getTravelTime;
  Driver.attemptSpawn := attemptSpawn
}.

(** The vehicle the constructor creates carries the lane, the id and the
    position it was given. *)
Lemma newVehicle_fields (lane vehicle_id initial_position : Z)
    (inputs : Inputs.t) (w : World) :
  let '(p, w') := newVehicle lane vehicle_id initial_position inputs w in
  exists v,
    heap w' !! p = Some v /\
    lane_ptr v = lane /\ id v = vehicle_id /\ position v = initial_position.
Proof.
  unfold newVehicle, update_lane, set_road. simpl.
  eexists. split; [apply lookup_insert_eq|]. simpl. auto.
Qed.

(** The setters the driver calls on a received vehicle keep these three
    members and store the speed and the time of the record. *)
Lemma received_vehicle_fields (p : nat) (v : Vehicle) (s t : Z) (w : World) :
  heap w !! p = Some v ->
  heap (setTimeOnRoad p t (setSpeed p s w)) !! p =
  Some (mkVehicle (lane_ptr v) (id v) (position v) s (max_speed v)
          (gap_forward v) (gap_other_forward v) (gap_other_backward v)
          (look_forward v) (look_other_forward v) (look_other_backward v)
          (prob_slow_down v) (prob_change v) t (new_position v)).
Proof.
  intros Hv. unfold setTimeOnRoad, setSpeed, with_vehicle, store, set_heap.
  rewrite Hv. simpl. rewrite lookup_insert_eq. simpl.
  rewrite lookup_insert_eq. reflexivity.
Qed.

End Traffic.

(** ** Runs of the chain of ranks *)

Module Scenarios.
Import Driver.
Local Open Scope Z_scope.
#[local] Existing Instance Traffic.engine.

Definition TrafficState : Type := State Traffic.World nat Q.

(** Number of statistics recorded for vehicle [v] over all ranks. *)
Definition statistics_for (sts : list TrafficState) (v : Z) : nat :=
  length (List.filter (Z.eqb v)
            (concat (map (fun st => recorded_ids (trace st)) sts))).

(** Vehicle [v] is still held by some rank. *)
Definition in_flight (sts : list TrafficState) (v : Z) : Prop :=
  In v (concat (map held_ids sts)).

(** Vehicle [v] was spawned: rank 0 gave out its id. *)
Definition spawned (sts : list TrafficState) (v : Z) : Prop :=
  match sts with
  | head :: _ => 0 <= v < next_id head
  | [] => False
  end.

(** The conservation property as the specification states it: every spawned
    vehicle is still in flight at the end of the run or has exactly one
    recorded statistic over all segments. *)
Definition conservation (sts : list TrafficState) : Prop :=
  forall v, spawned sts v -> in_flight sts v \/ statistics_for sts v = 1%nat.

(** Every draw of [std::rand] falls in the middle of its range. *)
Definition steady : nat -> Q := fun _ => (1 # 2)%Q.

(** A road of 8 cells and one lane on two ranks, six ticks, no warm-up,
    top speed 2, a vehicle spawned whenever cell 0 is free, no random
    slow-down. *)
Definition inputs2 : Inputs.t := Inputs.mk 8 1 2 3 3 3 0 0 1 6 0.
Definition length2 (rank : Z) : Z := Partition.road_length_per_process 8 2 rank.
Definition world2 (rank : Z) : Traffic.World :=
  Traffic.new_road inputs2 (length2 rank) steady.
Definition run2 : option (list TrafficState) :=
  run_all inputs2 2 length2 world2.

(** The same road with a warm-up of two ticks, run for three ticks. *)
Definition inputs2w : Inputs.t := Inputs.mk 8 1 2 3 3 3 0 0 1 3 2.
Definition world2w (rank : Z) : Traffic.World :=
  Traffic.new_road inputs2w (length2 rank) steady.
Definition run2w : option (list TrafficState) :=
  run_all inputs2w 2 length2 world2w.

(** A road of 6 cells and one lane on three ranks, top speed 5, run for
    [ticks] ticks. *)
Definition inputs3 (ticks : Z) : Inputs.t := Inputs.mk 6 1 5 6 6 6 0 0 1 ticks 0.
Definition length3 (rank : Z) : Z := Partition.road_length_per_process 6 3 rank.
Definition world3 (ticks rank : Z) : Traffic.World :=
  Traffic.new_road (inputs3 ticks) (length3 rank) steady.
Definition run3 (ticks : Z) : option (list TrafficState) :=
  run_all (inputs3 ticks) 3 length3 (world3 ticks).

(** Rank 0 of the first road after [k] ticks. *)
Definition head2_after (k : nat) : option TrafficState :=
  while_loop inputs2 0 2 (length2 0) k
             (getLanes (world2 0)) [] (initial_state (world2 0)).

Definition head2_state (k : nat) : TrafficState :=
  default (initial_state (world2 0)) (head2_after k).

(** Rank 1 of the first road after [k] ticks, fed with the batches rank 0
    sends in its six ticks. *)
Definition tail2_after (k : nat) : option TrafficState :=
  while_loop inputs2 1 2 (length2 1) k (getLanes (world2 1))
             (sent_batches (trace (head2_state 6))) (initial_state (world2 1)).

Definition tail2_state (k : nat) : TrafficState :=
  default (initial_state (world2 1)) (tail2_after k).

(** A road of two lanes, and a batch of two records for its lanes. *)
Definition inputs_two_lanes : Inputs.t := Inputs.mk 20 2 3 4 4 4 0 0 1 6 0.
Definition world_two_lanes : Traffic.World :=
  Traffic.new_road inputs_two_lanes 9 steady.
Definition batch_two_lanes : list VehicleData :=
  [mkVehicleData 1 7 2 3 5; mkVehicleData 0 8 4 1 6].

(** The scenarios of §8 of the specification, on the model of the engine. *)

(** Scenario A: one lane without spawning, a vehicle at rest at position 0,
    top speed 5, nothing ahead. *)
Definition inputs_free_flow : Inputs.t := Inputs.mk 100 1 5 6 6 6 0 0 0 8 0.
Definition world_free_flow : Traffic.World :=
  snd (Traffic.newVehicle 0 0 0 inputs_free_flow
         (Traffic.new_road inputs_free_flow 100 steady)).

(** The speed of vehicle [p] before each of the next [n] steps. *)
Fixpoint speeds (n : nat) (p : nat) (w : Traffic.World) : list Z :=
  match n with
  | O => []
  | S n' =>
      Traffic.getSpeed p w ::
      speeds n' p (snd (Traffic.performLaneMove p (Traffic.updateGaps p w)))
  end.

(** Scenario B: a vehicle at speed 3, two cells before the end of a segment
    of length 10, top speed 3. *)
Definition inputs_handoff : Inputs.t := Inputs.mk 22 1 3 4 4 4 0 0 0 8 0.
Definition state_handoff : TrafficState :=
  let '(p, w) := Traffic.newVehicle 0 0 8 inputs_handoff
                   (Traffic.new_road inputs_handoff 10 steady) in
  mkState 5 [p] 1 [] (Traffic.setSpeed p 3 w) [] [] [] [].

(** Scenario C: spawn probability 1 and a vehicle on cell 0. *)
Definition inputs_full_ramp : Inputs.t := Inputs.mk 22 1 3 4 4 4 0 0 1 8 0.
Definition world_full_ramp : Traffic.World :=
  snd (Traffic.newVehicle 0 0 0 inputs_full_ramp
         (Traffic.new_road inputs_full_ramp 10 steady)).

Example scenario_free_flow :
  speeds 8 0 world_free_flow = [0; 1; 2; 3; 4; 5; 5; 5].
Proof. vm_compute. reflexivity. Qed.

Example scenario_segment_handoff :
  option_map (fun st' => sent_batches (new_events state_handoff st'))
    (tick inputs_handoff (getLanes (world state_handoff)) 0 2 10 []
          state_handoff)
  = Some [[mkVehicleData 0 0 11 3 1]].
Proof. vm_compute. reflexivity. Qed.

Example scenario_spawn_backpressure :
  let '(vehicles', next_id', _) :=
    Traffic.attemptSpawn inputs_full_ramp [0%nat] 1 world_full_ramp in
  vehicles' = [0%nat] /\ next_id' = 1.
Proof. vm_compute. split; reflexivity. Qed.

(** C2 fails as stated: on a road of 8 cells split over two ranks, vehicle 0
    leaves the segment of rank 0 and then the segment of rank 1 after the
    warm-up, and each of the two ranks records a statistic for it. *)
Lemma conservation_fails_on_two_segments :
  exists sts, run2 = Some sts /\ ~ conservation sts.
Proof.
  eexists. split; [vm_compute; reflexivity|].
  intros Hc. destruct (Hc 0) as [Hin | Hone].
  - vm_compute. split; congruence.
  - vm_compute in Hin. intuition discriminate.
  - vm_compute in Hone. discriminate.
Qed.

Lemma removals_recorded_once_each_witness :
  (removals (Inputs.warmup_time inputs2 <? guard_time 0 (time (head2_state 2)))
            (bookkeeping (new_events (head2_state 2) (head2_state 3))) /\
   exists marked records w' ps,
     head_pass 0 (vehicles (head2_state 2))
       (fold_left (fun w p => lane_switch_step p w) (vehicles (head2_state 2))
                  (world (head2_state 2)))
       marked records w' /\
     Forall2 (fun k p => vehicles (head2_state 2) !! k = Some p) (rev marked) ps /\
     length records = length ps /\
     bookkeeping (new_events (head2_state 2) (head2_state 3)) =
       removal_events inputs2
         (Inputs.warmup_time inputs2 <? guard_time 0 (time (head2_state 2)))
         ps w' /\
     travel_time (head2_state 3) =
       travel_time (head2_state 2) ++
       removal_values inputs2
         (Inputs.warmup_time inputs2 <? guard_time 0 (time (head2_state 2)))
         ps w' /\
     sent_batches (new_events (head2_state 2) (head2_state 3)) =
       (if 1 <? 2 then [send_to_right (head2_state 2) ++ records] else [])) /\
  (exists w0 local0 records evs vals,
     reconstruct inputs2 (getLanes (world2 1)) [mkVehicleData 0 0 3 2 2] None
                 (world (tail2_state 2)) (local_vehicles (tail2_state 2))
       = Some (w0, local0) /\
     (Forall (lane_matches (getLanes (world2 1))) [mkVehicleData 0 0 3 2 2] ->
      exists created,
        local0 = local_vehicles (tail2_state 2) ++ created /\
        reconstructed inputs2 (getLanes (world2 1)) [mkVehicleData 0 0 3 2 2]
                      (world (tail2_state 2)) created w0) /\
     interior_pass inputs2 (length2 1)
       (Inputs.warmup_time inputs2 <? guard_time 1 (time (tail2_state 2)))
       0 local0 w0 records evs vals
       (local_vehicles (tail2_state 3)) (world (tail2_state 3)) /\
     bookkeeping (new_events (tail2_state 2) (tail2_state 3)) = evs /\
     travel_time (tail2_state 3) = travel_time (tail2_state 2) ++ vals /\
     sent_batches (new_events (tail2_state 2) (tail2_state 3)) =
       (if 1 + 1 <? 2 then [records] else [])) /\
  recorded_removals inputs2 (bookkeeping (trace (head2_state 6)))
                    (travel_time (head2_state 6)).
Proof.
  destruct (removals_recorded_once_each inputs2 (getLanes (world2 0))
              0 2 (length2 0)) as [Htick Hrun].
  destruct (removals_recorded_once_each inputs2 (getLanes (world2 1))
              1 2 (length2 1)) as [Htick1 _].
  assert (Ht : tick inputs2 (getLanes (world2 0)) 0 2 (length2 0) []
                 (head2_state 2) = Some (head2_state 3))
    by (vm_compute; reflexivity).
  assert (Ht1 : tick inputs2 (getLanes (world2 1)) 1 2 (length2 1)
                  [mkVehicleData 0 0 3 2 2] (tail2_state 2)
                = Some (tail2_state 3))
    by (vm_compute; reflexivity).
  assert (Hr : run_simulation inputs2 0 2 (length2 0) [] (world2 0)
               = Some (head2_state 6))
    by (vm_compute; reflexivity).
  destruct (Htick [] (head2_state 2) (head2_state 3) Ht) as (Hrem & Hhead & _).
  destruct (Htick1 [mkVehicleData 0 0 3 2 2] (tail2_state 2) (tail2_state 3) Ht1)
    as (_ & _ & Htail).
  split; [split; [exact Hrem | apply Hhead; reflexivity]|].
  split; [apply Htail; reflexivity|].
  exact (Hrun [] (world2 0) (head2_state 6) Hr).
Defined.

Lemma attemptSpawn_once_at_head_after_bookkeeping_witness :
  (let moved := head_update (head2_state 2) in
   let sent :=
     if 1 <? 2
     then [SendCount 1 (Z.of_nat (length (send_to_right moved)));
           SendRecords 1 (send_to_right moved)]
     else [] in
   let marked := rev (sort_ascending (vehicles_to_remove moved)) in
   exists ps,
     let rem_evs :=
       removal_events inputs2
         (Inputs.warmup_time inputs2 <? time (head2_state 2) + 1) ps
         (world moved) in
     new_events (head2_state 2) (head2_state 3)
       = (sent ++ [TimeIncrement] ++ rem_evs) ++ [AttemptSpawn] /\
     ~ In AttemptSpawn (sent ++ [TimeIncrement] ++ rem_evs) /\
     length ps = length marked /\
     (vehicles_to_remove (head2_state 2) = [] ->
      Forall2 (fun k p => vehicles (head2_state 2) !! k = Some p) marked ps) /\
     attemptSpawn inputs2
       (fold_left (fun vs k => delete k vs) marked (vehicles (head2_state 2)))
       (next_id (head2_state 2)) (after_removals ps (world moved))
     = (vehicles (head2_state 3), next_id (head2_state 3),
        world (head2_state 3))) /\
  (~ In AttemptSpawn (new_events (tail2_state 2) (tail2_state 3)) /\
   vehicles (tail2_state 3) = vehicles (tail2_state 2) /\
   next_id (tail2_state 3) = next_id (tail2_state 2)).
Proof.
  assert (Ht : tick inputs2 (getLanes (world2 0)) 0 2 (length2 0) []
                 (head2_state 2) = Some (head2_state 3))
    by (vm_compute; reflexivity).
  assert (Ht1 : tick inputs2 (getLanes (world2 1)) 1 2 (length2 1)
                  [mkVehicleData 0 0 3 2 2] (tail2_state 2)
                = Some (tail2_state 3))
    by (vm_compute; reflexivity).
  split.
  - apply (proj1 (attemptSpawn_once_at_head_after_bookkeeping inputs2
                    (getLanes (world2 0)) 0 2 (length2 0) []
                    (head2_state 2) (head2_state 3) Ht)).
    reflexivity.
  - apply (proj2 (attemptSpawn_once_at_head_after_bookkeeping inputs2
                    (getLanes (world2 1)) 1 2 (length2 1)
                    [mkVehicleData 0 0 3 2 2]
                    (tail2_state 2) (tail2_state 3) Ht1)).
    discriminate.
Defined.

Lemma handoff_wire_format_witness :
  (exists batch,
     (exists marked records w',
        head_pass 0 (vehicles (head2_state 2))
          (fold_left (fun w p => lane_switch_step p w) (vehicles (head2_state 2))
                     (world (head2_state 2)))
          marked records w' /\
        batch = send_to_right (head2_state 2) ++ records) /\
     omap wire (new_events (head2_state 2) (head2_state 3)) =
       [(1, int_bytes (Z.of_nat (length batch)));
        (1, concat (map record_bytes batch))] /\
     Forall (fun source => source = 0 - 1)
            (omap received_from (new_events (head2_state 2) (head2_state 3)))) /\
  (exists batch,
     (exists w0 local0 evs vals,
        reconstruct inputs2 (getLanes (world2 1)) [mkVehicleData 0 0 3 2 2] None
                    (world (tail2_state 2)) (local_vehicles (tail2_state 2))
          = Some (w0, local0) /\
        interior_pass inputs2 (length2 1)
          (Inputs.warmup_time inputs2 <? time (tail2_state 2)) 0 local0 w0
          batch evs vals (local_vehicles (tail2_state 3))
          (world (tail2_state 3))) /\
     omap wire (new_events (tail2_state 2) (tail2_state 3)) = [] /\
     Forall (fun source => source = 1 - 1)
            (omap received_from (new_events (tail2_state 2) (tail2_state 3)))).
Proof.
  assert (Ht : tick inputs2 (getLanes (world2 0)) 0 2 (length2 0) []
                 (head2_state 2) = Some (head2_state 3))
    by (vm_compute; reflexivity).
  assert (Ht1 : tick inputs2 (getLanes (world2 1)) 1 2 (length2 1)
                  [mkVehicleData 0 0 3 2 2] (tail2_state 2)
                = Some (tail2_state 3))
    by (vm_compute; reflexivity).
  split.
  - destruct (handoff_wire_format inputs2 (getLanes (world2 0)) 0 2 (length2 0)
                [] (head2_state 2) (head2_state 3) Ht)
      as (batch & Hhead & _ & Hsends & _ & Hfit & _ & _ & _ & Hsrc).
    exists batch. split; [apply Hhead; reflexivity|]. split; [|exact Hsrc].
    apply Hfit.
    assert (Hlen : length batch = 1%nat).
    { change (0 + 1 <? 2) with true in Hsends. cbv iota in Hsends.
      assert (Hs : sent_batches
                     (sends (new_events (head2_state 2) (head2_state 3)))
                   = [batch]) by (rewrite Hsends; reflexivity).
      vm_compute in Hs. inversion Hs. reflexivity. }
    rewrite Hlen. vm_compute. discriminate.
  - destruct (handoff_wire_format inputs2 (getLanes (world2 1)) 1 2 (length2 1)
                [mkVehicleData 0 0 3 2 2] (tail2_state 2) (tail2_state 3) Ht1)
      as (batch & _ & Htail & _ & _ & _ & _ & _ & _ & Hsrc).
    exists batch. split; [apply Htail; reflexivity|]. split; [|exact Hsrc].
    vm_compute. reflexivity.
Defined.

Lemma reconstruct_binds_matching_lane_witness :
  exists w' created,
    reconstruct inputs_two_lanes (getLanes world_two_lanes) batch_two_lanes
                None world_two_lanes [] = Some (w', [] ++ created) /\
    reconstructed inputs_two_lanes (getLanes world_two_lanes) batch_two_lanes
                  world_two_lanes created w' /\
    Forall2 (bound_to inputs_two_lanes (getLanes world_two_lanes))
            batch_two_lanes created.
Proof.
  apply (reconstruct_binds_matching_lane inputs_two_lanes
           (getLanes world_two_lanes) batch_two_lanes world_two_lanes []).
  repeat constructor.
  - exists 1. split; [vm_compute; auto | reflexivity].
  - exists 0. split; [vm_compute; auto | reflexivity].
Defined.

(** On the model of the engine, the two vehicles reconstructed from the
    batch stand on the lanes their records name, with the id, the position,
    the speed and the time on road of their records. *)
Example reconstructed_vehicles_carry_their_records :
  exists w',
    reconstruct inputs_two_lanes (getLanes world_two_lanes) batch_two_lanes
                None world_two_lanes [] = Some (w', [0%nat; 1%nat]) /\
    map (fun p => (getLaneNumber (getLane p w'), getId p w',
                   option_map Traffic.position (Traffic.heap w' !! p),
                   getSpeed p w',
                   option_map Traffic.time_on_road (Traffic.heap w' !! p)))
        [0%nat; 1%nat]
    = [(1, 7, Some 2, 3, Some 5); (0, 8, Some 4, 1, Some 6)].
Proof.
  eexists. split; vm_compute; reflexivity.
Qed.

(** C7 fails on the code.  With a warm-up of two ticks, vehicle 0 leaves
    the segment of rank 0 and the segment of rank 1 in the tick that starts
    at time 2.  Rank 0 reads its guard after the increment of the time and
    records the vehicle; rank 1 reads it before the increment and does not. *)
Theorem warmup_guard_differs_between_head_and_interior :
  exists st0 st1,
    run2w = Some [st0; st1] /\
    Inputs.warmup_time inputs2w = 2 /\
    drop 8 (trace st0) =
      [SendCount 1 1; SendRecords 1 [mkVehicleData 0 0 3 2 2]; TimeIncrement;
       AddValue 0%nat 0 2%Q; Delete 0%nat; AttemptSpawn] /\
    drop 6 (trace st1) =
      [RecvCount 0 1; RecvRecords 0 [mkVehicleData 0 0 3 2 2];
       Delete 0%nat; TimeIncrement] /\
    travel_time st0 = [2%Q] /\
    travel_time st1 = [].
Proof.
  do 2 eexists. split; [vm_compute; reflexivity|].
  repeat split; vm_compute; reflexivity.
Qed.

(** C3 fails on the code.  On a road of 6 cells split over three ranks with
    top speed 5, rank 1 finds vehicle 0 in the buffer zone in its second
    tick: it hands the vehicle to rank 2, destroys nothing and still holds
    the vehicle, while rank 2 reconstructs it, moves it and removes it.  In
    a run of five ticks rank 1 hands vehicle 0 over three times, and rank 2
    records it three times. *)
Theorem buffer_zone_vehicle_is_sent_and_kept :
  (exists st0 st1 st2,
     run3 2 = Some [st0; st1; st2] /\
     sent_batches (trace st1) = [[]; [mkVehicleData 0 0 3 2 2]] /\
     deleted (trace st1) = [] /\
     held_ids st1 = [0] /\
     trace st2 =
       [RecvCount 1 0; RecvRecords 1 []; TimeIncrement;
        RecvCount 1 1; RecvRecords 1 [mkVehicleData 0 0 3 2 2];
        AddValue 0%nat 0 3%Q; Delete 0%nat; TimeIncrement]) /\
  (exists st0 st1 st2,
     run3 5 = Some [st0; st1; st2] /\
     map (map id) (sent_batches (trace st1)) =
       [[]; [0]; [0; 1]; [0; 2]; [1; 2; 3]] /\
     recorded_ids (trace st2) = [0; 0; 1; 2; 0; 2]).
Proof.
  split.
  - do 3 eexists. split; [vm_compute; reflexivity|].
    repeat split; vm_compute; reflexivity.
  - do 3 eexists. split; [vm_compute; reflexivity|].
    repeat split; vm_compute; reflexivity.
Qed.

End Scenarios.

(** ** The entry point: [main] *)

Module Main.
Local Open Scope Z_scope.

(** What a process does in [main], in program order. *)
Inductive Step : Type :=
  | MPI_Init
  | Stderr (message : string)
  | MPI_Abort (errorcode : Z)
  | Banner
  | RunSimulation (rank size road_length_per_process : Z)
  | Return (code : Z).

Definition diagnostic : string :=
  "It takes at least 2 processes to run the program!"%string.

(** [main].  [load_result] is the value of [inputs.loadFromFile()], [inputs]
    the parameters it has read, [rank] and [size] what [MPI_Comm_rank] and
    [MPI_Comm_size] give.  [MPI_Abort(MPI_COMM_WORLD, 1)] ends all the
    processes of the run and does not return. *)
Definition main (load_result : Z) (inputs : Inputs.t) (rank size : Z)
  : list Step :=
  if negb (load_result =? 0) then [Return 1]
  else
    MPI_Init ::
    (if size <? 2 then [Stderr diagnostic; MPI_Abort 1]
     else
       let road_length_per_process :=
         Partition.road_length_per_process (Inputs.length inputs) size rank in
       (if rank =? 0 then [Banner] else []) ++
       [RunSimulation rank size road_length_per_process; Return 0]).

(** The simulation, and with it the first tick, is started. *)
Definition simulation_started (steps : list Step) : Prop :=
  exists rank size road_length_per_process,
    In (RunSimulation rank size road_length_per_process) steps.

Definition some_inputs : Inputs.t := Inputs.mk 8 1 2 3 3 3 0 0 1 6 0.

(** C6.  A process of a launch with fewer than two processes never starts
    the simulation, and so runs no tick.  The number of processes is known
    once MPI is initialised, which [main] does after its parameter file has
    loaded: the process then initialises MPI, prints the diagnostic, aborts
    all processes with error code 1, and does nothing else. *)
Theorem fewer_than_two_processes_abort
    (load_result : Z) (inputs : Inputs.t) (rank size : Z) :
  size < 2 ->
  (load_result = 0 ->
   main load_result inputs rank size =
     [MPI_Init; Stderr diagnostic; MPI_Abort 1]) /\
  ~ simulation_started (main load_result inputs rank size).
Proof.
  intros Hsize. unfold main.
  destruct (Z.ltb_spec size 2) as [_|]; [|lia].
  split.
  - intros ->. reflexivity.
  - intros (r & s & l & Hin).
    destruct (load_result =? 0); simpl in Hin;
      intuition discriminate.
Qed.

Lemma fewer_than_two_processes_abort_witness :
  (0 = 0 ->
   main 0 some_inputs 0 1 = [MPI_Init; Stderr diagnostic; MPI_Abort 1]) /\
  ~ simulation_started (main 0 some_inputs 0 1).
Proof.
  apply (fewer_than_two_processes_abort 0 some_inputs 0 1). lia.
Defined.

End Main.

(** ** Further properties of the segment partition *)

Module PartitionProps.
Import Partition.
Local Open Scope Z_scope.

(** X1.  The cell ranges [start_pos .. end_pos] of the ranks tile the road: the
    range of rank 0 starts at cell 0, the range of each rank starts right
    after the end of the range of the rank before, and the range of the last
    rank ends at the last cell. *)
Theorem ranges_tile_the_road (road_length size : Z) :
  0 <= road_length -> 0 < size ->
  start_pos road_length size 0 = 0 /\
  (forall rank, 0 <= rank ->
     start_pos road_length size (rank + 1) = end_pos road_length size rank + 1) /\
  end_pos road_length size (size - 1) = road_length - 1.
Proof.
  intros HL HN.
  destruct (quot_rem_nonneg road_length size HL HN) as [Hq Hr].
  pose proof (Z.mod_pos_bound road_length size HN) as Hb.
  pose proof (Z.div_mod road_length size ltac:(lia)) as Hd.
  split; [|split].
  - unfold start_pos. rewrite Hr. lia.
  - intros rank Hrank. apply ranges_contiguous; assumption.
  - unfold end_pos, start_pos. rewrite Hq, Hr.
    destruct (Z.ltb_spec (size - 1) (road_length mod size)); [lia|].
    replace (Z.min (size - 1) (road_length mod size))
      with (road_length mod size) by lia.
    nia.
Qed.

Lemma ranges_tile_the_road_witness :
  start_pos 10 3 0 = 0 /\
  (forall rank, 0 <= rank ->
     start_pos 10 3 (rank + 1) = end_pos 10 3 rank + 1) /\
  end_pos 10 3 (3 - 1) = 10 - 1.
Proof.
  apply (ranges_tile_the_road 10 3); lia.
Defined.

(** X2.  The length handed to the simulation of a rank is the quotient of the
    road length by the number of ranks, less one, plus one for the first
    (road length mod ranks) ranks; over all ranks these lengths add up to the
    road length less the number of ranks. *)
Theorem segment_lengths_by_rank (road_length size rank : Z) :
  0 <= road_length -> 0 < size ->
  road_length_per_process road_length size rank =
    road_length / size - 1 + (if rank <? road_length mod size then 1 else 0) /\
  sum_over_ranks size (road_length_per_process road_length size) =
    road_length - size.
Proof.
  intros HL HN. split.
  - rewrite road_length_per_process_value by assumption.
    unfold announced_size. lia.
  - apply road_length_per_process_total; assumption.
Qed.

Lemma segment_lengths_by_rank_witness :
  road_length_per_process 11 3 1 =
    11 / 3 - 1 + (if 1 <? 11 mod 3 then 1 else 0) /\
  sum_over_ranks 3 (road_length_per_process 11 3) = 11 - 3.
Proof.
  apply (segment_lengths_by_rank 11 3 1); lia.
Defined.

(** X3.  With a road length that fits an [int], no step of the computation of a
    rank's segment overflows. *)
Theorem partition_fits_int (road_length size rank : Z) :
  0 <= road_length <= int_max -> 0 < size -> 0 <= rank < size ->
  in_int (rank * segment_size road_length size) /\
  in_int (start_pos road_length size rank) /\
  in_int (start_pos road_length size rank + segment_size road_length size - 1) /\
  in_int (end_pos road_length size rank) /\
  in_int (road_length_per_process road_length size rank).
Proof.
  intros HL HN Hr.
  destruct (partition_in_int_range road_length size rank HL HN Hr)
    as (_ & _ & H1 & H2 & H3 & H4 & H5).
  auto.
Qed.

Lemma partition_fits_int_witness :
  in_int (3 * segment_size 2147483647 4) /\
  in_int (start_pos 2147483647 4 3) /\
  in_int (start_pos 2147483647 4 3 + segment_size 2147483647 4 - 1) /\
  in_int (end_pos 2147483647 4 3) /\
  in_int (road_length_per_process 2147483647 4 3).
Proof.
  apply (partition_fits_int 2147483647 4 3); unfold int_max; lia.
Defined.

(** X4.  With more ranks than cells, the ranks below the road length get the
    length 0 and all the others the length -1. *)
Theorem more_ranks_than_cells (road_length size rank : Z) :
  0 <= road_length < size -> 0 <= rank ->
  road_length_per_process road_length size rank =
    (if rank <? road_length then 0 else -1).
Proof.
  intros HL Hr.
  destruct (quot_rem_nonneg road_length size ltac:(lia) ltac:(lia)) as [Hq Hm].
  unfold road_length_per_process, end_pos, start_pos. rewrite Hq, Hm.
  rewrite Z.div_small, Z.mod_small by lia.
  destruct (rank <? road_length); lia.
Qed.

Lemma more_ranks_than_cells_witness :
  road_length_per_process 2 4 3 = (if 3 <? 2 then 0 else -1).
Proof.
  apply (more_ranks_than_cells 2 4 3); lia.
Defined.

End PartitionProps.

(** ** Further properties of the reduction at rank 0 *)

Module StatsProps.
Import Stats.
#[local] Existing Instance Stats.Q_arith.

(** The totals agree component by component, as rationals. *)
Definition totals_eq (a b : Totals Q) : Prop :=
  (total_sum a == total_sum b)%Q /\
  (total_samples a == total_samples b)%Q /\
  (total_squared_sum a == total_squared_sum b)%Q.

Section Blocking.
Context {D : Type} `{DoubleArith D}.

Lemma MPI_Recv_nothing_waiting (source : Z) (mailbox : Mailbox D) :
  (forall d, ~ In (source, d) mailbox) -> MPI_Recv source mailbox = None.
Proof.
  induction mailbox as [|[s e] mb IH]; simpl; intros Hno; [reflexivity|].
  destruct (Z.eqb_spec s source) as [->|Hne].
  - exfalso. apply (Hno e). left. reflexivity.
  - rewrite IH; [reflexivity|]. intros d Hin. apply (Hno d). right. exact Hin.
Qed.

Lemma MPI_Recv_leaves_the_rest (source : Z) (mailbox rest : Mailbox D) (d : Data D) :
  MPI_Recv source mailbox = Some (d, rest) ->
  forall x, In x rest -> In x mailbox.
Proof.
  revert rest. induction mailbox as [|[s e] mb IH]; simpl; intros rest Hr x Hx;
    [discriminate|].
  destruct (Z.eqb s source).
  - inversion Hr; subst. right. exact Hx.
  - destruct (MPI_Recv source mb) as [[d' rest']|]; [|discriminate].
    inversion Hr; subst. destruct Hx as [<-|Hx]; [left; reflexivity|].
    right. eapply IH; [reflexivity | exact Hx].
Qed.

Lemma receive_loop_blocks (s : Z) (srcs : list Z) :
  In s srcs ->
  forall (t : Totals D) (mailbox : Mailbox D),
  (forall d, ~ In (s, d) mailbox) ->
  receive_loop srcs t mailbox = None.
Proof.
  induction srcs as [|source srcs IH]; simpl; intros Hin t mailbox Hno;
    [contradiction|].
  destruct (MPI_Recv source mailbox) as [[d rest]|] eqn:Hrecv; [|reflexivity].
  destruct Hin as [->|Hin].
  - rewrite MPI_Recv_nothing_waiting in Hrecv by assumption. discriminate.
  - apply IH; [assumption|]. intros d' Hd'.
    apply (Hno d'). eapply MPI_Recv_leaves_the_rest; eauto.
Qed.

(** X5.  When one of the ranks [1 .. size-1] has left no message, rank 0 never
    gets to its final statistics: a receive of its loop, which names its
    source, finds nothing to take, whatever the other ranks have sent. *)
Theorem head_reduce_waits_for_every_rank
    (average variance : D) (numSamples size s : Z) (mailbox : Mailbox D) :
  (1 <= s < size)%Z ->
  (forall d, ~ In (s, d) mailbox) ->
  head_reduce average variance numSamples size mailbox = None.
Proof.
  intros Hs Hno. unfold head_reduce.
  rewrite (receive_loop_blocks s (sources size)); [reflexivity| |assumption].
  unfold sources. apply in_map_iff. exists (Z.to_nat s). split; [lia|].
  apply in_seq. lia.
Qed.

End Blocking.

Lemma head_reduce_waits_for_every_rank_witness :
  head_reduce (3 # 2) (1 # 4) 2 3 [ (2%Z, mkData 6 (26 # 3) 3) ]%Q = None.
Proof.
  apply (head_reduce_waits_for_every_rank (3 # 2)%Q (1 # 4)%Q 2 3 1).
  - lia.
  - intros d [E|[]]. discriminate.
Defined.

Local Open Scope Q_scope.

Lemma add_to_totals_proper (a b : Totals Q) (d : Data Q) :
  totals_eq a b -> totals_eq (add_to_totals a d) (add_to_totals b d).
Proof.
  intros (Hs & Hn & Hq). unfold totals_eq, add_to_totals. simpl.
  rewrite Hs, Hn, Hq. repeat split; reflexivity.
Qed.

Lemma add_to_totals_swap (t : Totals Q) (x y : Data Q) :
  totals_eq (add_to_totals (add_to_totals t x) y)
            (add_to_totals (add_to_totals t y) x).
Proof.
  unfold totals_eq, add_to_totals. simpl. repeat split; ring.
Qed.

Lemma totals_eq_refl (t : Totals Q) : totals_eq t t.
Proof. unfold totals_eq. repeat split; reflexivity. Qed.

Lemma totals_eq_trans (a b c : Totals Q) :
  totals_eq a b -> totals_eq b c -> totals_eq a c.
Proof.
  intros (H1 & H2 & H3) (H4 & H5 & H6). unfold totals_eq.
  rewrite H1, H2, H3. auto.
Qed.

Lemma fold_add_to_totals_proper (l : list (Data Q)) :
  forall a b, totals_eq a b ->
  totals_eq (fold_left add_to_totals l a) (fold_left add_to_totals l b).
Proof.
  induction l as [|d l IH]; simpl; intros a b Hab; [exact Hab|].
  apply IH, add_to_totals_proper, Hab.
Qed.

Lemma fold_add_to_totals_permutation (l1 l2 : list (Data Q)) :
  Permutation l1 l2 ->
  forall t, totals_eq (fold_left add_to_totals l1 t)
                      (fold_left add_to_totals l2 t).
Proof.
  induction 1 as [|d l1 l2 _ IH|x y l|l1 l2 l3 _ IH1 _ IH2]; intros t; simpl.
  - apply totals_eq_refl.
  - apply IH.
  - apply fold_add_to_totals_proper, add_to_totals_swap.
  - eapply totals_eq_trans; [apply IH1 | apply IH2].
Qed.

(** X6.  Over exact rational arithmetic the order in which the triples of the
    other ranks are added to the totals does not matter: any reordering of
    them gives the same final average, variance and count. *)
Theorem pooled_combination_order_independent
    (average variance : Q) (numSamples : Z) (received1 received2 : list (Data Q)) :
  Permutation received1 received2 ->
  data_eq (combine_in_rank_order average variance numSamples received1)
          (combine_in_rank_order average variance numSamples received2).
Proof.
  intros Hp. unfold combine_in_rank_order.
  destruct (fold_add_to_totals_permutation _ _ Hp
              (init_totals average variance numSamples)) as (Hs & Hn & Hq).
  unfold data_eq, final_statistics. simpl.
  rewrite Hs, Hn, Hq. repeat split; reflexivity.
Qed.

Lemma pooled_combination_order_independent_witness :
  data_eq
    (combine_in_rank_order (3 # 2) (1 # 4) 2 [mkData 0 0 0; mkData 6 (26 # 3) 3])
    (combine_in_rank_order (3 # 2) (1 # 4) 2 [mkData 6 (26 # 3) 3; mkData 0 0 0]).
Proof.
  apply (pooled_combination_order_independent (3 # 2) (1 # 4) 2).
  apply perm_swap.
Defined.

End StatsProps.

(** ** Further properties of the driver *)

Module DriverProps.
Import Driver.
Local Open Scope Z_scope.

Section Props.
Context {W P L T : Type} `{Engine W P L T}.
Variable inputs : Inputs.t.

(** *** Removal in reverse order *)

(** Visited from the largest index down, the removal loop destroys the
    vehicles that stood at the marked indices when the loop started. *)
Lemma remove_loop_marked (now : Z) (indices : list nat) :
  forall (vs : list P) (stat : list T) (w : W) (tr : list (Event P T)),
  descending (length vs) indices ->
  exists r evs,
    remove_loop inputs now indices vs stat w tr = Some r /\
    r_trace r = tr ++ evs /\
    Forall2 (fun k p => vs !! k = Some p) indices (deleted evs) /\
    sublist (r_list r) vs /\
    (length (r_list r) + length indices = length vs)%nat.
Proof.
  induction indices as [|k rest IH]; intros vs stat w tr Hd.
  - exists (mkRemoval vs stat w tr), []. simpl. rewrite app_nil_r.
    repeat split; auto.
  - destruct Hd as [Hlt Hd].
    destruct (lookup_lt_is_Some_2 vs k Hlt) as [p Hp].
    pose proof (descending_bound _ _ Hd) as Hbelow.
    assert (Hd' : descending (length (delete k vs)) rest).
    { eapply descending_weaken; [exact Hd|].
      rewrite length_delete by eauto. lia. }
    simpl. rewrite Hp.
    match goal with
    | |- context [remove_loop inputs now rest (delete k vs) ?stat' ?w' ?tr'] =>
        destruct (IH (delete k vs) stat' w' tr' Hd')
          as (r & evs & Hr & Htr & Hall & Hsub & Hlen)
    end.
    rewrite length_delete in Hlen by eauto.
    apply lookups_before_deleted in Hall; [|assumption].
    destruct (Inputs.warmup_time inputs <? now).
    + exists r, (AddValue p (getId p w) (getTravelTime p inputs w) :: Delete p :: evs).
      split; [exact Hr|]. rewrite Htr, <- !app_assoc. simpl.
      repeat split; auto; [|lia].
      etransitivity; [exact Hsub | apply sublist_delete].
    + exists r, (Delete p :: evs).
      split; [exact Hr|]. rewrite Htr, <- !app_assoc. simpl.
      repeat split; auto; [|lia].
      etransitivity; [exact Hsub | apply sublist_delete].
Qed.

(** X7.  Rank 0 sorts the indices it has marked and removes from the last one
    down.  For indices marked in ascending order inside the vector, this
    never leaves the vector; the vehicles destroyed are the ones that stood
    at the marked indices, last marked first, and the vehicles that stay
    keep their order. *)
Theorem reverse_removal_destroys_the_marked_vehicles
    (now : Z) (indices : list nat) (vs : list P) (stat : list T) (w : W)
    (tr : list (Event P T)) :
  ascending 0 indices ->
  Forall (fun k => (k < length vs)%nat) indices ->
  exists r evs,
    remove_loop inputs now (rev (sort_ascending indices)) vs stat w tr = Some r /\
    r_trace r = tr ++ evs /\
    Forall2 (fun k p => vs !! k = Some p) (rev indices) (deleted evs) /\
    sublist (r_list r) vs /\
    (length (r_list r) + length indices = length vs)%nat.
Proof.
  intros Ha Hb. rewrite (sort_ascending_sorted 0) by assumption.
  destruct (remove_loop_marked now (rev indices) vs stat w tr)
    as (r & evs & Hr & Htr & Hall & Hsub & Hlen).
  { eapply descending_rev; eauto. }
  rewrite length_rev in Hlen. exists r, evs. auto.
Qed.

(** X8.  A tick of rank 0 that starts with [vehicles_to_remove] empty never
    reads or erases outside [vehicles], and leaves [vehicles_to_remove]
    empty for the next tick. *)
Theorem head_tick_stays_in_bounds
    (lanes : list L) (size road_length_per_process : Z)
    (inbound : list VehicleData) (st : State W P T) :
  vehicles_to_remove st = [] ->
  exists st',
    tick inputs lanes 0 size road_length_per_process inbound st = Some st' /\
    vehicles_to_remove st' = [].
Proof.
  intros Hempty. apply tick_head_total. exact Hempty.
Qed.

(** *** Records without a lane *)

(** X9.  When no lane of the worker carries the lane number of the first record
    of a batch, the loop reads [new_vehicle] before anything was assigned
    to it. *)
Theorem unmatched_first_record_reads_unset_pointer
    (lanes : list L) (vdata : VehicleData) (rest : list VehicleData)
    (w : W) (local : list P) :
  Forall (fun l => getLaneNumber l <> lane vdata) lanes ->
  reconstruct inputs lanes (vdata :: rest) None w local = None.
Proof.
  intros Hno. simpl. rewrite bind_to_lane_no_match by assumption. reflexivity.
Qed.

(** X10.  When the lane number of a record is carried by no lane but the record
    before it had a lane, no vehicle is constructed for it: the vehicle of
    the record before is given the speed and the time of this record and is
    pushed on [local_vehicles] a second time. *)
Theorem unmatched_record_reuses_previous_vehicle
    (lanes : list L) (a b : VehicleData) (rest : list VehicleData)
    (w : W) (local : list P) :
  lane_matches lanes a ->
  Forall (fun l => getLaneNumber l <> lane b) lanes ->
  exists p w1,
    bound_to inputs lanes a p /\
    reconstruct inputs lanes (a :: b :: rest) None w local =
    reconstruct inputs lanes rest (Some p)
      (setTimeOnRoad p (time_on_road b)
         (setSpeed p (speed b)
            (setTimeOnRoad p (time_on_road a) (setSpeed p (speed a) w1))))
      (local ++ [p; p]).
Proof.
  intros Ha Hb.
  destruct (bind_to_lane_match inputs lanes a None w Ha) as (p & w1 & Hbind & Hbound).
  exists p, w1. split; [exact Hbound|].
  simpl. rewrite Hbind. simpl.
  rewrite bind_to_lane_no_match by assumption.
  rewrite <- app_assoc. reflexivity.
Qed.

(** *** What each rank leaves alone *)

Lemma send_block_keeps (rank size : Z) (st : State W P T) :
  vehicles (send_block rank size st) = vehicles st /\
  next_id (send_block rank size st) = next_id st /\
  local_vehicles (send_block rank size st) = local_vehicles st /\
  vehicles_to_remove (send_block rank size st) = vehicles_to_remove st.
Proof.
  unfold send_block. destruct (neighbor_right rank <? size); simpl; auto.
Qed.

Lemma head_update_keeps (st : State W P T) :
  local_vehicles (head_update st) = local_vehicles st.
Proof.
  unfold head_update.
  destruct (head_move_loop _ _ _ _ _) as [[w' to_remove] out]. reflexivity.
Qed.

Lemma tick_foreign_vectors (lanes : list L)
    (rank size road_length_per_process : Z)
    (inbound : list VehicleData) (st st' : State W P T) :
  tick inputs lanes rank size road_length_per_process inbound st = Some st' ->
  (rank <> 0 -> vehicles st' = vehicles st /\ next_id st' = next_id st) /\
  (rank = 0 -> local_vehicles st' = local_vehicles st).
Proof.
  unfold tick. intros Ht. destruct (Z.eqb_spec rank 0) as [->|Hne].
  - split; [intros Hc; contradiction|]. intros _. simpl in Ht.
    unfold head_finish in Ht.
    destruct (remove_loop _ _ _ _ _ _ _) as [r|]; [|discriminate].
    destruct (attemptSpawn _ _ _ _) as [[vs nid] w].
    inversion Ht; subst; clear Ht. simpl.
    destruct (send_block_keeps 0 size (head_update st)) as (_ & _ & -> & _).
    apply head_update_keeps.
  - split; [|intros Hc; contradiction]. intros _.
    destruct (0 <? rank).
    + unfold interior_update in Ht.
      destruct (reconstruct _ _ _ _ _ _) as [[w local]|]; [|discriminate].
      destruct (interior_loop _ _ _ _ _ _ _ _ _ _) as [r|]; [|discriminate].
      inversion Ht; subst; clear Ht. simpl.
      match goal with
      | |- context [send_block rank size ?s] =>
          destruct (send_block_keeps rank size s) as (-> & -> & _)
      end.
      split; reflexivity.
    + inversion Ht; subst; clear Ht. simpl.
      destruct (send_block_keeps rank size st) as (-> & -> & _).
      split; reflexivity.
Qed.

Lemma while_loop_foreign_vectors (rank size road_length_per_process : Z)
    (fuel : nat) :
  forall (lanes : list L) (inbox : list (list VehicleData))
         (st st' : State W P T),
  while_loop inputs rank size road_length_per_process fuel lanes inbox st
    = Some st' ->
  (rank <> 0 -> vehicles st' = vehicles st /\ next_id st' = next_id st) /\
  (rank = 0 -> local_vehicles st' = local_vehicles st).
Proof.
  induction fuel as [|fuel IH]; simpl; intros lanes inbox st st' Hrun.
  - inversion Hrun; subst. auto.
  - destruct (time st <? Inputs.max_time inputs).
    2:{ inversion Hrun; subst. auto. }
    destruct (next_inbound rank inbox) as [[inbound inbox']|]; [|discriminate].
    destruct (tick inputs lanes rank size road_length_per_process inbound st)
      as [st1|] eqn:Ht; [|discriminate].
    apply tick_foreign_vectors in Ht. apply IH in Hrun.
    destruct Ht as [Ht1 Ht2], Hrun as [Hr1 Hr2]. split.
    + intros Hne. destruct (Ht1 Hne) as [<- <-]. auto.
    + intros He. rewrite <- (Ht2 He). auto.
Qed.

(** X11.  Only rank 0 owns vehicles in [this->vehicles] and gives out ids: at the
    end of the run of any other rank [vehicles] is still empty, which is all
    the destructor of [Simulation] walks through, and [next_id] is still 0;
    at the end of the run of rank 0 [local_vehicles] is still empty. *)
Theorem vehicles_and_ids_stay_at_rank_0
    (rank size road_length_per_process : Z)
    (inbox : list (list VehicleData)) (w : W) (st : State W P T) :
  run_simulation inputs rank size road_length_per_process inbox w = Some st ->
  (rank <> 0 -> vehicles st = [] /\ next_id st = 0) /\
  (rank = 0 -> local_vehicles st = []).
Proof.
  unfold run_simulation. intros Hrun.
  apply while_loop_foreign_vectors in Hrun. exact Hrun.
Qed.

(** *** One batch per tick on every link *)

Lemma removals_sent_batches (recorded : bool) (evs : list (Event P T)) :
  removals recorded evs -> sent_batches evs = [].
Proof.
  unfold sent_batches. induction 1; simpl; auto.
Qed.

Lemma tick_sent_batches (lanes : list L)
    (rank size road_length_per_process : Z)
    (inbound : list VehicleData) (st st' : State W P T) :
  tick inputs lanes rank size road_length_per_process inbound st = Some st' ->
  time st' = time st + 1 /\
  length (sent_batches (trace st')) =
    (length (sent_batches (trace st)) + (if (rank + 1 <? size)%Z then 1 else 0))%nat.
Proof.
  intros Ht. apply tick_trace in Ht.
  destruct Ht as (rem_evs & batch & vals & Hrem & Htr & Htime & _).
  split; [exact Htime|]. rewrite Htr.
  pose proof (removals_sent_batches _ _ Hrem) as Hnone.
  unfold sent_batches in *. rewrite omap_app, length_app. f_equal.
  unfold tick_events.
  destruct (0 <? rank), (rank + 1 <? size), (rank =? 0); simpl;
    rewrite ?omap_app, ?Hnone; simpl; rewrite ?omap_app, ?Hnone; reflexivity.
Qed.

Lemma while_loop_sent_batches (rank size road_length_per_process : Z)
    (fuel : nat) :
  forall (lanes : list L) (inbox : list (list VehicleData))
         (st st' : State W P T),
  while_loop inputs rank size road_length_per_process fuel lanes inbox st
    = Some st' ->
  time st <= time st' /\
  length (sent_batches (trace st')) =
    (length (sent_batches (trace st)) +
     (if (rank + 1 <? size)%Z then Z.to_nat (time st' - time st)%Z else 0))%nat.
Proof.
  induction fuel as [|fuel IH]; simpl; intros lanes inbox st st' Hrun.
  - inversion Hrun; subst. rewrite Z.sub_diag. destruct (_ <? _); simpl; lia.
  - destruct (time st <? Inputs.max_time inputs).
    2:{ inversion Hrun; subst. rewrite Z.sub_diag. destruct (_ <? _); simpl; lia. }
    destruct (next_inbound rank inbox) as [[inbound inbox']|]; [|discriminate].
    destruct (tick inputs lanes rank size road_length_per_process inbound st)
      as [st1|] eqn:Ht; [|discriminate].
    apply tick_sent_batches in Ht. destruct Ht as [Htime Hlen].
    apply IH in Hrun. destruct Hrun as [Hle Hlen'].
    split; [lia|]. rewrite Hlen', Hlen.
    destruct (rank + 1 <? size); lia.
Qed.

(** X12.  The run of rank 0 never blocks and never leaves its vectors: it returns
    after [max_time] ticks and, when there is a rank 1, has sent it one batch
    in each of these ticks. *)
Theorem head_run_sends_a_batch_every_tick
    (size road_length_per_process : Z)
    (inbox : list (list VehicleData)) (w : W) :
  1 < size ->
  exists st,
    run_simulation inputs 0 size road_length_per_process inbox w = Some st /\
    time st = Z.max 0 (Inputs.max_time inputs) /\
    length (sent_batches (trace st)) = Z.to_nat (Inputs.max_time inputs).
Proof.
  intros Hsize. unfold run_simulation.
  destruct (while_loop_head_total inputs size road_length_per_process
              (Z.to_nat (Inputs.max_time inputs)) (getLanes w) inbox
              (initial_state w) eq_refl) as (st & Hst).
  exists st. split; [exact Hst|].
  pose proof (while_loop_time inputs _ _ _ _ _ _ _ _ Hst) as Htime.
  pose proof (while_loop_sent_batches _ _ _ _ _ _ _ _ Hst) as [_ Hlen].
  simpl in Htime, Hlen. split; [apply Htime; lia|].
  rewrite Hlen, Htime by lia.
  destruct (Z.ltb_spec (0 + 1) size); lia.
Qed.

(** X13.  A rank other than 0 whose left neighbour has sent a batch for every
    tick, all records naming lanes of the worker, returns after [max_time]
    ticks; it has sent one batch per tick when it has a right neighbour and
    none when it is the last rank. *)
Theorem interior_run_takes_a_batch_every_tick
    (rank size road_length_per_process : Z)
    (inbox : list (list VehicleData)) (w : W) :
  0 < rank ->
  Forall (Forall (lane_matches (getLanes w))) inbox ->
  (Z.to_nat (Inputs.max_time inputs) <= length inbox)%nat ->
  exists st,
    run_simulation inputs rank size road_length_per_process inbox w = Some st /\
    time st = Z.max 0 (Inputs.max_time inputs) /\
    length (sent_batches (trace st)) =
      (if rank + 1 <? size then Z.to_nat (Inputs.max_time inputs) else 0%nat).
Proof.
  intros Hrank Hall Hlen. unfold run_simulation.
  destruct (while_loop_interior_total inputs rank size road_length_per_process
              (getLanes w) (Z.to_nat (Inputs.max_time inputs)) Hrank inbox
              (initial_state w) Hall Hlen) as (st & Hst).
  exists st. split; [exact Hst|].
  pose proof (while_loop_time inputs _ _ _ _ _ _ _ _ Hst) as Htime.
  pose proof (while_loop_sent_batches _ _ _ _ _ _ _ _ Hst) as [_ Hb].
  simpl in Htime, Hb. split; [apply Htime; lia|].
  rewrite Hb, Htime by lia.
  destruct (rank + 1 <? size); lia.
Qed.

Lemma while_loop_starved (rank size road_length_per_process : Z)
    (lanes : list L) (fuel : nat) :
  0 < rank ->
  forall (inbox : list (list VehicleData)) (st : State W P T),
  Forall (Forall (lane_matches lanes)) inbox ->
  (length inbox < fuel)%nat ->
  Z.of_nat (length inbox) < Inputs.max_time inputs - time st ->
  while_loop inputs rank size road_length_per_process fuel lanes inbox st = None.
Proof.
  intros Hrank. induction fuel as [|fuel IH]; intros inbox st Hall Hfuel Hshort;
    [lia|].
  simpl. destruct (Z.ltb_spec (time st) (Inputs.max_time inputs)); [|lia].
  unfold next_inbound. destruct (Z.ltb_spec 0 rank); [|lia].
  destruct inbox as [|batch inbox]; [reflexivity|].
  inversion Hall as [|? ? Hbatch Hrest]; subst.
  destruct (tick_interior_total inputs lanes rank size road_length_per_process
              batch st Hrank Hbatch) as (st1 & Ht & _).
  rewrite Ht. apply tick_sent_batches in Ht. destruct Ht as [Htime _].
  apply IH; [assumption | simpl in Hfuel; lia | simpl length in Hshort; lia].
Qed.

(** X14.  A rank other than 0 that is sent fewer batches than there are ticks
    never returns: once the batches are used up its receive waits for ever. *)
Theorem interior_run_blocks_without_batches
    (rank size road_length_per_process : Z)
    (inbox : list (list VehicleData)) (w : W) :
  0 < rank ->
  Forall (Forall (lane_matches (getLanes w))) inbox ->
  (length inbox < Z.to_nat (Inputs.max_time inputs))%nat ->
  run_simulation inputs rank size road_length_per_process inbox w = None.
Proof.
  intros Hrank Hall Hshort. unfold run_simulation.
  apply while_loop_starved; auto. simpl. lia.
Qed.

(** *** Records and removals of one tick *)

(** X15.  In a tick of rank 0 that has a right neighbour and starts with its two
    vectors empty, the batch sent holds one record for each vehicle that is
    destroyed later in the tick, and both vectors are empty again at the
    end. *)
Theorem head_sends_one_record_per_destroyed_vehicle
    (lanes : list L) (size road_length_per_process : Z)
    (inbound : list VehicleData) (st st' : State W P T) :
  1 < size ->
  vehicles_to_remove st = [] ->
  send_to_right st = [] ->
  tick inputs lanes 0 size road_length_per_process inbound st = Some st' ->
  exists batch evs,
    new_events st st' =
      [SendCount 1 (Z.of_nat (length batch)); SendRecords 1 batch;
       TimeIncrement] ++ evs ++ [AttemptSpawn] /\
    removals (Inputs.warmup_time inputs <? time st + 1) evs /\
    length (deleted evs) = length batch /\
    send_to_right st' = [] /\
    vehicles_to_remove st' = [].
Proof.
  intros Hsize Hrm Hout Ht. unfold tick in Ht. simpl in Ht.
  unfold head_finish, head_update in Ht.
  destruct (head_move_loop_indices (vehicles st) 0
              (fold_left (fun w p => lane_switch_step p w) (vehicles st) (world st))
              (vehicles_to_remove st) (send_to_right st))
    as (w' & added & records & Hloop & Ha & Hb & Hlen).
  { rewrite Hrm. exact I. }
  { rewrite Hrm. constructor. }
  rewrite Hrm in Ha. rewrite Hloop, Hrm, Hout in Ht. simpl in Ht, Ha.
  unfold send_block, neighbor_right in Ht.
  destruct (Z.ltb_spec (0 + 1) size); [|lia]. simpl in Ht.
  destruct (remove_loop _ _ _ _ _ _ _) as [r|] eqn:Hrem; [|discriminate].
  destruct (attemptSpawn _ _ _ _) as [[vs nid] w].
  inversion Ht; subst; clear Ht. simpl.
  apply remove_loop_trace in Hrem.
  destruct Hrem as (evs & vals & Htr & Hremovals & Hdel & _).
  exists records, evs. repeat split; auto.
  - apply new_events_app. simpl. rewrite Htr, <- !app_assoc. reflexivity.
  - rewrite Hdel, length_rev, (sort_ascending_sorted 0 added Ha). lia.
Qed.

(** X16.  When the loop over [local_vehicles] erases the vehicle at index [i] and
    one vehicle follows it, that vehicle slides to index [i] and the loop,
    which goes on at index [i + 1], ends without having updated it in this
    tick.  The vehicle at [i] is erased when the test on the two sums, taken
    as the [int]s they are, fails. *)
Theorem erase_skips_the_next_vehicle
    (road_length_per_process now : Z) (fuel i : nat)
    (local : list P) (stat : list T) (w w2 : W) (out : list VehicleData)
    (tr : list (Event P T)) (vehicle : P) (t : Z) :
  local !! i = Some vehicle ->
  length local = S (S i) ->
  performLaneMove vehicle (lane_switch_step vehicle w) = (t, w2) ->
  t <> 0 ->
  wrap_int (road_length_per_process + Inputs.max_speed inputs) <=
    wrap_int (getPrevPosition vehicle (lane_switch_step vehicle w)
              + getNewPosition vehicle w2) ->
  let w3 := removeVehicle (getLane vehicle w2) (getNewPosition vehicle w2) w2 in
  let recorded := Inputs.warmup_time inputs <? now in
  delete i local !! i = local !! S i /\
  interior_loop inputs road_length_per_process (S (S fuel)) now i local stat w
                out tr =
  Some (mkInterior
          (mkRemoval (delete i local)
             (if recorded then stat ++ [getTravelTime vehicle inputs w3] else stat)
             (deleteVehicle vehicle w3)
             ((if recorded
               then tr ++ [AddValue vehicle (getId vehicle w3)
                             (getTravelTime vehicle inputs w3)]
               else tr) ++ [Delete vehicle]))
          (out ++ [make_vdata vehicle w2 (getNewPosition vehicle w2) t])).
Proof.
  intros Hv Hlen Hmove Ht Hpast. simpl. split.
  - apply list_lookup_delete_ge. lia.
  - rewrite Hv, Hmove. rewrite boundary_step_past_end by assumption.
    cbn [sort_descending sort_ascending fold_right insert_sorted rev app
         remove_loop].
    rewrite Hv. cbn [remove_loop r_list r_stat r_world r_trace].
    rewrite lookup_ge_None_2; [reflexivity|].
    rewrite length_delete by eauto. lia.
Qed.

End Props.

#[local] Existing Instance Traffic.engine.

(** The batches rank 0 of the road of 8 cells sends in its six ticks. *)
Definition inbox2 : list (list VehicleData) :=
  [[]; []; [mkVehicleData 0 0 3 2 2]; []; [mkVehicleData 0 1 3 2 3]; []].

(** Rank 1 of that road at the end of its run. *)
Definition interior2_final : Scenarios.TrafficState :=
  default (initial_state (Scenarios.world2 1))
    (run_simulation Scenarios.inputs2 1 2 (Scenarios.length2 1) inbox2
                    (Scenarios.world2 1)).

(** A worker with a segment of 3 cells that has just received two vehicles:
    one beyond the end of the segment, one on cell 0. *)
Definition world_two_arrivals : Traffic.World :=
  match reconstruct Scenarios.inputs2 (getLanes (Scenarios.world2 1))
          [mkVehicleData 0 0 3 2 2; mkVehicleData 0 1 0 0 0] None
          (Scenarios.world2 1) [] with
  | Some (w, _) => w
  | None => Scenarios.world2 1
  end.

Lemma reverse_removal_destroys_the_marked_vehicles_witness :
  exists r evs,
    remove_loop Scenarios.inputs2 3 (rev (sort_ascending [0%nat; 2%nat]))
                [10%nat; 11%nat; 12%nat] [] (Scenarios.world2 0) [] = Some r /\
    r_trace r = [] ++ evs /\
    Forall2 (fun k p => [10%nat; 11%nat; 12%nat] !! k = Some p)
            (rev [0%nat; 2%nat]) (deleted evs) /\
    sublist (r_list r) [10%nat; 11%nat; 12%nat] /\
    (length (r_list r) + length [0%nat; 2%nat]
     = length [10%nat; 11%nat; 12%nat])%nat.
Proof.
  apply (reverse_removal_destroys_the_marked_vehicles Scenarios.inputs2 3
           [0%nat; 2%nat] [10%nat; 11%nat; 12%nat] [] (Scenarios.world2 0) []).
  - simpl. lia.
  - repeat constructor; simpl; lia.
Defined.

Lemma head_tick_stays_in_bounds_witness :
  exists st',
    tick Scenarios.inputs2 (getLanes (Scenarios.world2 0)) 0 2
         (Scenarios.length2 0) [] (Scenarios.head2_state 2) = Some st' /\
    vehicles_to_remove st' = [].
Proof.
  apply (head_tick_stays_in_bounds Scenarios.inputs2
           (getLanes (Scenarios.world2 0)) 2 (Scenarios.length2 0) []
           (Scenarios.head2_state 2)).
  vm_compute. reflexivity.
Defined.

Lemma unmatched_first_record_reads_unset_pointer_witness :
  reconstruct Scenarios.inputs_two_lanes (getLanes Scenarios.world_two_lanes)
    (mkVehicleData 5 7 2 3 5 :: [mkVehicleData 0 8 4 1 6]) None
    Scenarios.world_two_lanes [] = None.
Proof.
  apply (unmatched_first_record_reads_unset_pointer Scenarios.inputs_two_lanes
           (getLanes Scenarios.world_two_lanes) (mkVehicleData 5 7 2 3 5)
           [mkVehicleData 0 8 4 1 6] Scenarios.world_two_lanes []).
  vm_compute. repeat constructor; discriminate.
Defined.

Lemma unmatched_record_reuses_previous_vehicle_witness :
  exists p w1,
    bound_to Scenarios.inputs_two_lanes (getLanes Scenarios.world_two_lanes)
             (mkVehicleData 1 7 2 3 5) p /\
    reconstruct Scenarios.inputs_two_lanes (getLanes Scenarios.world_two_lanes)
      (mkVehicleData 1 7 2 3 5 :: mkVehicleData 5 8 4 1 6 :: []) None
      Scenarios.world_two_lanes [] =
    reconstruct Scenarios.inputs_two_lanes (getLanes Scenarios.world_two_lanes)
      [] (Some p)
      (setTimeOnRoad p (time_on_road (mkVehicleData 5 8 4 1 6))
         (setSpeed p (speed (mkVehicleData 5 8 4 1 6))
            (setTimeOnRoad p (time_on_road (mkVehicleData 1 7 2 3 5))
               (setSpeed p (speed (mkVehicleData 1 7 2 3 5)) w1))))
      ([] ++ [p; p]).
Proof.
  apply (unmatched_record_reuses_previous_vehicle Scenarios.inputs_two_lanes
           (getLanes Scenarios.world_two_lanes)
           (mkVehicleData 1 7 2 3 5) (mkVehicleData 5 8 4 1 6) []
           Scenarios.world_two_lanes []).
  - exists 1. split; [vm_compute; auto | reflexivity].
  - vm_compute. repeat constructor; discriminate.
Defined.

Lemma vehicles_and_ids_stay_at_rank_0_witness :
  (1 <> 0 -> vehicles interior2_final = [] /\ next_id interior2_final = 0) /\
  (1 = 0 -> local_vehicles interior2_final = []).
Proof.
  apply (vehicles_and_ids_stay_at_rank_0 Scenarios.inputs2 1 2
           (Scenarios.length2 1) inbox2 (Scenarios.world2 1) interior2_final).
  vm_compute. reflexivity.
Defined.

Lemma head_run_sends_a_batch_every_tick_witness :
  exists st,
    run_simulation Scenarios.inputs2 0 2 (Scenarios.length2 0) []
                   (Scenarios.world2 0) = Some st /\
    time st = Z.max 0 (Inputs.max_time Scenarios.inputs2) /\
    length (sent_batches (trace st))
      = Z.to_nat (Inputs.max_time Scenarios.inputs2).
Proof.
  apply (head_run_sends_a_batch_every_tick Scenarios.inputs2 2
           (Scenarios.length2 0) [] (Scenarios.world2 0)).
  lia.
Defined.

Lemma interior_run_takes_a_batch_every_tick_witness :
  exists st,
    run_simulation Scenarios.inputs2 1 2 (Scenarios.length2 1) inbox2
                   (Scenarios.world2 1) = Some st /\
    time st = Z.max 0 (Inputs.max_time Scenarios.inputs2) /\
    length (sent_batches (trace st)) =
      (if 1 + 1 <? 2 then Z.to_nat (Inputs.max_time Scenarios.inputs2)
       else 0%nat).
Proof.
  apply (interior_run_takes_a_batch_every_tick Scenarios.inputs2 1 2
           (Scenarios.length2 1) inbox2 (Scenarios.world2 1)).
  - lia.
  - repeat constructor; exists 0; (split; [vm_compute; auto | reflexivity]).
  - vm_compute. lia.
Defined.

Lemma interior_run_blocks_without_batches_witness :
  run_simulation Scenarios.inputs2 1 2 (Scenarios.length2 1)
                 [[mkVehicleData 0 0 3 2 2]] (Scenarios.world2 1) = None.
Proof.
  apply (interior_run_blocks_without_batches Scenarios.inputs2 1 2
           (Scenarios.length2 1) [[mkVehicleData 0 0 3 2 2]]
           (Scenarios.world2 1)).
  - lia.
  - repeat constructor; exists 0; (split; [vm_compute; auto | reflexivity]).
  - vm_compute. lia.
Defined.

Lemma head_sends_one_record_per_destroyed_vehicle_witness :
  exists batch evs,
    new_events (Scenarios.head2_state 2) (Scenarios.head2_state 3) =
      [SendCount 1 (Z.of_nat (length batch)); SendRecords 1 batch;
       TimeIncrement] ++ evs ++ [AttemptSpawn] /\
    removals (Inputs.warmup_time Scenarios.inputs2
              <? time (Scenarios.head2_state 2) + 1) evs /\
    length (deleted evs) = length batch /\
    send_to_right (Scenarios.head2_state 3) = [] /\
    vehicles_to_remove (Scenarios.head2_state 3) = [].
Proof.
  apply (head_sends_one_record_per_destroyed_vehicle Scenarios.inputs2
           (getLanes (Scenarios.world2 0)) 2 (Scenarios.length2 0) []
           (Scenarios.head2_state 2) (Scenarios.head2_state 3)).
  - lia.
  - vm_compute. reflexivity.
  - vm_compute. reflexivity.
  - vm_compute. reflexivity.
Defined.

Lemma erase_skips_the_next_vehicle_witness :
  let w := world_two_arrivals in
  let t := fst (performLaneMove 0%nat (lane_switch_step 0%nat w)) in
  let w2 := snd (performLaneMove 0%nat (lane_switch_step 0%nat w)) in
  let w3 := removeVehicle (getLane 0%nat w2) (getNewPosition 0%nat w2) w2 in
  let recorded := Inputs.warmup_time Scenarios.inputs2 <? 2 in
  delete 0%nat [0%nat; 1%nat] !! 0%nat = [0%nat; 1%nat] !! 1%nat /\
  interior_loop Scenarios.inputs2 (Scenarios.length2 1) 2 2 0
                [0%nat; 1%nat] [] w [] [] =
  Some (mkInterior
          (mkRemoval (delete 0%nat [0%nat; 1%nat])
             (if recorded
              then [] ++ [getTravelTime 0%nat Scenarios.inputs2 w3] else [])
             (deleteVehicle 0%nat w3)
             ((if recorded
               then [] ++ [AddValue 0%nat (getId 0%nat w3)
                             (getTravelTime 0%nat Scenarios.inputs2 w3)]
               else []) ++ [Delete 0%nat]))
          ([] ++ [make_vdata 0%nat w2 (getNewPosition 0%nat w2) t])).
Proof.
  apply (erase_skips_the_next_vehicle Scenarios.inputs2 (Scenarios.length2 1)
           2 0 0 [0%nat; 1%nat] [] world_two_arrivals
           (snd (performLaneMove 0%nat (lane_switch_step 0%nat world_two_arrivals)))
           [] [] 0%nat
           (fst (performLaneMove 0%nat (lane_switch_step 0%nat world_two_arrivals)))).
  - reflexivity.
  - reflexivity.
  - apply surjective_pairing.
  - vm_compute. discriminate.
  - vm_compute. discriminate.
Defined.

End DriverProps.

(** ** The handoff message read back by the receiver *)

Module WireProps.
Import Driver.
Local Open Scope Z_scope.

Definition byte_value (b : Byte.byte) : Z := Z.of_N (Byte.to_N b).

(** The [int] held by four bytes of memory, low byte first, in two's
    complement. *)
Definition le_int (bs : list Byte.byte) : Z :=
  match bs with
  | [b0; b1; b2; b3] =>
      let u := byte_value b0 + 256 * byte_value b1 + 65536 * byte_value b2
               + 16777216 * byte_value b3 in
      if u <? 2147483648 then u else u - 4294967296
  | _ => 0
  end.

(** The [VehicleData] held by twenty bytes of memory. *)
Definition read_record (bs : list Byte.byte) : VehicleData :=
  mkVehicleData (le_int (take 4 bs))
                (le_int (take 4 (drop 4 bs)))
                (le_int (take 4 (drop 8 bs)))
                (le_int (take 4 (drop 12 bs)))
                (le_int (take 4 (drop 16 bs))).

(** The first [n] elements of [send_to_right] after the bytes [bs] were
    received into [send_to_right.data()]. *)
Fixpoint read_records (n : nat) (bs : list Byte.byte) : list VehicleData :=
  match n with
  | O => []
  | S n' => read_record (take 20 bs) :: read_records n' (drop 20 bs)
  end.

(** The two receives of a rank other than 0:
    [MPI_Recv(&send_count, 1, MPI_INT, ...)], [send_to_right.resize(send_count)]
    and [MPI_Recv(send_to_right.data(), send_count * sizeof(VehicleData),
    MPI_BYTE, ...)], for a count message [count_bytes] and a second message
    [payload].  [resize] throws when [send_count] is negative, [MPI_Recv]
    refuses a negative count and a message longer than its count: [None].
    Otherwise the vector holds [send_count] records, read from the bytes
    received and, past them, from the zero bytes [resize] has left. *)
Definition receive_batch (count_bytes payload : list Byte.byte)
  : option (list VehicleData) :=
  let send_count := le_int count_bytes in
  if send_count <? 0 then None
  else
    let count := byte_count send_count in
    if count <? 0 then None
    else if count <? Z.of_nat (length payload) then None
    else
      Some (read_records (Z.to_nat send_count)
              (payload ++
               repeat Byte.x00
                 (Z.to_nat send_count * sizeof_VehicleData - length payload))).

(** All five members of the record are values of [int]. *)
Definition fits_int (v : VehicleData) : Prop :=
  Partition.in_int (lane v) /\ Partition.in_int (id v) /\
  Partition.in_int (position v) /\ Partition.in_int (speed v) /\
  Partition.in_int (time_on_road v).

Lemma byte_value_byte_of (z : Z) : byte_value (byte_of z) = z mod 256.
Proof.
  unfold byte_value, byte_of.
  pose proof (Z.mod_pos_bound z 256 ltac:(lia)) as Hb.
  destruct (Byte.of_N (Z.to_N (z mod 256))) as [b|] eqn:E.
  - apply Byte.to_of_N in E. rewrite E. lia.
  - apply Byte.of_N_None_iff in E. lia.
Qed.

Lemma le_int_le_bytes (z : Z) :
  Partition.in_int z -> le_int (le_bytes z) = z.
Proof.
  unfold Partition.in_int, Partition.int_min, Partition.int_max.
  intros Hz. unfold le_int, le_bytes. rewrite !byte_value_byte_of.
  rewrite !Z.shiftr_div_pow2 by lia.
  change (2 ^ 8) with 256. change (2 ^ 16) with 65536.
  change (2 ^ 24) with 16777216.
  change (2 ^ 31) with 2147483648 in Hz.
  cbv zeta.
  destruct (Z.ltb_spec
              (z mod 256 + 256 * (z / 256 mod 256) + 65536 * (z / 65536 mod 256)
               + 16777216 * (z / 16777216 mod 256)) 2147483648);
    Z.div_mod_to_equations; lia.
Qed.

Lemma le_int_four_bytes (z : Z) :
  Partition.in_int z ->
  le_int [byte_of z; byte_of (Z.shiftr z 8); byte_of (Z.shiftr z 16);
          byte_of (Z.shiftr z 24)] = z.
Proof. exact (le_int_le_bytes z). Qed.

Lemma read_record_record_bytes (v : VehicleData) (rest : list Byte.byte) :
  fits_int v -> read_record (take 20 (record_bytes v ++ rest)) = v.
Proof.
  intros (H1 & H2 & H3 & H4 & H5). destruct v as [l i p s t].
  unfold read_record, record_bytes.
  cbn [int_bytes little_endian le_bytes app take drop
       lane id position speed time_on_road] in *.
  rewrite !le_int_four_bytes by assumption. reflexivity.
Qed.

Lemma read_records_bytes (batch : list VehicleData) :
  Forall fits_int batch ->
  read_records (length batch) (concat (map record_bytes batch)) = batch.
Proof.
  induction 1 as [|v batch Hv _ IH]; [reflexivity|].
  cbn [length map concat read_records].
  rewrite read_record_record_bytes by assumption. f_equal.
  rewrite drop_app_length'; [exact IH|].
  unfold record_bytes. rewrite !length_app, !int_bytes_length. reflexivity.
Qed.

Section RoundTrip.
Variables P T : Type.

(** X17.  On a little-endian machine the batch a rank reads out of the two
    messages of its left neighbour is the batch that neighbour held in
    [send_to_right], record for record and member for member, as long as the
    members of the records are values of [int] and so is the number of
    bytes of the batch, 20 times the number of its records. *)
Theorem handoff_round_trip (dest : Z) (batch : list VehicleData) :
  Forall fits_int batch ->
  Z.of_nat (length batch) * 20 <= Partition.int_max ->
  exists count_bytes payload,
    omap (@wire little_endian P T)
         [SendCount dest (Z.of_nat (length batch)); SendRecords dest batch]
      = [(dest, count_bytes); (dest, payload)] /\
    receive_batch count_bytes payload = Some batch.
Proof.
  intros Hall Hfit. rewrite wire_batch_fits by assumption.
  do 2 eexists. split; [reflexivity|].
  unfold receive_batch. simpl int_bytes.
  unfold Partition.int_max in Hfit.
  rewrite le_int_le_bytes
    by (unfold Partition.in_int, Partition.int_min, Partition.int_max; lia).
  unfold byte_count. change (Z.of_nat sizeof_VehicleData) with 20.
  rewrite wrap_int_in_range
    by (unfold Partition.in_int, Partition.int_min, Partition.int_max; lia).
  rewrite records_bytes_length. unfold sizeof_VehicleData.
  destruct (Z.ltb_spec (Z.of_nat (length batch)) 0); [lia|].
  destruct (Z.ltb_spec (Z.of_nat (length batch) * 20) 0); [lia|].
  destruct (Z.ltb_spec (Z.of_nat (length batch) * 20)
              (Z.of_nat (length batch * 20))); [lia|].
  rewrite Nat2Z.id, Nat.sub_diag. simpl repeat. rewrite app_nil_r.
  rewrite read_records_bytes by assumption. reflexivity.
Qed.

End RoundTrip.

Lemma handoff_round_trip_witness :
  exists count_bytes payload,
    omap (@wire little_endian nat Q)
         [SendCount 1 (Z.of_nat (length [mkVehicleData 1 7 12 3 5;
                                         mkVehicleData 0 (-8) 300 1 70000]));
          SendRecords 1 [mkVehicleData 1 7 12 3 5;
                         mkVehicleData 0 (-8) 300 1 70000]]
      = [(1, count_bytes); (1, payload)] /\
    receive_batch count_bytes payload
    = Some [mkVehicleData 1 7 12 3 5; mkVehicleData 0 (-8) 300 1 70000].
Proof.
  apply (handoff_round_trip nat Q 1 [mkVehicleData 1 7 12 3 5;
                                     mkVehicleData 0 (-8) 300 1 70000]).
  - repeat constructor; simpl; unfold Partition.int_min, Partition.int_max; lia.
  - simpl. unfold Partition.int_max. lia.
Defined.

End WireProps.
